(** * txproto: the mirrored packet FIFO ([fifo_packet.c] over [fifo_template.c])

    A shallow embedding of the FIFO template as instantiated for [AVPacket]
    ([RENAME(x)] = [sp_packet_x], [FRENAME(x)] = [PACKET_FIFO_x],
    [CLONE_FN(x)] = [x ? av_packet_clone(x) : NULL]).

    The embedding is sequential: every entry point runs under the FIFO's
    mutex, so one call is one atomic step on the store of FIFOs.  A call that
    would sleep (on a condition variable, or on a mutex the calling thread
    already holds) yields the outcome [Blocks]. *)

From Stdlib Require Import ZArith Lia String Ascii List Bool.
From stdpp Require Import gmap strings list.

Open Scope Z_scope.

(** ** Return codes

    [AVERROR(e)] is [-(e)]; the errno numbers are the Linux ones. *)

Definition AVERROR (e : Z) : Z := - e.
Definition EAGAIN  : Z := 11.
Definition ENOMEM  : Z := 12.
Definition EINVAL  : Z := 22.
Definition ENOBUFS : Z := 105.

(** ** C [int] arithmetic: 32 bits, two's complement *)

Definition INT_MAX : Z := 2147483647.
Definition INT_MIN : Z := -2147483648.

Definition wrap_int (z : Z) : Z := (z + 2147483648) mod 4294967296 - 2147483648.

(** ** C strings and [strtok_r]

    A [string] stands for the characters before the terminating NUL;
    [strdup] copies up to the first NUL. *)

Section CStrings.
Local Open Scope string_scope.

Definition NUL : ascii := Ascii.zero.

Fixpoint strdup (s : string) : string :=
  match s with
  | EmptyString => EmptyString
  | String c s' => if Ascii.eqb c NUL then EmptyString else String c (strdup s')
  end.

(** [strchr(delim, c) != NULL] *)
Fixpoint is_delim (c : ascii) (delim : string) : bool :=
  match delim with
  | EmptyString => false
  | String d delim' => Ascii.eqb c d || is_delim c delim'
  end.

(** [s + strspn(s, delim)] *)
Fixpoint skip_delims (s delim : string) : string :=
  match s with
  | EmptyString => EmptyString
  | String c s' => if is_delim c delim then skip_delims s' delim else s
  end.

(** The token that starts at [s] and the new [saveptr]: the token ends at
    the first delimiter (overwritten by NUL, [saveptr] just behind it) or
    at the end of the string ([saveptr] on the terminating NUL). *)
Fixpoint split_token (s delim : string) : string * string :=
  match s with
  | EmptyString => (EmptyString, EmptyString)
  | String c s' =>
      if is_delim c delim then (EmptyString, s')
      else let '(tok, rest) := split_token s' delim in (String c tok, rest)
  end.

(** [strtok_r(str, delim, &saveptr)]: [None] is the NULL result, otherwise
    the token and the new [saveptr]. *)
Definition strtok_r (str delim : string) : option (string * string) :=
  match skip_delims str delim with
  | EmptyString => None
  | s => Some (split_token s delim)
  end.

(** The successive results of [strtok_r] on one buffer. *)
Fixpoint strtok_all (fuel : nat) (saveptr : string) : list string :=
  match fuel with
  | O => []
  | S fuel' =>
      match strtok_r saveptr "," with
      | None => []
      | Some (tok, rest) => tok :: strtok_all fuel' rest
      end
  end.

Definition tokens (in_str : string) : list string :=
  let copy := strdup in_str in strtok_all (S (String.length copy)) copy.

(** A comma-separated list. *)
Fixpoint join_commas (ts : list string) : string :=
  match ts with
  | [] => EmptyString
  | [t] => t
  | t :: ts' => t +:+ "," +:+ join_commas ts'
  end.

(** A proper field of a comma-separated list: not empty, no comma, no NUL. *)
Fixpoint plain (s : string) : bool :=
  match s with
  | EmptyString => true
  | String c s' => negb (Ascii.eqb c ",") && negb (Ascii.eqb c NUL) && plain s'
  end.

Definition field (t : string) : Prop := t <> EmptyString /\ plain t = true.
End CStrings.


(** ** The parameters of the template

    [fifo_template.c] is written over the macros [TYPE], [CLONE_FN] and
    [FRENAME]; [fifo_packet.c] binds them to [AVPacket], [av_packet_clone]
    and the [PACKET_FIFO_*] enumerators of [libtxproto/fifo_packet.h].  The
    library function, the enumerators' values and the allocator are not part
    of the template and stay parameters. *)

(** The address of an [SPPacketFIFO], i.e. the [data] of an [AVBufferRef]. *)
Definition fifo_id := nat.

Class FifoTemplate := {
  (** [TYPE]; a [TYPE *] is an [option TYPE], [None] being NULL *)
  TYPE : Type;
  (** [av_packet_clone]: a new reference, or NULL when out of memory *)
  av_packet_clone : TYPE -> option TYPE;
  PACKET_FIFO_BLOCK_MAX_OUTPUT : Z;
  PACKET_FIFO_BLOCK_NO_INPUT : Z;
  PACKET_FIFO_PULL_NO_BLOCK : Z;
  PACKET_FIFO_PULL_POKE : Z;
  (** whether [av_fast_realloc] manages to make room for [n] pointers in the
      array of the given FIFO *)
  av_fast_realloc : fifo_id -> nat -> bool;
}.

(** The names [string_to_block_flags] compares its tokens with. *)
Definition flag_names : list string :=
  ["block_no_input"; "block_max_output"; "pull_no_block"]%string.

Section Template.
Context `{FifoTemplate}.

(** [#define CLONE_FN(x) ((x) ? av_packet_clone((x)) : NULL)] *)
Definition CLONE_FN (x : option TYPE) : option TYPE :=
  match x with
  | Some p => av_packet_clone p
  | None => None
  end.

(** *** [string_to_block_flags] *)

(** The branch of the [strcmp] chain a token takes. *)
Definition flag_of_token (ptr : string) : option Z :=
  if String.eqb ptr "block_no_input" then Some PACKET_FIFO_BLOCK_NO_INPUT
  else if String.eqb ptr "block_max_output" then Some PACKET_FIFO_BLOCK_MAX_OUTPUT
  else if String.eqb ptr "pull_no_block" then Some PACKET_FIFO_PULL_NO_BLOCK
  else None.

(** The [while (ptr != NULL)] loop; [cur] is the last result of
    [strtok_r].  Returns [(err, *dst)]. *)
Fixpoint parse_flags_loop (fuel : nat) (dst : Z) (cur : option (string * string))
  : option (Z * Z) :=
  match fuel with
  | O => None
  | S fuel' =>
      match cur with
      | None => Some (0, dst)
      | Some (ptr, saveptr) =>
          match flag_of_token ptr with
          | Some flag => parse_flags_loop fuel' (Z.lor dst flag) (strtok_r saveptr ",")
          | None => Some (AVERROR EINVAL, dst)
          end
      end
  end.

(** [sp_packet_fifo_string_to_block_flags(&dst, in_str)] is [Some (err, dst)];
    the loop bound is never reached ([string_to_block_flags_tokens]). *)
Definition sp_packet_fifo_string_to_block_flags (in_str : string) : option (Z * Z) :=
  let copy := strdup in_str in
  parse_flags_loop (S (String.length copy)) 0 (strtok_r copy ",").

(** What the loop does to [err] and [*dst] over a list of tokens. *)
Fixpoint run_tokens (dst : Z) (ts : list string) : Z * Z :=
  match ts with
  | [] => (0, dst)
  | t :: ts' =>
      match flag_of_token t with
      | Some flag => run_tokens (Z.lor dst flag) ts'
      | None => (AVERROR EINVAL, dst)
      end
  end.

(** The tokens with a branch of their own. *)
Definition known (t : string) : Prop := is_Some (flag_of_token t).

(** What the loop leaves in [*dst] over a list of valid tokens, starting
    from [dst]: the branches taken, or-ed in one after the other. *)
Definition or_flags (dst : Z) (ts : list string) : Z :=
  fold_left (fun acc t => Z.lor acc (default 0 (flag_of_token t))) ts dst.

(** *** The flag strings as the specification reads them

    "Flag tokens: the exact lowercase strings block_no_input,
    block_max_output, pull_no_block": each string names the flag of the
    same name, and a list of them stands for "the union of the
    corresponding flags".  [spec_flag_table], [spec_flag_set] and
    [spec_flags_union] follow these words, not the parser; the theorems
    compare the parser with them. *)
Definition spec_flag_table : list (string * Z) :=
  [("block_no_input"%string, PACKET_FIFO_BLOCK_NO_INPUT);
   ("block_max_output"%string, PACKET_FIFO_BLOCK_MAX_OUTPUT);
   ("pull_no_block"%string, PACKET_FIFO_PULL_NO_BLOCK)].

(** The flags whose name occurs among [names]. *)
Definition spec_flag_set (names : list string) : list Z :=
  snd <$> filter (fun entry => fst entry ∈ names) spec_flag_table.

(** Their union, as the bit mask a [FNAME] holds. *)
Definition spec_flags_union (names : list string) : Z :=
  foldr Z.lor 0 (spec_flag_set names).

(** *** The FIFO

    [queued] holds the entries [queued[0 .. num_queued-1]], head first;
    [num_queued] is its length ([queued_alloc_size] only matters to the
    allocator).  The mutex and the condition variables carry no data: who
    holds which mutex is tracked by the calls, see [sp_packet_fifo_push_rec]. *)
Record SPPacketFIFO := {
  queued : list (option TYPE);
  max_queued : Z;
  block_flags : Z;
  poked : bool;
  dests : list fifo_id;
  sources : list fifo_id;
}.

Definition num_queued (ctx : SPPacketFIFO) : Z := Z.of_nat (length (queued ctx)).

Definition set_queued (ctx : SPPacketFIFO) (q : list (option TYPE)) : SPPacketFIFO :=
  {| queued := q; max_queued := max_queued ctx; block_flags := block_flags ctx;
     poked := poked ctx; dests := dests ctx; sources := sources ctx |}.

Definition set_poked (ctx : SPPacketFIFO) (b : bool) : SPPacketFIFO :=
  {| queued := queued ctx; max_queued := max_queued ctx; block_flags := block_flags ctx;
     poked := b; dests := dests ctx; sources := sources ctx |}.

Definition set_dests (ctx : SPPacketFIFO) (l : list fifo_id) : SPPacketFIFO :=
  {| queued := queued ctx; max_queued := max_queued ctx; block_flags := block_flags ctx;
     poked := poked ctx; dests := l; sources := sources ctx |}.

Definition set_sources (ctx : SPPacketFIFO) (l : list fifo_id) : SPPacketFIFO :=
  {| queued := queued ctx; max_queued := max_queued ctx; block_flags := block_flags ctx;
     poked := poked ctx; dests := dests ctx; sources := l |}.

(** The FIFOs that are alive, by address. *)
Abbreviation store := (gmap fifo_id SPPacketFIFO).

(** What a sleeping call waits for. *)
Inductive wait :=
| WaitLock (f : fifo_id)      (* [pthread_mutex_lock(&f->lock)], held by the caller *)
| WaitCondIn (f : fifo_id)    (* [pthread_cond_wait(&f->cond_in, ...)] *)
| WaitCondOut (f : fifo_id).  (* [pthread_cond_wait(&f->cond_out, ...)] *)

(** How a call ends when no other thread runs: it returns, it sleeps for
    ever, or it aborts (a failed [assert], a dangling handle).
    [OutOfFuel] is the bound of the embedding, not a behaviour of the code. *)
Inductive outcome (A : Type) :=
| Returns (a : A) (σ : store)
| Blocks (w : wait) (σ : store)
| Aborts
| OutOfFuel.
Global Arguments Returns {A} a σ.
Global Arguments Blocks {A} w σ.
Global Arguments Aborts {A}.
Global Arguments OutOfFuel {A}.

(** [static AVBufferRef *find_ref_by_data(AVBufferRef *entry, void *opaque)] *)
Definition find_ref_by_data (entry : fifo_id) (opaque : fifo_id) : option fifo_id :=
  if Nat.eqb entry opaque then Some entry else None.

(** Modelled from the spec: [sp_bufferlist_append] of [utils.c], "append(h):
    add one reference". *)
Definition sp_bufferlist_append (lst : list fifo_id) (entry : fifo_id) : list fifo_id :=
  lst ++ [entry].

(** Modelled from the spec: [sp_bufferlist_pop] of [utils.c], "pop(predicate,
    arg): remove and return the first entry matching predicate(entry, arg)". *)
Fixpoint sp_bufferlist_pop {A} (lst : list fifo_id)
    (find : fifo_id -> A -> option fifo_id) (find_opaque : A)
  : option fifo_id * list fifo_id :=
  match lst with
  | [] => (None, [])
  | entry :: rest =>
      match find entry find_opaque with
      | Some ref => (Some ref, rest)
      | None => let '(r, rest') := sp_bufferlist_pop rest find find_opaque in
                (r, entry :: rest')
      end
  end.

(** [sp_packet_fifo_create], given what its allocations return: [ctx] is
    the result of [av_mallocz] (NULL, or the address of a zeroed struct);
    [ctx_ref], [dests_new] and [sources_new] tell whether
    [av_buffer_create] and the two calls of [sp_bufferlist_new] succeed.
    Every failure returns NULL: without [ctx_ref] the struct is freed, with
    it [av_buffer_unref] drops the only reference and [fifo_destroy] frees
    the struct.  No FIFO is left behind. *)
Definition sp_packet_fifo_create (σ : store) (ctx : option fifo_id)
    (ctx_ref dests_new sources_new : bool) (max_queued block_flags : Z)
  : option fifo_id * store :=
  match ctx with
  | None => (None, σ)
  | Some f =>
      if negb ctx_ref then (None, σ)
      else if negb dests_new then (None, σ)
      else if negb sources_new then (None, σ)
      else
        (Some f, <[f := {| queued := []; max_queued := max_queued;
                           block_flags := block_flags; poked := false;
                           dests := []; sources := [] |}]> σ)
  end.

(** [sp_packet_fifo_mirror]; the log lines leave the FIFOs alone. *)
Definition sp_packet_fifo_mirror (σ : store) (dst src : option fifo_id) : outcome Z :=
  match dst, src with
  | Some d, Some s =>
      match σ !! d with
      | None => Aborts
      | Some dst_ctx =>
          let σ1 := <[d := set_sources dst_ctx (sp_bufferlist_append (sources dst_ctx) s)]> σ in
          match σ1 !! s with
          | None => Aborts
          | Some src_ctx =>
              Returns 0 (<[s := set_dests src_ctx (sp_bufferlist_append (dests src_ctx) d)]> σ1)
          end
      end
  | _, _ => Returns (AVERROR EINVAL) σ
  end.

(** [sp_packet_fifo_unmirror]; a failed [assert] aborts. *)
Definition sp_packet_fifo_unmirror (σ : store) (dst src : option fifo_id) : outcome Z :=
  match dst, src with
  | Some d, Some s =>
      match σ !! s with
      | None => Aborts
      | Some src_ctx =>
          match sp_bufferlist_pop (dests src_ctx) find_ref_by_data d with
          | (None, _) => Aborts
          | (Some dst_ref, l) =>
              let σ1 := <[s := set_dests src_ctx l]> σ in
              match σ1 !! d with
              | None => Aborts
              | Some dst_ctx =>
                  match sp_bufferlist_pop (sources dst_ctx) find_ref_by_data s with
                  | (None, _) => Aborts
                  | (Some src_ref, l') => Returns 0 (<[d := set_sources dst_ctx l']> σ1)
                  end
              end
          end
      end
  | _, _ => Returns (AVERROR EINVAL) σ
  end.

(** The body of [sp_packet_fifo_is_full] under the lock. *)
Definition is_full_ret (ctx : SPPacketFIFO) : Z :=
  if max_queued ctx =? 0 then 1
  else if max_queued ctx >? 0
       then (if num_queued ctx >? wrap_int (max_queued ctx + 1) then 1 else 0)
       else 0.

Definition sp_packet_fifo_is_full (σ : store) (src : option fifo_id) : outcome Z :=
  match src with
  | None => Returns 0 σ
  | Some f =>
      match σ !! f with
      | None => Aborts
      | Some ctx => Returns (is_full_ret ctx) σ
      end
  end.

Definition sp_packet_fifo_get_size (σ : store) (src : option fifo_id) : outcome Z :=
  match src with
  | None => Returns 0 σ
  | Some f =>
      match σ !! f with
      | None => Aborts
      | Some ctx => Returns (num_queued ctx) σ
      end
  end.

Definition sp_packet_fifo_get_max_size (σ : store) (src : option fifo_id) : outcome Z :=
  match src with
  | None => Returns INT_MAX σ
  | Some f =>
      match σ !! f with
      | None => Aborts
      | Some ctx => Returns (if max_queued ctx =? -1 then INT_MAX else max_queued ctx) σ
      end
  end.

Definition sp_packet_fifo_set_max_queued (σ : store) (dst : fifo_id) (max_queued : Z)
  : outcome unit :=
  match σ !! dst with
  | None => Aborts
  | Some ctx =>
      Returns tt (<[dst := {| queued := queued ctx; max_queued := max_queued;
                             block_flags := block_flags ctx; poked := poked ctx;
                             dests := dests ctx; sources := sources ctx |}]> σ)
  end.

Definition sp_packet_fifo_set_block_flags (σ : store) (dst : fifo_id) (block_flags : Z)
  : outcome unit :=
  match σ !! dst with
  | None => Aborts
  | Some ctx =>
      Returns tt (<[dst := {| queued := queued ctx; max_queued := max_queued ctx;
                             block_flags := block_flags; poked := poked ctx;
                             dests := dests ctx; sources := sources ctx |}]> σ)
  end.

(** [sp_packet_fifo_poke]; the signal on [cond_in] finds nobody asleep. *)
Definition sp_packet_fifo_poke (σ : store) (ref : fifo_id) : outcome Z :=
  match σ !! ref with
  | None => Aborts
  | Some ctx => Returns 0 (<[ref := set_poked ctx true]> σ)
  end.

(** *** Push and fan-out *)

(** The [distribute:] loop over [ctx->dests], in list order
    ([sp_bufferlist_iter_ref] hands out the entries one after the other);
    [push σ dist] is the recursive [sp_packet_fifo_push(dist, in)].  A
    destination that does not return stops the caller with it. *)
Fixpoint fifo_distribute (push : store -> fifo_id -> outcome Z)
    (dests : list fifo_id) (err : Z) (σ : store) : outcome Z :=
  match dests with
  | [] => Returns err σ
  | dist :: rest =>
      match push σ dist with
      | Returns ret σ' =>
          if ret =? AVERROR ENOMEM then Returns ret σ'
          else if negb (ret =? 0) && (err =? 0) then fifo_distribute push rest ret σ'
          else fifo_distribute push rest err σ'
      | Blocks w σ' => Blocks w σ'
      | Aborts => Aborts
      | OutOfFuel => OutOfFuel
      end
  end.

(** The test in front of the enqueue: "Block or error, but only for
    non-NULL pushes". *)
Definition over_capacity (ctx : SPPacketFIFO) (in_ : option TYPE) : bool :=
  bool_decide (is_Some in_) && negb (max_queued ctx =? -1)
  && (num_queued ctx >? wrap_int (max_queued ctx + 1)).

(** The part of push in front of [distribute:]. *)
Inductive enqueue_result :=
| Enqueued (ctx : SPPacketFIFO)  (* on to [distribute:], the FIFO being [ctx] *)
| Refused (err : Z)              (* [goto unlock] with [err] *)
| WaitsOut.                      (* asleep in [pthread_cond_wait(&ctx->cond_out, ...)] *)

Definition fifo_enqueue (dst : fifo_id) (ctx : SPPacketFIFO) (in_ : option TYPE)
  : enqueue_result :=
  if max_queued ctx =? 0 then Enqueued ctx
  else if over_capacity ctx in_ then
    if Z.land (block_flags ctx) PACKET_FIFO_BLOCK_MAX_OUTPUT =? 0
    then Refused (AVERROR ENOBUFS)
    else WaitsOut
  else if negb (av_fast_realloc dst (S (length (queued ctx))))
  then Refused (AVERROR ENOMEM)
  else Enqueued (set_queued ctx (queued ctx ++ [CLONE_FN in_])).

(** [sp_packet_fifo_push(dst, in)] for a non-null [dst], called by a thread
    that holds the mutexes of the FIFOs [held] (its callers up the fan-out);
    [fuel] bounds the depth of the recursion.  Locking a mutex the thread
    holds already never returns; so does [pthread_cond_wait] when nobody
    else runs. *)
Fixpoint sp_packet_fifo_push_rec (fuel : nat) (held : list fifo_id)
    (σ : store) (dst : fifo_id) (in_ : option TYPE) : outcome Z :=
  match fuel with
  | O => OutOfFuel
  | S fuel' =>
      match σ !! dst with
      | None => Aborts
      | Some ctx =>
          if bool_decide (dst ∈ held) then Blocks (WaitLock dst) σ
          else
            match fifo_enqueue dst ctx in_ with
            | Refused err => Returns err σ
            | WaitsOut => Blocks (WaitCondOut dst) σ
            | Enqueued ctx' =>
                fifo_distribute
                  (fun σ' dist => sp_packet_fifo_push_rec fuel' (dst :: held) σ' dist in_)
                  (dests ctx) 0 (<[dst := ctx']> σ)
            end
      end
  end.

(** [sp_packet_fifo_push]: a call from outside, no mutex held.  The nesting
    of the fan-out is at most the number of FIFOs. *)
Definition sp_packet_fifo_push (σ : store) (dst : option fifo_id) (in_ : option TYPE)
  : outcome Z :=
  match dst with
  | None => Returns 0 σ
  | Some f => sp_packet_fifo_push_rec (S (size σ)) [] σ f in_
  end.

(** *** Pull, peek and pop *)

(** How the [while (!ctx->num_queued)] loop is left. *)
Inductive pull_wait_result :=
| Proceed (ctx : SPPacketFIFO)           (* the queue is not empty *)
| Unlock (ret : Z) (ctx : SPPacketFIFO)  (* [goto unlock] *)
| Sleep (ctx : SPPacketFIFO)             (* asleep in [pthread_cond_wait] *)
| Spin.                                  (* bound of the embedding *)

(** The loop: nobody else runs, so a [pthread_cond_wait] never ends. *)
Fixpoint pull_wait (fuel : nat) (ctx : SPPacketFIFO) (pull_poke pull_no_block : Z)
  : pull_wait_result :=
  match fuel with
  | O => Spin
  | S fuel' =>
      if negb (num_queued ctx =? 0) then Proceed ctx
      else
        let block_no_input := Z.land (block_flags ctx) PACKET_FIFO_BLOCK_NO_INPUT in
        if (block_no_input =? 0) || negb (pull_no_block =? 0)
        then Unlock (AVERROR EAGAIN) ctx
        else if negb (poked ctx) then Sleep ctx
        else if negb (pull_poke =? 0) && poked ctx
             then Unlock (AVERROR EAGAIN) (set_poked ctx false)
             else pull_wait fuel' (set_poked ctx false) pull_poke pull_no_block
  end.

(** [packet_fifo_pull_flags_template(src, &dst, flags, pop)]: the value
    returned and [*dst].  The loop runs at most twice: its second round
    finds [poked] cleared. *)
Definition packet_fifo_pull_flags_template (σ : store) (src : option fifo_id)
    (flags : Z) (pop : bool) : outcome (Z * option TYPE) :=
  match src with
  | None => Returns (0, None) σ
  | Some f =>
      match σ !! f with
      | None => Aborts
      | Some ctx0 =>
          let pull_poke := Z.land flags PACKET_FIFO_PULL_POKE in
          let pull_no_block := Z.land flags PACKET_FIFO_PULL_NO_BLOCK in
          match pull_wait 2 ctx0 pull_poke pull_no_block with
          | Proceed ctx =>
              match queued ctx with
              | [] => Aborts
              | head :: tail =>
                  if pop then Returns (0, head) (<[f := set_queued ctx tail]> σ)
                  else Returns (0, CLONE_FN head) (<[f := ctx]> σ)
              end
          | Unlock ret ctx => Returns (ret, None) (<[f := ctx]> σ)
          | Sleep ctx => Blocks (WaitCondIn f) (<[f := ctx]> σ)
          | Spin => OutOfFuel
          end
      end
  end.

Definition sp_packet_fifo_pop_flags (σ : store) (src : option fifo_id) (flags : Z)
  : outcome (Z * option TYPE) :=
  packet_fifo_pull_flags_template σ src flags true.

Definition sp_packet_fifo_peek_flags (σ : store) (src : option fifo_id) (flags : Z)
  : outcome (Z * option TYPE) :=
  packet_fifo_pull_flags_template σ src flags false.

(** The result of a call that ignores the return code: [val]. *)
Definition pulled_val (o : outcome (Z * option TYPE)) : outcome (option TYPE) :=
  match o with
  | Returns (_, val) σ => Returns val σ
  | Blocks w σ => Blocks w σ
  | Aborts => Aborts
  | OutOfFuel => OutOfFuel
  end.

Definition sp_packet_fifo_pop (σ : store) (src : option fifo_id) : outcome (option TYPE) :=
  pulled_val (packet_fifo_pull_flags_template σ src 0 true).

Definition sp_packet_fifo_peek (σ : store) (src : option fifo_id) : outcome (option TYPE) :=
  pulled_val (packet_fifo_pull_flags_template σ src 0 false).
(** *** Sequences of calls and the words of the properties *)

(** Pushing [items] into [dst] one after the other, every push returning 0
    (a successful push); the FIFOs afterwards. *)
Fixpoint push_all (σ : store) (dst : option fifo_id) (items : list (option TYPE))
  : option store :=
  match items with
  | [] => Some σ
  | x :: rest =>
      match sp_packet_fifo_push σ dst x with
      | Returns ret σ' => if ret =? 0 then push_all σ' dst rest else None
      | _ => None
      end
  end.

(** [n] calls of [pull] in a row and what they return. *)
Fixpoint pull_all {A} (pull : store -> outcome A) (σ : store) (n : nat)
  : outcome (list A) :=
  match n with
  | O => Returns [] σ
  | S n' =>
      match pull σ with
      | Returns a σ' =>
          match pull_all pull σ' n' with
          | Returns l σ'' => Returns (a :: l) σ''
          | o => o
          end
      | Blocks w σ' => Blocks w σ'
      | Aborts => Aborts
      | OutOfFuel => OutOfFuel
      end
  end.

(** The destinations [ds] are pushed to in order, from [σ] to [σ'], each
    push returning; [rets] are the values returned. *)
Inductive attempts (push : store -> fifo_id -> outcome Z)
  : list fifo_id -> store -> list Z -> store -> Prop :=
| attempts_nil σ : attempts push [] σ [] σ
| attempts_cons dist ds σ ret σ1 rets σ2 :
    push σ dist = Returns ret σ1 ->
    attempts push ds σ1 rets σ2 ->
    attempts push (dist :: ds) σ (ret :: rets) σ2.

(** The first value of [rets] that is an error, 0 if there is none. *)
Fixpoint first_error (rets : list Z) : Z :=
  match rets with
  | [] => 0
  | ret :: rest => if ret =? 0 then first_error rest else ret
  end.

(** None of the values returned is out-of-memory. *)
Definition no_oom (rets : list Z) : Prop := AVERROR ENOMEM ∉ rets.

(** [s] is in the sources of [d]; [d] is in the dests of [s]. *)
Definition in_sources (σ : store) (d s : fifo_id) : Prop :=
  exists ctx, σ !! d = Some ctx /\ s ∈ sources ctx.

Definition in_dests (σ : store) (s d : fifo_id) : Prop :=
  exists ctx, σ !! s = Some ctx /\ d ∈ dests ctx.

(** "A FIFO may appear at most once in any peer's destination or source
    set." *)
Definition at_most_once (σ : store) : Prop :=
  map_Forall (fun _ ctx => NoDup (dests ctx) /\ NoDup (sources ctx)) σ.
(** *** Words for what a push leaves behind *)

(** [c'] is [c] with clones of [in_] appended to its queue. *)
Definition grown_by (in_ : option TYPE) (c c' : SPPacketFIFO) : Prop :=
  exists extra,
    c' = set_queued c (queued c ++ extra) /\ Forall (fun x => x = CLONE_FN in_) extra.

(** The same FIFOs are alive in [σ] and [σ'], each grown by clones of [in_]. *)
Definition only_appends (in_ : option TYPE) (σ σ' : store) : Prop :=
  forall g, option_Forall2 (grown_by in_) (σ !! g) (σ' !! g).
(** What holds, in terms of the FIFOs [σ], when a push of [in_] sleeps on [w]. *)
Definition sleeps_for (in_ : option TYPE) (w : wait) (σ : store) : Prop :=
  match w with
  | WaitLock g => is_Some (σ !! g)
  | WaitCondIn _ => False
  | WaitCondOut g =>
      is_Some in_ /\
      exists ctx, σ !! g = Some ctx /\
        Z.land (block_flags ctx) PACKET_FIFO_BLOCK_MAX_OUTPUT <> 0 /\
        max_queued ctx <> 0 /\ max_queued ctx <> -1
  end.

(** *** Unmirror-all *)

(** Modelled from the spec: [sp_bufferlist_find_fn_first] of [utils.c], the
    built-in "match anything" predicate of [sp_bufferlist_pop]. *)
Definition sp_bufferlist_find_fn_first (entry : fifo_id) (opaque : unit)
  : option fifo_id := Some entry.

(** The first [while] loop of [sp_packet_fifo_unmirror_all]: every source
    of [ref] is popped and [ref] is popped from its dests;
    [av_buffer_unref] of a NULL [own_ref] does nothing.  Each round
    shortens [ref]'s sources, [fuel] bounds the rounds. *)
Fixpoint unmirror_all_sources (fuel : nat) (σ : store) (ref : fifo_id) : outcome unit :=
  match fuel with
  | O => OutOfFuel
  | S fuel' =>
      match σ !! ref with
      | None => Aborts
      | Some ref_ctx =>
          match sp_bufferlist_pop (sources ref_ctx) sp_bufferlist_find_fn_first tt with
          | (None, _) => Returns tt σ
          | (Some src_ref, l) =>
              let σ1 := <[ref := set_sources ref_ctx l]> σ in
              match σ1 !! src_ref with
              | None => Aborts
              | Some src_ctx =>
                  let '(own_ref, l') :=
                    sp_bufferlist_pop (dests src_ctx) find_ref_by_data ref in
                  unmirror_all_sources fuel' (<[src_ref := set_dests src_ctx l']> σ1) ref
              end
          end
      end
  end.

(** The second loop, over the dests of [ref]; the signal on the
    destination's [cond_in] finds nobody asleep. *)
Fixpoint unmirror_all_dests (fuel : nat) (σ : store) (ref : fifo_id) : outcome unit :=
  match fuel with
  | O => OutOfFuel
  | S fuel' =>
      match σ !! ref with
      | None => Aborts
      | Some ref_ctx =>
          match sp_bufferlist_pop (dests ref_ctx) sp_bufferlist_find_fn_first tt with
          | (None, _) => Returns tt σ
          | (Some dst_ref, l) =>
              let σ1 := <[ref := set_dests ref_ctx l]> σ in
              match σ1 !! dst_ref with
              | None => Aborts
              | Some dst_ctx =>
                  let '(own_ref, l') :=
                    sp_bufferlist_pop (sources dst_ctx) find_ref_by_data ref in
                  unmirror_all_dests fuel' (<[dst_ref := set_sources dst_ctx l']> σ1) ref
              end
          end
      end
  end.

(** [sp_packet_fifo_unmirror_all(ref)] *)
Definition sp_packet_fifo_unmirror_all (σ : store) (ref : option fifo_id) : outcome Z :=
  match ref with
  | None => Returns 0 σ
  | Some r =>
      match σ !! r with
      | None => Aborts
      | Some ref_ctx =>
          match unmirror_all_sources (S (length (sources ref_ctx))) σ r with
          | Returns _ σ1 =>
              match σ1 !! r with
              | None => Aborts
              | Some ref_ctx1 =>
                  match unmirror_all_dests (S (length (dests ref_ctx1))) σ1 r with
                  | Returns _ σ2 => Returns 0 σ2
                  | Blocks w σ2 => Blocks w σ2
                  | Aborts => Aborts
                  | OutOfFuel => OutOfFuel
                  end
              end
          | Blocks w σ1 => Blocks w σ1
          | Aborts => Aborts
          | OutOfFuel => OutOfFuel
          end
      end
  end.

(** *** Words for the mirror lists *)

(** [l] without the first entry for [d], as [sp_bufferlist_pop] with
    [find_ref_by_data] leaves it. *)
Definition drop_ref (d : fifo_id) (l : list fifo_id) : list fifo_id :=
  snd (sp_bufferlist_pop l find_ref_by_data d).

Definition drop_dest (ref : fifo_id) (c : SPPacketFIFO) : SPPacketFIFO :=
  set_dests c (drop_ref ref (dests c)).

Definition drop_source (ref : fifo_id) (c : SPPacketFIFO) : SPPacketFIFO :=
  set_sources c (drop_ref ref (sources c)).

(** What unmirror-all of [ref], whose struct was [ref_ctx], makes of the
    FIFO [c] at address [g]. *)
Definition detached (ref : fifo_id) (ref_ctx : SPPacketFIFO) (g : fifo_id)
    (c : SPPacketFIFO) : SPPacketFIFO :=
  if decide (g = ref) then set_sources (set_dests c []) []
  else
    set_sources
      (set_dests c (if bool_decide (g ∈ sources ref_ctx)
                    then drop_ref ref (dests c) else dests c))
      (if bool_decide (g ∈ dests ref_ctx)
       then drop_ref ref (sources c) else sources c).

(** "For every destination D in FIFO S's dests, S is in D's sources, and
    vice versa." *)
Definition symmetric (σ : store) : Prop :=
  forall d s, in_sources σ d s <-> in_dests σ s d.
End Template.

Abbreviation store := (gmap fifo_id SPPacketFIFO).

(** ** A concrete instance

    Packets are numbered and cloning a packet yields the same number; the
    flags are the bits 0 to 3; the array of the FIFO at address 9 can never
    grow, the others always can. *)

#[local] Instance sample_template : FifoTemplate := {|
  TYPE := nat;
  av_packet_clone := Some;
  PACKET_FIFO_BLOCK_MAX_OUTPUT := 1;
  PACKET_FIFO_BLOCK_NO_INPUT := 2;
  PACKET_FIFO_PULL_NO_BLOCK := 4;
  PACKET_FIFO_PULL_POKE := 8;
  av_fast_realloc := fun f _ => negb (Nat.eqb f 9);
|}.

Definition sample_fifo (q : list (option nat)) (max : Z) (ds ss : list fifo_id)
  : SPPacketFIFO :=
  {| queued := q; max_queued := max; block_flags := 0; poked := false;
     dests := ds; sources := ss |}.

(** One FIFO at address 1, as [sp_packet_fifo_create] leaves it. *)
Definition created (max_queued : Z) : store :=
  snd (sp_packet_fifo_create ∅ (Some 1%nat) true true true max_queued 0).

(** A FIFO with [max_queued = 1] that holds three packets. *)
Definition crowded : store :=
  {[ 1%nat := sample_fifo [Some 1%nat; Some 2%nat; Some 3%nat] 1 [] [] ]}.

(** A FIFO created with BLOCK_NO_INPUT. *)
Definition patient : store :=
  snd (sp_packet_fifo_create ∅ (Some 1%nat) true true true (-1) PACKET_FIFO_BLOCK_NO_INPUT).

(** Two unbounded FIFOs 1 and 2, not mirrored. *)
Definition apart : store :=
  <[ 2%nat := sample_fifo [] (-1) [] [] ]> {[ 1%nat := sample_fifo [] (-1) [] [] ]}.

(** FIFO 1 mirrored into 2, 9 and 3, in this order; 9 cannot grow. *)
Definition fan_oom : store :=
  <[ 3%nat := sample_fifo [] (-1) [] [1%nat] ]>
  (<[ 9%nat := sample_fifo [] (-1) [] [1%nat] ]>
   (<[ 2%nat := sample_fifo [] (-1) [] [1%nat] ]>
    {[ 1%nat := sample_fifo [] (-1) [2%nat; 9%nat; 3%nat] [] ]})).

(** FIFO 1 mirrored into 2, 4 and 3; 2 is over its capacity. *)
Definition fan_full : store :=
  <[ 3%nat := sample_fifo [] (-1) [] [1%nat] ]>
  (<[ 4%nat := sample_fifo [] (-1) [] [1%nat] ]>
   (<[ 2%nat := sample_fifo [Some 1%nat; Some 2%nat; Some 3%nat] 1 [] [1%nat] ]>
    {[ 1%nat := sample_fifo [] (-1) [2%nat; 4%nat; 3%nat] [] ]})).


(** A FIFO mirrored into itself. *)
Definition looped : store :=
  {[ 1%nat := sample_fifo [] (-1) [1%nat] [1%nat] ]}.

(** FIFO 2 mirrored into FIFO 1. *)
Definition linked : store :=
  <[ 2%nat := sample_fifo [] (-1) [1%nat] [] ]> {[ 1%nat := sample_fifo [] (-1) [] [2%nat] ]}.

(** The chain 1, 2, 3: each FIFO mirrored into the next. *)
Definition chain : store :=
  <[ 3%nat := sample_fifo [] (-1) [] [2%nat] ]>
  (<[ 2%nat := sample_fifo [] (-1) [3%nat] [1%nat] ]>
   {[ 1%nat := sample_fifo [] (-1) [2%nat] [] ]}).

(** An unbounded FIFO that holds three packets. *)
Definition stocked : store :=
  {[ 1%nat := sample_fifo [Some 1%nat; Some 2%nat; Some 3%nat] (-1) [] [] ]}.

(** A FIFO over its capacity, with BLOCK_MAX_OUTPUT. *)
Definition throttled : store :=
  {[ 1%nat := {| queued := [Some 1%nat; Some 2%nat; Some 3%nat]; max_queued := 1;
                 block_flags := PACKET_FIFO_BLOCK_MAX_OUTPUT; poked := false;
                 dests := []; sources := [] |} ]}.
(** * Properties *)

(** ** C [int] arithmetic *)

Lemma wrap_int_id z : INT_MIN <= z <= INT_MAX -> wrap_int z = z.
Proof.
  unfold wrap_int, INT_MIN, INT_MAX. intros H.
  rewrite Z.mod_small; lia.
Qed.

(** ** [strtok_r]: progress and tokens of a comma-separated list *)

Section CStringFacts.
Local Open Scope string_scope.

Lemma skip_delims_length s delim :
  (String.length (skip_delims s delim) <= String.length s)%nat.
Proof.
  induction s as [|c s IH]; simpl; [lia|].
  destruct (is_delim c delim); simpl; lia.
Qed.

Lemma split_token_length s delim :
  (String.length (snd (split_token s delim)) <= Nat.pred (String.length s))%nat.
Proof.
  induction s as [|c s IH]; simpl; [lia|].
  destruct (is_delim c delim); simpl; [lia|].
  destruct (split_token s delim) as [tok rest]; simpl in *. lia.
Qed.

Lemma strtok_r_shorter str delim tok rest :
  strtok_r str delim = Some (tok, rest) ->
  (String.length rest < String.length str)%nat.
Proof.
  unfold strtok_r. intros H.
  pose proof (skip_delims_length str delim) as Hs.
  destruct (skip_delims str delim) as [|c s] eqn:E; [discriminate|].
  pose proof (split_token_length (String c s) delim) as Ht.
  destruct (split_token (String c s) delim) as [tok' rest'].
  injection H as -> ->. simpl in *. lia.
Qed.

Lemma strtok_r_empty delim : strtok_r "" delim = None.
Proof. reflexivity. Qed.

Lemma plain_app t s : plain (t +:+ s) = plain t && plain s.
Proof.
  induction t as [|c t IH]; simpl; [reflexivity|].
  rewrite IH. now rewrite andb_assoc.
Qed.

Lemma split_token_plain t s :
  plain t = true -> split_token (t +:+ String "," s) "," = (t, s).
Proof.
  induction t as [|c t IH]; simpl; intros H; [reflexivity|].
  apply andb_true_iff in H as [H Ht]. apply andb_true_iff in H as [Hc _].
  rewrite orb_false_r. apply negb_true_iff in Hc. rewrite Hc.
  now rewrite (IH Ht).
Qed.

Lemma split_token_plain_end t :
  plain t = true -> split_token t "," = (t, "").
Proof.
  induction t as [|c t IH]; simpl; intros H; [reflexivity|].
  apply andb_true_iff in H as [H Ht]. apply andb_true_iff in H as [Hc _].
  rewrite orb_false_r. apply negb_true_iff in Hc. rewrite Hc.
  now rewrite (IH Ht).
Qed.

Lemma strtok_r_field t s :
  field t -> strtok_r (t +:+ String "," s) "," = Some (t, s).
Proof.
  intros [Hne Hp]. unfold strtok_r.
  destruct t as [|c t]; [congruence|].
  pose proof Hp as Hp'. simpl in Hp'.
  apply andb_true_iff in Hp' as [H _]. apply andb_true_iff in H as [Hc _].
  apply negb_true_iff in Hc.
  change (String c t +:+ String "," s) with (String c (t +:+ String "," s)).
  cbn [skip_delims is_delim]. rewrite orb_false_r, Hc.
  f_equal. apply (split_token_plain (String c t) s Hp).
Qed.

Lemma strtok_r_field_end t :
  field t -> strtok_r t "," = Some (t, "").
Proof.
  intros [Hne Hp]. unfold strtok_r.
  destruct t as [|c t]; [congruence|].
  pose proof Hp as Hp'. simpl in Hp'.
  apply andb_true_iff in Hp' as [H _]. apply andb_true_iff in H as [Hc _].
  apply negb_true_iff in Hc.
  cbn [skip_delims is_delim]. rewrite orb_false_r, Hc.
  f_equal. apply (split_token_plain_end (String c t) Hp).
Qed.

Lemma join_commas_cons t t' ts :
  join_commas (t :: t' :: ts) = t +:+ String "," (join_commas (t' :: ts)).
Proof. reflexivity. Qed.

(** [strtok_r] yields the fields of a comma-separated list, in order. *)
Lemma strtok_all_join ts fuel :
  Forall field ts -> (length ts <= fuel)%nat ->
  strtok_all fuel (join_commas ts) = ts.
Proof.
  revert fuel. induction ts as [|t ts IH]; intros fuel Hf Hlen.
  - destruct fuel; reflexivity.
  - destruct fuel as [|fuel]; [simpl in Hlen; lia|].
    apply Forall_cons in Hf as [Ht Hts].
    destruct ts as [|t' ts].
    + cbn [join_commas strtok_all]. rewrite (strtok_r_field_end t Ht).
      destruct fuel; reflexivity.
    + rewrite join_commas_cons. cbn [strtok_all].
      rewrite (strtok_r_field t _ Ht). f_equal.
      apply IH; [assumption | simpl in *; lia].
Qed.

Lemma strdup_plain s : plain s = true -> strdup s = s.
Proof.
  induction s as [|c s IH]; simpl; intros H; [reflexivity|].
  apply andb_true_iff in H as [H Hs]. apply andb_true_iff in H as [_ Hc].
  apply negb_true_iff in Hc. rewrite Hc. now rewrite (IH Hs).
Qed.

Lemma strdup_join ts : Forall field ts -> strdup (join_commas ts) = join_commas ts.
Proof.
  induction ts as [|t ts IH]; intros Hf; [reflexivity|].
  apply Forall_cons in Hf as [[_ Ht] Hts].
  destruct ts as [|t' ts]; [now apply strdup_plain|].
  rewrite join_commas_cons.
  specialize (IH Hts). revert IH. generalize (join_commas (t' :: ts)). intros s IH.
  induction t as [|c t IHt]; simpl.
  - now rewrite IH.
  - simpl in Ht. apply andb_true_iff in Ht as [H Ht'].
    apply andb_true_iff in H as [_ Hc]. apply negb_true_iff in Hc.
    rewrite Hc. change (String c t +:+ String "," s) with (String c (t +:+ String "," s)).
    f_equal. now apply IHt.
Qed.

Lemma append_length s1 s2 :
  String.length (s1 +:+ s2) = (String.length s1 + String.length s2)%nat.
Proof. induction s1 as [|c s1 IH]; simpl; [reflexivity | now rewrite IH]. Qed.

Lemma join_commas_length ts :
  Forall field ts -> (length ts <= S (String.length (join_commas ts)))%nat.
Proof.
  induction ts as [|t ts IH]; intros Hf; [simpl; lia|].
  apply Forall_cons in Hf as [[Hne _] Hts]. specialize (IH Hts).
  destruct ts as [|t' ts]; [simpl; lia|].
  rewrite join_commas_cons. rewrite append_length.
  cbn [String.length length] in *. lia.
Qed.

(** The tokens the parser sees in a comma-separated list are its fields. *)
Lemma tokens_join ts : Forall field ts -> tokens (join_commas ts) = ts.
Proof.
  intros Hf. unfold tokens. rewrite (strdup_join ts Hf).
  apply strtok_all_join; [assumption|]. now apply join_commas_length.
Qed.
End CStringFacts.

(** ** [string_to_block_flags] *)

Section BlockFlagsFacts.
Context `{FifoTemplate}.
Local Open Scope string_scope.

Lemma known_inv t :
  known t -> t = "block_no_input" \/ t = "block_max_output" \/ t = "pull_no_block".
Proof.
  unfold known, flag_of_token. intros [z Hz].
  destruct (String.eqb_spec t "block_no_input"); [now left|].
  destruct (String.eqb_spec t "block_max_output"); [now right; left|].
  destruct (String.eqb_spec t "pull_no_block"); [now right; right|].
  discriminate.
Qed.

Lemma known_names t : known t <-> t ∈ flag_names.
Proof.
  split.
  - intros Hk. unfold flag_names. rewrite !elem_of_cons.
    destruct (known_inv t Hk) as [-> | [-> | ->]]; auto.
  - unfold flag_names. rewrite !elem_of_cons, elem_of_nil.
    intros [-> | [-> | [-> | []]]]; unfold known; cbn; eauto.
Qed.

Lemma known_field t : known t -> field t.
Proof.
  intros Hk. destruct (known_inv t Hk) as [-> | [-> | ->]]; split;
    (discriminate || reflexivity).
Qed.

Lemma unknown_None t : ~ known t <-> flag_of_token t = None.
Proof.
  unfold known. split.
  - intros Hn. destruct (flag_of_token t) eqn:E; [|reflexivity].
    exfalso. apply Hn. eauto.
  - intros -> [z Hz]. discriminate.
Qed.

(** The loop consumes the tokens of the buffer one by one and never
    reaches its bound. *)
Lemma parse_flags_loop_run fuel saveptr dst :
  (String.length saveptr < fuel)%nat ->
  parse_flags_loop fuel dst (strtok_r saveptr ",")
  = Some (run_tokens dst (strtok_all fuel saveptr)).
Proof.
  revert saveptr dst. induction fuel as [|fuel IH]; intros saveptr dst Hlen; [lia|].
  cbn [parse_flags_loop strtok_all run_tokens].
  destruct (strtok_r saveptr ",") as [[ptr rest]|] eqn:E; [|reflexivity].
  apply strtok_r_shorter in E.
  cbn [run_tokens]. destruct (flag_of_token ptr) as [flag|]; [|reflexivity].
  apply IH. lia.
Qed.

Lemma string_to_block_flags_tokens in_str :
  sp_packet_fifo_string_to_block_flags in_str = Some (run_tokens 0 (tokens in_str)).
Proof.
  unfold sp_packet_fifo_string_to_block_flags, tokens.
  apply parse_flags_loop_run. lia.
Qed.

Lemma run_tokens_known ts dst :
  Forall known ts -> run_tokens dst ts = (0, or_flags dst ts).
Proof.
  revert dst. induction ts as [|t ts IH]; intros dst Hk; [reflexivity|].
  apply Forall_cons in Hk as [[flag Ht] Hts].
  cbn [run_tokens or_flags fold_left]. rewrite Ht. cbn [default].
  apply IH, Hts.
Qed.

Lemma run_tokens_unknown pre bad post dst :
  Forall known pre -> flag_of_token bad = None ->
  run_tokens dst (pre ++ bad :: post)%list = (AVERROR EINVAL, or_flags dst pre).
Proof.
  revert dst. induction pre as [|t pre IH]; intros dst Hk Hbad.
  - cbn. now rewrite Hbad.
  - apply Forall_cons in Hk as [[flag Ht] Hpre].
    cbn [app run_tokens or_flags fold_left]. rewrite Ht. cbn [default].
    now apply IH.
Qed.

Lemma run_tokens_ret ts dst :
  fst (run_tokens dst ts) = 0 \/ fst (run_tokens dst ts) = AVERROR EINVAL.
Proof.
  revert dst. induction ts as [|t ts IH]; intros dst; cbn; [now left|].
  destruct (flag_of_token t); [apply IH | now right].
Qed.

(** An invalid-argument result pinpoints the first unknown token. *)
Lemma run_tokens_einval ts dst ret out :
  run_tokens dst ts = (ret, out) -> ret <> 0 ->
  exists pre bad post,
    ts = (pre ++ bad :: post)%list /\ Forall known pre /\ ~ known bad /\
    out = or_flags dst pre.
Proof.
  revert dst. induction ts as [|t ts IH]; intros dst Hrun Hret.
  - cbn in Hrun. injection Hrun as <- <-. congruence.
  - cbn [run_tokens] in Hrun. destruct (flag_of_token t) as [flag|] eqn:Et.
    + destruct (IH _ Hrun Hret) as (pre & bad & post & -> & Hpre & Hbad & ->).
      exists (t :: pre), bad, post. repeat split; try assumption.
      * apply Forall_cons. split; [|assumption]. unfold known. eauto.
      * cbn [or_flags fold_left]. now rewrite Et.
    + injection Hrun as <- <-.
      exists [], t, ts. repeat split; [constructor | now apply unknown_None].
Qed.

Lemma Exists_first_unknown ts :
  Exists (fun t => ~ known t) ts ->
  exists pre bad post, ts = (pre ++ bad :: post)%list /\ Forall known pre /\ ~ known bad.
Proof.
  induction ts as [|t ts IH]; intros Hex; [inversion Hex|].
  destruct (flag_of_token t) as [flag|] eqn:Et.
  - apply Exists_cons in Hex as [Hn | Hex].
    + exfalso. apply Hn. unfold known. eauto.
    + destruct (IH Hex) as (pre & bad & post & -> & Hpre & Hbad).
      exists (t :: pre), bad, post. repeat split; try assumption.
      apply Forall_cons. split; [unfold known; eauto | assumption].
  - exists [], t, ts. repeat split; [constructor | now apply unknown_None].
Qed.

Lemma or_flags_testbit ts : forall dst i,
  Z.testbit (or_flags dst ts) i
  = Z.testbit dst i
    || existsb (fun t => Z.testbit (default 0 (flag_of_token t)) i) ts.
Proof.
  unfold or_flags. induction ts as [|t ts IH]; intros dst i; cbn [fold_left existsb].
  - now rewrite orb_false_r.
  - now rewrite IH, Z.lor_spec, orb_assoc.
Qed.

Lemma testbit_foldr_lor (l : list Z) i :
  Z.testbit (foldr Z.lor 0 l) i = existsb (fun z => Z.testbit z i) l.
Proof.
  induction l as [|z l IH]; cbn [foldr existsb]; [apply Z.bits_0|].
  now rewrite Z.lor_spec, IH.
Qed.

(** The entries of the specification's table behind a list of names. *)
Lemma elem_of_spec_flag_set names z :
  z ∈ spec_flag_set names <->
  exists name, name ∈ names /\ (name, z) ∈ spec_flag_table.
Proof.
  unfold spec_flag_set. rewrite list_elem_of_fmap. split.
  - intros ([name z'] & -> & Hin). apply list_elem_of_filter in Hin as [Hn Ht].
    exists name. split; assumption.
  - intros (name & Hn & Ht). exists (name, z). split; [reflexivity|].
    apply list_elem_of_filter. split; assumption.
Qed.

(** The parser's branches are the rows of the specification's table. *)
Lemma flag_of_token_table name z :
  flag_of_token name = Some z <-> (name, z) ∈ spec_flag_table.
Proof.
  unfold spec_flag_table. rewrite !elem_of_cons, elem_of_nil. split.
  - unfold flag_of_token.
    destruct (String.eqb_spec name "block_no_input") as [->|];
      [intros [= <-]; now left|].
    destruct (String.eqb_spec name "block_max_output") as [->|];
      [intros [= <-]; right; now left|].
    destruct (String.eqb_spec name "pull_no_block") as [->|];
      [intros [= <-]; right; right; now left|].
    discriminate.
  - intros [[= -> ->] | [[= -> ->] | [[= -> ->] | []]]]; reflexivity.
Qed.

(** Over valid tokens the loop computes the specification's union. *)
Lemma or_flags_spec ts : Forall known ts -> or_flags 0 ts = spec_flags_union ts.
Proof.
  intros Hk. apply Z.bits_inj'. intros i _. unfold spec_flags_union.
  rewrite or_flags_testbit, testbit_foldr_lor, Z.bits_0. cbn [orb].
  apply eq_true_iff_eq. rewrite !existsb_exists. split.
  - intros (t & Hin & Hbit). apply list_elem_of_In in Hin.
    rewrite Forall_forall in Hk. destruct (Hk t Hin) as [z Hz].
    rewrite Hz in Hbit. cbn [default] in Hbit.
    exists z. split; [|assumption].
    apply list_elem_of_In, elem_of_spec_flag_set. exists t.
    split; [assumption | now apply flag_of_token_table].
  - intros (z & Hin & Hbit).
    apply list_elem_of_In, elem_of_spec_flag_set in Hin as (name & Hn & Ht).
    apply flag_of_token_table in Ht.
    exists name. split; [now apply list_elem_of_In|].
    rewrite Ht. assumption.
Qed.

(** The specification's union only depends on which names occur. *)
Lemma spec_flags_union_same names1 names2 :
  (forall t, t ∈ names1 <-> t ∈ names2) ->
  spec_flags_union names1 = spec_flags_union names2.
Proof.
  intros Hsame. unfold spec_flags_union, spec_flag_set. do 2 f_equal.
  apply list_filter_iff. intros entry. apply Hsame.
Qed.

(** C5: a comma-separated list of the three lowercase flag names parses to
    the union of the flags the specification gives these names, with
    result 0; an input one of whose tokens is not such a name gives
    invalid-argument.  ["block_no_input,pull_no_block"] yields
    BLOCK_NO_INPUT | PULL_NO_BLOCK and ["bogus"] is refused. *)
Theorem string_to_block_flags_spec :
  (forall ts, Forall (fun t => t ∈ flag_names) ts ->
     sp_packet_fifo_string_to_block_flags (join_commas ts)
     = Some (0, spec_flags_union ts)) /\
  (forall in_str, Exists (fun t => t ∉ flag_names) (tokens in_str) ->
     exists dst, sp_packet_fifo_string_to_block_flags in_str = Some (AVERROR EINVAL, dst)) /\
  sp_packet_fifo_string_to_block_flags "block_no_input,pull_no_block"
    = Some (0, Z.lor PACKET_FIFO_BLOCK_NO_INPUT PACKET_FIFO_PULL_NO_BLOCK) /\
  sp_packet_fifo_string_to_block_flags "bogus" = Some (AVERROR EINVAL, 0).
Proof.
  split; [|split; [|split]].
  - intros ts Hn.
    assert (Hk : Forall known ts)
      by (eapply Forall_impl; [exact Hn | intros t; apply known_names]).
    rewrite string_to_block_flags_tokens.
    rewrite tokens_join by (eapply Forall_impl; [exact Hk | apply known_field]).
    now rewrite run_tokens_known, or_flags_spec.
  - intros in_str Hex. rewrite string_to_block_flags_tokens.
    assert (Hex' : Exists (fun t => ~ known t) (tokens in_str)).
    { eapply Exists_impl; [exact Hex|]. intros t Ht Hk. now apply Ht, known_names. }
    destruct (Exists_first_unknown _ Hex') as (pre & bad & post & -> & Hpre & Hbad).
    eexists. f_equal. apply run_tokens_unknown; [assumption | now apply unknown_None].
  - reflexivity.
  - reflexivity.
Qed.

(** C10: when the parser answers invalid-argument, [*dst] is not reset: it
    holds the union of the flags the specification gives the valid tokens
    in front of the first unknown one.  ["block_no_input,bogus"] ends with
    invalid-argument and [*dst] = BLOCK_NO_INPUT. *)
Theorem string_to_block_flags_no_rollback :
  (forall in_str dst,
     sp_packet_fifo_string_to_block_flags in_str = Some (AVERROR EINVAL, dst) ->
     exists pre bad post,
       tokens in_str = (pre ++ bad :: post)%list /\
       Forall (fun t => t ∈ flag_names) pre /\ (bad ∉ flag_names) /\
       dst = spec_flags_union pre) /\
  sp_packet_fifo_string_to_block_flags "block_no_input,bogus"
    = Some (AVERROR EINVAL, PACKET_FIFO_BLOCK_NO_INPUT).
Proof.
  split; [|reflexivity].
  intros in_str dst. rewrite string_to_block_flags_tokens. intros Hrun.
  injection Hrun as Hrun.
  destruct (run_tokens_einval _ 0 (AVERROR EINVAL) dst Hrun)
    as (pre & bad & post & Ht & Hpre & Hbad & Hdst); [discriminate|].
  exists pre, bad, post. repeat split; try assumption.
  - eapply Forall_impl; [exact Hpre | intros t; apply known_names].
  - intros Hin. now apply Hbad, known_names.
  - now rewrite <- or_flags_spec.
Qed.
End BlockFlagsFacts.

(** ** Introspection, pull and peek *)

Section PullFacts.
Context `{FifoTemplate}.

Lemma num_queued_nil ctx : queued ctx = [] -> num_queued ctx = 0.
Proof. unfold num_queued. now intros ->. Qed.

Lemma num_queued_cons ctx head tail :
  queued ctx = head :: tail -> (num_queued ctx =? 0) = false.
Proof. unfold num_queued. intros ->. simpl length. apply Z.eqb_neq. lia. Qed.

Lemma is_full_ret_bool ctx : is_full_ret ctx = 1 \/ is_full_ret ctx = 0.
Proof.
  unfold is_full_ret.
  destruct (max_queued ctx =? 0); [now left|].
  destruct (max_queued ctx >? 0); [|now right].
  destruct (num_queued ctx >? wrap_int (max_queued ctx + 1)); [now left | now right].
Qed.

Lemma is_full_ret_iff ctx :
  INT_MIN <= max_queued ctx < INT_MAX ->
  is_full_ret ctx = 1 <->
  (max_queued ctx = 0 \/ (max_queued ctx > 0 /\ num_queued ctx > max_queued ctx + 1)).
Proof.
  intros Hrange. unfold is_full_ret.
  rewrite wrap_int_id by (unfold INT_MIN, INT_MAX in *; lia).
  destruct (Z.eqb_spec (max_queued ctx) 0) as [E|E]; [intuition lia|].
  rewrite Z.gtb_ltb. destruct (Z.ltb_spec 0 (max_queued ctx)).
  - rewrite Z.gtb_ltb.
    destruct (Z.ltb_spec (max_queued ctx + 1) (num_queued ctx)); intuition lia.
  - intuition lia.
Qed.

(** With a queue that is not empty the loop is not entered. *)
Lemma pull_wait_nonempty fuel ctx head tail pull_poke pull_no_block :
  queued ctx = head :: tail ->
  pull_wait (S fuel) ctx pull_poke pull_no_block = Proceed ctx.
Proof. intros Hq. cbn [pull_wait]. now rewrite (num_queued_cons _ _ _ Hq). Qed.

(** C8: on an empty queue, when BLOCK_NO_INPUT is not among the FIFO's
    flags or the caller passes PULL_NO_BLOCK, pop_flags and peek_flags
    return try-again at once, with a null item and the FIFOs as they
    were. *)
Theorem pull_empty_try_again (σ : store) f ctx flags :
  σ !! f = Some ctx ->
  queued ctx = [] ->
  Z.land (block_flags ctx) PACKET_FIFO_BLOCK_NO_INPUT = 0
    \/ Z.land flags PACKET_FIFO_PULL_NO_BLOCK <> 0 ->
  sp_packet_fifo_pop_flags σ (Some f) flags = Returns (AVERROR EAGAIN, None) σ /\
  sp_packet_fifo_peek_flags σ (Some f) flags = Returns (AVERROR EAGAIN, None) σ.
Proof.
  intros Hf Hq Hpol.
  assert (Hw : pull_wait 2 ctx (Z.land flags PACKET_FIFO_PULL_POKE)
                 (Z.land flags PACKET_FIFO_PULL_NO_BLOCK)
               = Unlock (AVERROR EAGAIN) ctx).
  { cbn [pull_wait]. rewrite (num_queued_nil _ Hq). cbn [Z.eqb negb].
    destruct Hpol as [Hb | Hp].
    - rewrite Hb. reflexivity.
    - apply Z.eqb_neq in Hp. rewrite Hp. now rewrite orb_true_r. }
  unfold sp_packet_fifo_pop_flags, sp_packet_fifo_peek_flags,
    packet_fifo_pull_flags_template.
  rewrite Hf. cbv zeta. rewrite Hw. rewrite (insert_id σ f ctx Hf). now split.
Qed.

(** C9: on a queue that is not empty, peek_flags and peek return a clone
    of the head and leave every FIFO as it was: queue, num_queued,
    max_queued, block_flags, dests and sources. *)
Theorem peek_leaves_fifo (σ : store) f ctx head tail flags :
  σ !! f = Some ctx ->
  queued ctx = head :: tail ->
  sp_packet_fifo_peek_flags σ (Some f) flags = Returns (0, CLONE_FN head) σ /\
  sp_packet_fifo_peek σ (Some f) = Returns (CLONE_FN head) σ.
Proof.
  intros Hf Hq.
  unfold sp_packet_fifo_peek, sp_packet_fifo_peek_flags, packet_fifo_pull_flags_template.
  rewrite Hf. cbv zeta.
  rewrite !(pull_wait_nonempty 1 ctx head tail _ _ Hq). rewrite Hq.
  rewrite (insert_id σ f ctx Hf). now split.
Qed.

(** Pop hands out the head and keeps the tail. *)
Lemma pop_flags_head (σ : store) f ctx head tail flags :
  σ !! f = Some ctx ->
  queued ctx = head :: tail ->
  sp_packet_fifo_pop_flags σ (Some f) flags
  = Returns (0, head) (<[f := set_queued ctx tail]> σ).
Proof.
  intros Hf Hq. unfold sp_packet_fifo_pop_flags, packet_fifo_pull_flags_template.
  rewrite Hf. cbv zeta. rewrite (pull_wait_nonempty 1 ctx head tail _ _ Hq).
  now rewrite Hq.
Qed.

Lemma pop_head (σ : store) f ctx head tail :
  σ !! f = Some ctx ->
  queued ctx = head :: tail ->
  sp_packet_fifo_pop σ (Some f) = Returns head (<[f := set_queued ctx tail]> σ).
Proof.
  intros Hf Hq. unfold sp_packet_fifo_pop.
  change (packet_fifo_pull_flags_template σ (Some f) 0 true)
    with (sp_packet_fifo_pop_flags σ (Some f) 0).
  now rewrite (pop_flags_head σ f ctx head tail 0 Hf Hq).
Qed.
End PullFacts.

(** ** The fan-out loop *)

Section DistributeFacts.
Context `{FifoTemplate}.
Variable push : store -> fifo_id -> outcome Z.

Lemma no_oom_cons ret rets :
  no_oom (ret :: rets) <-> (ret =? AVERROR ENOMEM) = false /\ no_oom rets.
Proof.
  unfold no_oom. rewrite not_elem_of_cons, Z.eqb_neq. intuition congruence.
Qed.

(** The error carried through the loop: the first one wins. *)
Lemma first_error_step ret rets err :
  (if (if negb (ret =? 0) && (err =? 0) then ret else err) =? 0
   then first_error rets else (if negb (ret =? 0) && (err =? 0) then ret else err))
  = (if err =? 0 then first_error (ret :: rets) else err).
Proof.
  cbn [first_error].
  destruct (Z.eqb_spec ret 0) as [->|Hr], (Z.eqb_spec err 0) as [->|He]; cbn;
    try reflexivity.
  - destruct (Z.eqb_spec err 0); [contradiction | reflexivity].
  - destruct (Z.eqb_spec ret 0); [contradiction | reflexivity].
  - destruct (Z.eqb_spec err 0); [contradiction | reflexivity].
Qed.

Lemma fifo_distribute_step dist rest err σ ret σ1 :
  push σ dist = Returns ret σ1 ->
  (ret =? AVERROR ENOMEM) = false ->
  fifo_distribute push (dist :: rest) err σ
  = fifo_distribute push rest (if negb (ret =? 0) && (err =? 0) then ret else err) σ1.
Proof.
  intros Hp Hr. cbn [fifo_distribute]. rewrite Hp, Hr.
  now destruct (negb (ret =? 0) && (err =? 0)).
Qed.

(** Without an out-of-memory result every destination is pushed to, and
    the first error is what the loop leaves in [err]. *)
Lemma fifo_distribute_all ds err σ rets σ' :
  attempts push ds σ rets σ' -> no_oom rets ->
  fifo_distribute push ds err σ
  = Returns (if err =? 0 then first_error rets else err) σ'.
Proof.
  intros Hatt. revert err. induction Hatt as [σ | dist ds σ ret σ1 rets σ2 Hp _ IH];
    intros err Hno.
  - cbn. now destruct (Z.eqb_spec err 0) as [->|].
  - apply no_oom_cons in Hno as [Hr Hno].
    rewrite (fifo_distribute_step _ _ _ _ _ _ Hp Hr), (IH _ Hno).
    now rewrite first_error_step.
Qed.

(** An out-of-memory result ends the loop where it occurs. *)
Lemma fifo_distribute_oom pre dist post err σ rets σ1 σ2 :
  attempts push pre σ rets σ1 -> no_oom rets ->
  push σ1 dist = Returns (AVERROR ENOMEM) σ2 ->
  fifo_distribute push (pre ++ dist :: post) err σ = Returns (AVERROR ENOMEM) σ2.
Proof.
  intros Hatt. revert err. induction Hatt as [σ | d ds σ ret σ1 rets σ3 Hp _ IH];
    intros err Hno Hoom.
  - cbn. now rewrite Hoom.
  - apply no_oom_cons in Hno as [Hr Hno]. cbn [app].
    rewrite (fifo_distribute_step _ _ _ _ _ _ Hp Hr). now apply IH.
Qed.

(** A loop that returns went one of these two ways. *)
Lemma fifo_distribute_inv ds err σ ret σ' :
  fifo_distribute push ds err σ = Returns ret σ' ->
  (exists rets, attempts push ds σ rets σ' /\ no_oom rets /\
                ret = if err =? 0 then first_error rets else err)
  \/ (exists pre dist post rets σ1,
        ds = pre ++ dist :: post /\ attempts push pre σ rets σ1 /\ no_oom rets /\
        push σ1 dist = Returns (AVERROR ENOMEM) σ' /\ ret = AVERROR ENOMEM).
Proof.
  revert err σ. induction ds as [|dist ds IH]; intros err σ Hd.
  - cbn in Hd. injection Hd as <- <-. left. exists []. repeat split.
    + constructor.
    + unfold no_oom. apply not_elem_of_nil.
    + now destruct (Z.eqb_spec err 0) as [->|].
  - destruct (push σ dist) as [r σ1| | |] eqn:Hp;
      try (cbn [fifo_distribute] in Hd; rewrite Hp in Hd; discriminate).
    destruct (r =? AVERROR ENOMEM) eqn:Hr.
    + cbn [fifo_distribute] in Hd. rewrite Hp, Hr in Hd. injection Hd as <- <-.
      apply Z.eqb_eq in Hr. subst r.
      right. exists [], dist, ds, [], σ. repeat split; try assumption.
      * constructor.
      * unfold no_oom. apply not_elem_of_nil.
    + rewrite (fifo_distribute_step _ _ _ _ _ _ Hp Hr) in Hd.
      destruct (IH _ _ Hd) as [(rets & Hatt & Hno & ->)
                              | (pre & d & post & rets & σ2 & -> & Hatt & Hno & Hoom & ->)].
      * left. exists (r :: rets). repeat split.
        -- econstructor; eassumption.
        -- now apply no_oom_cons.
        -- apply first_error_step.
      * right. exists (dist :: pre), d, post, (r :: rets), σ2. repeat split; try assumption.
        -- econstructor; eassumption.
        -- now apply no_oom_cons.
Qed.

(** What every push of the loop preserves, the loop preserves. *)
Lemma fifo_distribute_preserves (R : store -> store -> Prop) ds err σ ret σ' :
  (forall σ, R σ σ) ->
  (forall σ1 σ2 σ3, R σ1 σ2 -> R σ2 σ3 -> R σ1 σ3) ->
  (forall σ1 dist r σ2, push σ1 dist = Returns r σ2 -> R σ1 σ2) ->
  fifo_distribute push ds err σ = Returns ret σ' ->
  R σ σ'.
Proof.
  intros Hrefl Htrans Hpush. revert err σ.
  induction ds as [|dist ds IH]; intros err σ Hd.
  - cbn in Hd. injection Hd as <- <-. apply Hrefl.
  - cbn [fifo_distribute] in Hd.
    destruct (push σ dist) as [r σ1| | |] eqn:Hp; try discriminate.
    apply Hpush in Hp.
    destruct (r =? AVERROR ENOMEM).
    + injection Hd as <- <-. assumption.
    + destruct (negb (r =? 0) && (err =? 0)); eapply Htrans; eauto.
Qed.
End DistributeFacts.

(** ** Push *)

Section PushFacts.
Context `{FifoTemplate}.

Lemma set_queued_queued ctx q : queued (set_queued ctx q) = q.
Proof. reflexivity. Qed.

Lemma set_queued_twice ctx q q' : set_queued (set_queued ctx q) q' = set_queued ctx q'.
Proof. reflexivity. Qed.

Lemma set_queued_same ctx : set_queued ctx (queued ctx) = ctx.
Proof. now destruct ctx. Qed.

(** A push that returns leaves alone the FIFOs whose mutex the caller
    holds: pushing into one of them would never return. *)
Lemma push_rec_frame fuel : forall held (σ : store) dst in_ ret σ',
  sp_packet_fifo_push_rec fuel held σ dst in_ = Returns ret σ' ->
  forall g, g ∈ held -> σ' !! g = σ !! g.
Proof.
  induction fuel as [|fuel IH]; intros held σ dst in_ ret σ' Hpush g Hg;
    [discriminate|].
  cbn [sp_packet_fifo_push_rec] in Hpush.
  destruct (σ !! dst) as [ctx|] eqn:Hctx; [|discriminate].
  case_bool_decide as Hheld; [discriminate|].
  assert (Hne : dst <> g) by (intros ->; contradiction).
  destruct (fifo_enqueue dst ctx in_) as [ctx'|err|]; [| |discriminate].
  - assert (HR : forall g, g ∈ dst :: held -> σ' !! g = (<[dst := ctx']> σ) !! g).
    { eapply (fifo_distribute_preserves
                (fun σ1 dist => sp_packet_fifo_push_rec fuel (dst :: held) σ1 dist in_)
                (fun σ1 σ2 : store => forall g, g ∈ dst :: held -> σ2 !! g = σ1 !! g));
        [ reflexivity
        | intros σ1 σ2 σ3 H12 H23 g' Hg'; now rewrite H23, H12
        | intros σ1 dist r σ2 Hd; exact (IH _ _ _ _ _ _ Hd)
        | exact Hpush ]. }
    rewrite HR by (apply elem_of_cons; now right).
    now apply lookup_insert_ne.
  - now injection Hpush as <- <-.
Qed.

(** How a push that returns went. *)
Lemma push_rec_inv fuel held (σ : store) dst ctx in_ ret σ' :
  sp_packet_fifo_push_rec (S fuel) held σ dst in_ = Returns ret σ' ->
  σ !! dst = Some ctx ->
  (dst ∉ held) /\
  (match fifo_enqueue dst ctx in_ with
   | Enqueued ctx' =>
       σ' !! dst = Some ctx' /\
       fifo_distribute
         (fun σ1 dist => sp_packet_fifo_push_rec fuel (dst :: held) σ1 dist in_)
         (dests ctx) 0 (<[dst := ctx']> σ) = Returns ret σ'
   | Refused err => ret = err /\ σ' = σ
   | WaitsOut => False
   end).
Proof.
  intros Hpush Hctx. cbn [sp_packet_fifo_push_rec] in Hpush. rewrite Hctx in Hpush.
  case_bool_decide as Hheld; [discriminate|]. split; [assumption|].
  destruct (fifo_enqueue dst ctx in_) as [ctx'|err|]; [| |discriminate].
  - split; [|assumption].
    assert (HR : forall g, g ∈ dst :: held -> σ' !! g = (<[dst := ctx']> σ) !! g).
    { eapply (fifo_distribute_preserves
                (fun σ1 dist => sp_packet_fifo_push_rec fuel (dst :: held) σ1 dist in_)
                (fun σ1 σ2 : store => forall g, g ∈ dst :: held -> σ2 !! g = σ1 !! g));
        [ reflexivity
        | intros σ1 σ2 σ3 H12 H23 g' Hg'; now rewrite H23, H12
        | intros σ1 dist r σ2 Hd; exact (push_rec_frame _ _ _ _ _ _ _ Hd)
        | exact Hpush ]. }
    rewrite HR by (apply elem_of_cons; now left). apply lookup_insert_eq.
  - now injection Hpush as <- <-.
Qed.

Lemma push_inv (σ : store) dst ctx in_ ret σ' :
  sp_packet_fifo_push σ (Some dst) in_ = Returns ret σ' ->
  σ !! dst = Some ctx ->
  match fifo_enqueue dst ctx in_ with
  | Enqueued ctx' =>
      σ' !! dst = Some ctx' /\
      fifo_distribute
        (fun σ1 dist => sp_packet_fifo_push_rec (size σ) [dst] σ1 dist in_)
        (dests ctx) 0 (<[dst := ctx']> σ) = Returns ret σ'
  | Refused err => ret = err /\ σ' = σ
  | WaitsOut => False
  end.
Proof. intros Hpush Hctx. exact (proj2 (push_rec_inv _ _ _ _ _ _ _ _ Hpush Hctx)). Qed.

(** A push that is refused. *)
Lemma push_refused (σ : store) dst ctx in_ err :
  σ !! dst = Some ctx ->
  fifo_enqueue dst ctx in_ = Refused err ->
  sp_packet_fifo_push σ (Some dst) in_ = Returns err σ.
Proof.
  intros Hctx Henq. unfold sp_packet_fifo_push. cbn [sp_packet_fifo_push_rec].
  rewrite Hctx. rewrite bool_decide_eq_false_2 by apply not_elem_of_nil.
  now rewrite Henq.
Qed.

(** A push into a FIFO without destinations. *)
Lemma push_leaf (σ : store) dst ctx ctx' in_ :
  σ !! dst = Some ctx ->
  dests ctx = [] ->
  fifo_enqueue dst ctx in_ = Enqueued ctx' ->
  sp_packet_fifo_push σ (Some dst) in_ = Returns 0 (<[dst := ctx']> σ).
Proof.
  intros Hctx Hd Henq. unfold sp_packet_fifo_push. cbn [sp_packet_fifo_push_rec].
  rewrite Hctx. rewrite bool_decide_eq_false_2 by apply not_elem_of_nil.
  now rewrite Henq, Hd.
Qed.

Lemma over_capacity_null ctx : over_capacity ctx None = false.
Proof.
  unfold over_capacity. rewrite bool_decide_eq_false_2; [reflexivity|].
  intros [x Hx]. discriminate.
Qed.

Lemma over_capacity_bounded ctx x :
  0 < max_queued ctx < INT_MAX ->
  over_capacity ctx (Some x) = (num_queued ctx >? max_queued ctx + 1).
Proof.
  intros Hr. unfold over_capacity.
  rewrite bool_decide_eq_true_2 by eauto.
  rewrite wrap_int_id by (unfold INT_MIN, INT_MAX in *; lia).
  destruct (Z.eqb_spec (max_queued ctx) (-1)); [lia | reflexivity].
Qed.

(** With room in the array and no capacity trouble the item is stored. *)
Lemma fifo_enqueue_stores dst ctx in_ :
  max_queued ctx <> 0 ->
  over_capacity ctx in_ = false ->
  av_fast_realloc dst (S (length (queued ctx))) = true ->
  fifo_enqueue dst ctx in_ = Enqueued (set_queued ctx (queued ctx ++ [CLONE_FN in_])).
Proof.
  intros Hm Hc Ha. unfold fifo_enqueue.
  apply Z.eqb_neq in Hm. now rewrite Hm, Hc, Ha.
Qed.

(** A push that returns 0 into a FIFO that buffers has stored the clone
    at the tail. *)
Lemma fifo_enqueue_success dst ctx in_ ctx' :
  max_queued ctx <> 0 ->
  fifo_enqueue dst ctx in_ = Enqueued ctx' ->
  ctx' = set_queued ctx (queued ctx ++ [CLONE_FN in_]) /\ over_capacity ctx in_ = false.
Proof.
  intros Hm. unfold fifo_enqueue. apply Z.eqb_neq in Hm. rewrite Hm.
  destruct (over_capacity ctx in_).
  - destruct (Z.land _ _ =? 0); discriminate.
  - destruct (negb _); [discriminate|]. intros [= <-]. now split.
Qed.

Lemma fifo_enqueue_refused_nonzero dst ctx in_ err :
  fifo_enqueue dst ctx in_ = Refused err -> err <> 0.
Proof.
  unfold fifo_enqueue.
  destruct (max_queued ctx =? 0); [discriminate|].
  destruct (over_capacity ctx in_).
  - destruct (Z.land _ _ =? 0); [|discriminate]. now intros [= <-].
  - destruct (negb _); [|discriminate]. now intros [= <-].
Qed.

Lemma push_ok_stores (σ : store) dst ctx in_ σ' :
  sp_packet_fifo_push σ (Some dst) in_ = Returns 0 σ' ->
  σ !! dst = Some ctx ->
  max_queued ctx <> 0 ->
  σ' !! dst = Some (set_queued ctx (queued ctx ++ [CLONE_FN in_])).
Proof.
  intros Hpush Hctx Hm. pose proof (push_inv _ _ _ _ _ _ Hpush Hctx) as Hinv.
  destruct (fifo_enqueue dst ctx in_) as [ctx'|err|] eqn:Henq; [| |contradiction].
  - destruct Hinv as [Hl _]. rewrite Hl.
    now destruct (fifo_enqueue_success _ _ _ _ Hm Henq) as [-> _].
  - destruct Hinv as [<- _]. now apply fifo_enqueue_refused_nonzero in Henq.
Qed.

Lemma push_all_stores items : forall (σ : store) dst ctx σ',
  push_all σ (Some dst) items = Some σ' ->
  σ !! dst = Some ctx ->
  max_queued ctx <> 0 ->
  σ' !! dst = Some (set_queued ctx (queued ctx ++ map CLONE_FN items)).
Proof.
  induction items as [|x items IH]; intros σ dst ctx σ' Hall Hctx Hm.
  - cbn in Hall. injection Hall as <-. cbn [map]. rewrite app_nil_r.
    now rewrite set_queued_same.
  - cbn [push_all] in Hall.
    destruct (sp_packet_fifo_push σ (Some dst) x) as [ret σ1| | |] eqn:Hpush;
      try discriminate.
    destruct (Z.eqb_spec ret 0) as [->|]; [|discriminate].
    pose proof (push_ok_stores _ _ _ _ _ Hpush Hctx Hm) as H1.
    rewrite (IH _ _ _ _ Hall H1 Hm).
    cbn [map]. rewrite set_queued_twice, set_queued_queued.
    now rewrite <- app_assoc.
Qed.
End PushFacts.

(** ** The bounds of the embedding are never reached *)

Section Bounds.
Context `{FifoTemplate}.

Lemma pull_wait_no_spin ctx pull_poke pull_no_block :
  pull_wait 2 ctx pull_poke pull_no_block <> Spin.
Proof.
  cbn [pull_wait].
  destruct (negb (num_queued ctx =? 0)) eqn:Hn; [discriminate|].
  destruct ((Z.land (block_flags ctx) PACKET_FIFO_BLOCK_NO_INPUT =? 0)
            || negb (pull_no_block =? 0)); [discriminate|].
  destruct (poked ctx) eqn:Hp; cbn [negb]; [|discriminate].
  destruct (negb (pull_poke =? 0) && true); [discriminate|].
  change (num_queued (set_poked ctx false)) with (num_queued ctx). rewrite Hn.
  cbn [block_flags set_poked poked negb]. destruct (_ || _); discriminate.
Qed.

Lemma pull_flags_template_total (σ : store) src flags pop :
  packet_fifo_pull_flags_template σ src flags pop <> OutOfFuel.
Proof.
  unfold packet_fifo_pull_flags_template.
  destruct src as [f|]; [|discriminate].
  destruct (σ !! f) as [ctx|]; [|discriminate]. cbv zeta.
  pose proof (pull_wait_no_spin ctx (Z.land flags PACKET_FIFO_PULL_POKE)
                (Z.land flags PACKET_FIFO_PULL_NO_BLOCK)) as Hs.
  destruct (pull_wait 2 ctx _ _) as [c|r c|c|]; try discriminate; [|contradiction].
  destruct (queued c); [discriminate|]. destruct pop; discriminate.
Qed.

(** A push never frees or allocates a FIFO. *)
Lemma push_rec_dom fuel : forall held (σ : store) dst in_ ret σ',
  sp_packet_fifo_push_rec fuel held σ dst in_ = Returns ret σ' ->
  dom σ' = dom σ.
Proof.
  induction fuel as [|fuel IH]; intros held σ dst in_ ret σ' Hpush; [discriminate|].
  cbn [sp_packet_fifo_push_rec] in Hpush.
  destruct (σ !! dst) as [ctx|] eqn:Hctx; [|discriminate].
  case_bool_decide; [discriminate|].
  destruct (fifo_enqueue dst ctx in_) as [ctx'|err|]; [| |discriminate].
  - assert (HR : dom σ' = dom (<[dst := ctx']> σ)).
    { eapply (fifo_distribute_preserves
                (fun σ1 dist => sp_packet_fifo_push_rec fuel (dst :: held) σ1 dist in_)
                (fun σ1 σ2 : store => dom σ2 = dom σ1));
        [ reflexivity
        | intros σ1 σ2 σ3 H12 H23; now rewrite H23, H12
        | intros σ1 dist r σ2 Hd; exact (IH _ _ _ _ _ _ Hd)
        | exact Hpush ]. }
    rewrite HR. apply dom_insert_lookup_L. eauto.
  - now injection Hpush as <- <-.
Qed.

Lemma held_bounded (held : list fifo_id) (σ : store) :
  NoDup held -> (forall g, g ∈ held -> g ∈ dom σ) -> (length held <= size σ)%nat.
Proof.
  intros Hnd Hin. rewrite <- (size_dom (D := gset fifo_id) σ).
  rewrite <- (size_list_to_set (C := gset fifo_id) held Hnd).
  apply subseteq_size. intros g Hg. apply elem_of_list_to_set in Hg. now apply Hin.
Qed.

Lemma fifo_distribute_fuel (push : store -> fifo_id -> outcome Z)
    (Inv : store -> Prop) ds : forall err σ,
  Inv σ ->
  (forall σ1 dist, Inv σ1 -> push σ1 dist <> OutOfFuel) ->
  (forall σ1 dist r σ2, Inv σ1 -> push σ1 dist = Returns r σ2 -> Inv σ2) ->
  fifo_distribute push ds err σ <> OutOfFuel.
Proof.
  induction ds as [|dist ds IH]; intros err σ HI Hfuel Hstep; [discriminate|].
  cbn [fifo_distribute].
  destruct (push σ dist) as [r σ1|w σ1| |] eqn:Hp; try discriminate.
  - destruct (r =? AVERROR ENOMEM); [discriminate|].
    destruct (negb (r =? 0) && (err =? 0)); apply IH; eauto.
  - exfalso. exact (Hfuel σ dist HI Hp).
Qed.

(** Each level of the fan-out holds one more mutex, so the recursion is
    no deeper than the number of FIFOs. *)
Lemma push_rec_fuel fuel : forall held (σ : store) dst in_,
  NoDup held ->
  (forall g, g ∈ held -> g ∈ dom σ) ->
  (size σ < fuel + length held)%nat ->
  sp_packet_fifo_push_rec fuel held σ dst in_ <> OutOfFuel.
Proof.
  induction fuel as [|fuel IH]; intros held σ dst in_ Hnd Hin Hsize.
  - pose proof (held_bounded held σ Hnd Hin). cbn in Hsize. lia.
  - cbn [sp_packet_fifo_push_rec].
    destruct (σ !! dst) as [ctx|] eqn:Hctx; [|discriminate].
    case_bool_decide as Hheld; [discriminate|].
    destruct (fifo_enqueue dst ctx in_) as [ctx'|err|]; try discriminate.
    assert (Hdom : dom (<[dst := ctx']> σ) = dom σ)
      by (apply dom_insert_lookup_L; eauto).
    apply (fifo_distribute_fuel _ (fun σ1 : store => dom σ1 = dom σ)).
    + exact Hdom.
    + intros σ1 dist H1. apply IH.
      * apply NoDup_cons. now split.
      * intros g Hg. rewrite H1. apply elem_of_cons in Hg as [-> | Hg].
        -- now apply elem_of_dom_2 in Hctx.
        -- now apply Hin.
      * rewrite <- (size_dom (D := gset fifo_id) σ1), H1, size_dom.
        cbn [length]. lia.
    + intros σ1 dist r σ2 H1 Hp. rewrite (push_rec_dom _ _ _ _ _ _ _ Hp). exact H1.
Qed.

(** A call of push returns, sleeps or aborts. *)
Lemma push_total (σ : store) dst in_ :
  sp_packet_fifo_push σ dst in_ <> OutOfFuel.
Proof.
  destruct dst as [f|]; [|discriminate]. cbn [sp_packet_fifo_push].
  apply push_rec_fuel.
  - constructor.
  - intros g Hg. now apply elem_of_nil in Hg.
  - cbn [length]. lia.
Qed.
End Bounds.

(** ** Capacity, null pushes, order, error policy *)

Section PushTheorems.
Context `{FifoTemplate}.

Lemma num_queued_set_queued ctx q :
  num_queued (set_queued ctx q) = Z.of_nat (length q).
Proof. reflexivity. Qed.

(** Pushes into a FIFO without destinations succeed as long as the queue
    holds at most [max_queued + 1] entries. *)
Lemma push_all_leaf items : forall (σ : store) dst ctx,
  σ !! dst = Some ctx ->
  dests ctx = [] ->
  0 < max_queued ctx < INT_MAX ->
  (forall n, av_fast_realloc dst n = true) ->
  num_queued ctx + Z.of_nat (length items) <= max_queued ctx + 2 ->
  is_Some (push_all σ (Some dst) items).
Proof.
  induction items as [|x items IH]; intros σ dst ctx Hctx Hd Hr Ha Hlen; [cbn; eauto|].
  cbn [push_all].
  assert (Hcap : over_capacity ctx x = false).
  { destruct x as [p|]; [|apply over_capacity_null].
    rewrite (over_capacity_bounded _ _ Hr). rewrite Z.gtb_ltb. apply Z.ltb_ge.
    cbn [length] in Hlen. lia. }
  assert (Hm : max_queued ctx <> 0) by lia.
  rewrite (push_leaf σ dst ctx _ x Hctx Hd (fifo_enqueue_stores _ _ _ Hm Hcap (Ha _))).
  cbn [Z.eqb].
  eapply IH; [apply lookup_insert_eq | exact Hd | exact Hr | exact Ha |].
  rewrite num_queued_set_queued, length_app. cbn [length max_queued set_queued] in *.
  unfold num_queued in Hlen. lia.
Qed.

(** C1 (amended): a FIFO with [max_queued = N > 0], BLOCK_MAX_OUTPUT unset
    and an empty queue takes [N + 2] pushes; after [N + 2] successful
    pushes without a pop, push [N + 3] of a non-null item returns
    queue-full and changes nothing. *)
Theorem capacity_policy (σ : store) dst ctx N items :
  σ !! dst = Some ctx ->
  queued ctx = [] ->
  max_queued ctx = N ->
  0 < N < INT_MAX ->
  Z.land (block_flags ctx) PACKET_FIFO_BLOCK_MAX_OUTPUT = 0 ->
  Z.of_nat (length items) = N + 2 ->
  (forall σ' x, push_all σ (Some dst) items = Some σ' ->
     sp_packet_fifo_push σ' (Some dst) (Some x) = Returns (AVERROR ENOBUFS) σ') /\
  (dests ctx = [] -> (forall n, av_fast_realloc dst n = true) ->
     is_Some (push_all σ (Some dst) items)).
Proof.
  intros Hctx Hq HN Hr Hfl Hlen. split.
  - intros σ' x Hall.
    assert (Hm : max_queued ctx <> 0) by lia.
    pose proof (push_all_stores _ _ _ _ _ Hall Hctx Hm) as Hctx'.
    apply (push_refused _ _ _ _ _ Hctx').
    unfold fifo_enqueue. cbn [max_queued set_queued block_flags].
    apply Z.eqb_neq in Hm. rewrite Hm.
    rewrite over_capacity_bounded by (cbn; lia).
    rewrite num_queued_set_queued. cbn [max_queued set_queued].
    rewrite Hq, app_nil_l, length_map.
    replace (Z.of_nat (length items) >? max_queued ctx + 1) with true
      by (symmetry; rewrite Z.gtb_ltb; apply Z.ltb_lt; lia).
    apply Z.eqb_eq in Hfl. now rewrite Hfl.
  - intros Hd Ha. apply (push_all_leaf items σ dst ctx Hctx Hd); try assumption; [lia|].
    rewrite (num_queued_nil _ Hq). lia.
Qed.

(** C2 (amended): a null push is never refused for capacity and is stored
    like any other item: when the array can grow, the queue of a FIFO with
    [max_queued <> 0] has one more entry, a null, after the call
    ([num_queued] is up by one); only with [max_queued = 0] is it
    unchanged.  Unless a destination runs out of memory, the null is
    pushed to every destination in turn. *)
Theorem null_push_enqueues (σ : store) dst ctx ret σ' :
  σ !! dst = Some ctx ->
  av_fast_realloc dst (S (length (queued ctx))) = true ->
  sp_packet_fifo_push σ (Some dst) None = Returns ret σ' ->
  exists ctx',
    σ' !! dst = Some ctx' /\
    queued ctx' = (if max_queued ctx =? 0 then queued ctx else queued ctx ++ [None]) /\
    num_queued ctx' = (if max_queued ctx =? 0 then num_queued ctx else num_queued ctx + 1) /\
    (ret <> AVERROR ENOMEM ->
     exists rets,
       attempts (fun σ1 dist => sp_packet_fifo_push_rec (size σ) [dst] σ1 dist None)
         (dests ctx) (<[dst := ctx']> σ) rets σ').
Proof.
  intros Hctx Ha Hpush. pose proof (push_inv _ _ _ _ _ _ Hpush Hctx) as Hinv.
  assert (Henq : fifo_enqueue dst ctx None
                 = Enqueued (if max_queued ctx =? 0 then ctx
                             else set_queued ctx (queued ctx ++ [None]))).
  { unfold fifo_enqueue. rewrite over_capacity_null, Ha.
    destruct (max_queued ctx =? 0); reflexivity. }
  rewrite Henq in Hinv. destruct Hinv as [Hl Hdist].
  eexists. split; [exact Hl|]. split; [|split].
  - destruct (max_queued ctx =? 0); reflexivity.
  - destruct (max_queued ctx =? 0); [reflexivity|].
    rewrite num_queued_set_queued, length_app. unfold num_queued. cbn [length]. lia.
  - intros Hret. apply fifo_distribute_inv in Hdist
      as [(rets & Hatt & _) | (pre & dist & post & rets & σ1 & _ & _ & _ & _ & ->)];
      [eauto | contradiction].
Qed.
End PushTheorems.

Section OrderAndErrors.
Context `{FifoTemplate}.

Lemma pull_all_pop q : forall (σ : store) f ctx,
  σ !! f = Some ctx ->
  queued ctx = q ->
  pull_all (fun σ1 => sp_packet_fifo_pop σ1 (Some f)) σ (length q)
  = Returns q (<[f := set_queued ctx []]> σ).
Proof.
  induction q as [|head tail IH]; intros σ f ctx Hctx Hq.
  - cbn [length pull_all]. rewrite <- Hq, set_queued_same. now rewrite insert_id.
  - cbn [length pull_all]. rewrite (pop_head σ f ctx head tail Hctx Hq).
    rewrite (IH _ f (set_queued ctx tail)); [|apply lookup_insert_eq | reflexivity].
    now rewrite set_queued_twice, insert_insert_eq.
Qed.

Lemma pull_all_pop_flags flags q : forall (σ : store) f ctx,
  σ !! f = Some ctx ->
  queued ctx = q ->
  pull_all (fun σ1 => sp_packet_fifo_pop_flags σ1 (Some f) flags) σ (length q)
  = Returns (map (pair 0) q) (<[f := set_queued ctx []]> σ).
Proof.
  induction q as [|head tail IH]; intros σ f ctx Hctx Hq.
  - cbn [length pull_all map]. rewrite <- Hq, set_queued_same. now rewrite insert_id.
  - cbn [length pull_all map]. rewrite (pop_flags_head σ f ctx head tail flags Hctx Hq).
    rewrite (IH _ f (set_queued ctx tail)); [|apply lookup_insert_eq | reflexivity].
    now rewrite set_queued_twice, insert_insert_eq.
Qed.

(** C3 (amended): in a FIFO that buffers ([max_queued <> 0]), after
    successful pushes of [items] the pops return what was queued before
    and then the clones of [items], in the order of the pushes: push
    appends at the tail, pop removes the head. *)
Theorem fifo_order (σ : store) f ctx items σ' flags :
  σ !! f = Some ctx ->
  max_queued ctx <> 0 ->
  push_all σ (Some f) items = Some σ' ->
  pull_all (fun σ1 => sp_packet_fifo_pop σ1 (Some f)) σ'
    (length (queued ctx ++ map CLONE_FN items))
  = Returns (queued ctx ++ map CLONE_FN items) (<[f := set_queued ctx []]> σ') /\
  pull_all (fun σ1 => sp_packet_fifo_pop_flags σ1 (Some f) flags) σ'
    (length (queued ctx ++ map CLONE_FN items))
  = Returns (map (pair 0) (queued ctx ++ map CLONE_FN items))
      (<[f := set_queued ctx []]> σ').
Proof.
  intros Hctx Hm Hall.
  pose proof (push_all_stores _ _ _ _ _ Hall Hctx Hm) as Hctx'.
  split.
  - pose proof (pull_all_pop _ σ' f _ Hctx' eq_refl) as Hp.
    cbn [queued set_queued] in Hp. exact Hp.
  - pose proof (pull_all_pop_flags flags _ σ' f _ Hctx' eq_refl) as Hp.
    cbn [queued set_queued] in Hp. exact Hp.
Qed.

(** C6: in the fan-out of a push, a destination that returns
    out-of-memory ends the loop, and out-of-memory is returned with the
    FIFOs as that destination left them; without such a result every
    destination is pushed to and the first error among the values
    returned (0 if there is none) is what push returns. *)
Theorem push_error_policy fuel held (σ : store) dst ctx ctx' in_ :
  σ !! dst = Some ctx ->
  dst ∉ held ->
  fifo_enqueue dst ctx in_ = Enqueued ctx' ->
  (forall pre dist post rets σ1 σ2,
     dests ctx = pre ++ dist :: post ->
     attempts (fun σ3 d => sp_packet_fifo_push_rec fuel (dst :: held) σ3 d in_)
       pre (<[dst := ctx']> σ) rets σ1 ->
     no_oom rets ->
     sp_packet_fifo_push_rec fuel (dst :: held) σ1 dist in_
       = Returns (AVERROR ENOMEM) σ2 ->
     sp_packet_fifo_push_rec (S fuel) held σ dst in_ = Returns (AVERROR ENOMEM) σ2) /\
  (forall rets σ',
     attempts (fun σ3 d => sp_packet_fifo_push_rec fuel (dst :: held) σ3 d in_)
       (dests ctx) (<[dst := ctx']> σ) rets σ' ->
     no_oom rets ->
     sp_packet_fifo_push_rec (S fuel) held σ dst in_ = Returns (first_error rets) σ').
Proof.
  intros Hctx Hheld Henq.
  assert (Hunfold : sp_packet_fifo_push_rec (S fuel) held σ dst in_
                    = fifo_distribute
                        (fun σ3 d => sp_packet_fifo_push_rec fuel (dst :: held) σ3 d in_)
                        (dests ctx) 0 (<[dst := ctx']> σ)).
  { cbn [sp_packet_fifo_push_rec]. rewrite Hctx.
    rewrite bool_decide_eq_false_2 by assumption. now rewrite Henq. }
  rewrite Hunfold. split.
  - intros pre dist post rets σ1 σ2 -> Hatt Hno Hoom.
    exact (fifo_distribute_oom _ _ _ _ _ _ _ _ _ Hatt Hno Hoom).
  - intros rets σ' Hatt Hno.
    exact (fifo_distribute_all _ _ _ _ _ _ Hatt Hno).
Qed.

(** A push that is refused with queue-full and changes nothing was over
    capacity at the FIFO it was called on. *)
Lemma push_enobufs_unchanged (σ : store) f ctx in_ :
  σ !! f = Some ctx ->
  max_queued ctx <> 0 ->
  sp_packet_fifo_push σ (Some f) in_ = Returns (AVERROR ENOBUFS) σ ->
  over_capacity ctx in_ = true.
Proof.
  intros Hctx Hm Hpush. pose proof (push_inv _ _ _ _ _ _ Hpush Hctx) as Hinv.
  destruct (fifo_enqueue f ctx in_) as [ctx'|err|] eqn:Henq; [| |contradiction].
  - destruct Hinv as [Hl _].
    destruct (fifo_enqueue_success _ _ _ _ Hm Henq) as [-> _].
    rewrite Hctx in Hl. injection Hl as Hl.
    apply (f_equal (fun c => length (queued c))) in Hl.
    rewrite set_queued_queued, length_app in Hl. cbn [length] in Hl. lia.
  - destruct Hinv as [Herr _]. unfold fifo_enqueue in Henq.
    apply Z.eqb_neq in Hm. rewrite Hm in Henq.
    destruct (over_capacity ctx in_); [reflexivity|].
    destruct (negb _); [|discriminate].
    injection Henq as <-. vm_compute in Herr. discriminate.
Qed.

(** C7: is_full returns 1 iff [max_queued = 0], or [max_queued > 0] and
    [num_queued > max_queued + 1] (in [int] arithmetic, and in plain
    integers below INT_MAX), and 0 otherwise, so 0 for the unbounded
    [max_queued = -1].  An item can still be pushed when is_full reports
    true: with [max_queued = 0] every push passes on to the destinations
    and returns 0, and a null item is stored at the tail however many
    items are queued.  For a non-null item and [max_queued > 0] push tests
    the predicate of is_full: with BLOCK_MAX_OUTPUT unset the item is
    refused with queue-full, nothing changed, exactly when is_full reports
    true. *)
Theorem is_full_spec (σ : store) f ctx :
  σ !! f = Some ctx ->
  exists ret,
    sp_packet_fifo_is_full σ (Some f) = Returns ret σ /\
    (ret = 1 \/ ret = 0) /\
    (ret = 1 <->
     max_queued ctx = 0 \/
     (max_queued ctx > 0 /\ num_queued ctx > wrap_int (max_queued ctx + 1))) /\
    (max_queued ctx < INT_MAX ->
     (ret = 1 <->
      max_queued ctx = 0 \/
      (max_queued ctx > 0 /\ num_queued ctx > max_queued ctx + 1))) /\
    (max_queued ctx = -1 -> ret = 0) /\
    (max_queued ctx = 0 -> dests ctx = [] ->
     ret = 1 /\ forall in_, sp_packet_fifo_push σ (Some f) in_ = Returns 0 σ) /\
    (max_queued ctx <> 0 -> dests ctx = [] ->
     av_fast_realloc f (S (length (queued ctx))) = true ->
     sp_packet_fifo_push σ (Some f) None
     = Returns 0 (<[f := set_queued ctx (queued ctx ++ [None])]> σ)) /\
    (max_queued ctx > 0 ->
     Z.land (block_flags ctx) PACKET_FIFO_BLOCK_MAX_OUTPUT = 0 ->
     forall x,
       sp_packet_fifo_push σ (Some f) (Some x) = Returns (AVERROR ENOBUFS) σ
       <-> ret = 1).
Proof.
  intros Hctx. exists (is_full_ret ctx).
  assert (Hwrap : is_full_ret ctx = 1 <->
            max_queued ctx = 0 \/
            (max_queued ctx > 0 /\ num_queued ctx > wrap_int (max_queued ctx + 1))).
  { unfold is_full_ret.
    destruct (Z.eqb_spec (max_queued ctx) 0) as [E|E]; [intuition lia|].
    rewrite Z.gtb_ltb. destruct (Z.ltb_spec 0 (max_queued ctx)).
    - rewrite Z.gtb_ltb.
      destruct (Z.ltb_spec (wrap_int (max_queued ctx + 1)) (num_queued ctx));
        intuition lia.
    - intuition lia. }
  split; [|split; [|split; [|split; [|split; [|split; [|split]]]]]].
  - unfold sp_packet_fifo_is_full. now rewrite Hctx.
  - apply is_full_ret_bool.
  - exact Hwrap.
  - intros Hmax. rewrite Hwrap.
    destruct (Z.le_gt_cases (max_queued ctx) 0) as [Hle|Hpos]; [intuition lia|].
    rewrite wrap_int_id by (unfold INT_MIN, INT_MAX in *; lia). reflexivity.
  - intros Hm. unfold is_full_ret. now rewrite Hm.
  - intros Hm Hd. split; [apply Hwrap; now left|]. intros in_.
    rewrite (push_leaf σ f ctx ctx in_ Hctx Hd).
    + now rewrite insert_id.
    + unfold fifo_enqueue. rewrite Hm. reflexivity.
  - intros Hm Hd Hmem.
    apply (push_leaf σ f ctx _ None Hctx Hd).
    apply (fifo_enqueue_stores f ctx None Hm (over_capacity_null ctx) Hmem).
  - intros Hpos Hfl x.
    assert (Hm : max_queued ctx <> 0) by lia.
    assert (Hcap : over_capacity ctx (Some x) = true <-> is_full_ret ctx = 1).
    { rewrite Hwrap. unfold over_capacity.
      rewrite bool_decide_eq_true_2 by eauto.
      destruct (Z.eqb_spec (max_queued ctx) (-1)) as [|_]; [lia|].
      cbn [andb negb]. rewrite Z.gtb_ltb, Z.ltb_lt. intuition lia. }
    rewrite <- Hcap. split.
    + exact (push_enobufs_unchanged σ f ctx (Some x) Hctx Hm).
    + intros Hover. apply (push_refused _ _ _ _ _ Hctx).
      unfold fifo_enqueue. apply Z.eqb_neq in Hm. rewrite Hm, Hover.
      apply Z.eqb_eq in Hfl. now rewrite Hfl.
Qed.
End OrderAndErrors.

(** ** Mirroring *)

Section MirrorFacts.
Context `{FifoTemplate}.

Lemma find_ref_by_data_same d : find_ref_by_data d d = Some d.
Proof. unfold find_ref_by_data. now rewrite Nat.eqb_refl. Qed.

Lemma find_ref_by_data_other e d : e <> d -> find_ref_by_data e d = None.
Proof. unfold find_ref_by_data. intros Hne. apply Nat.eqb_neq in Hne. now rewrite Hne. Qed.

(** Popping what was just appended gives the list back, if the entry was
    not in it before. *)
Lemma sp_bufferlist_pop_append l d :
  d ∉ l ->
  sp_bufferlist_pop (sp_bufferlist_append l d) find_ref_by_data d = (Some d, l).
Proof.
  unfold sp_bufferlist_append. induction l as [|e l IH]; intros Hd.
  - cbn. now rewrite find_ref_by_data_same.
  - apply not_elem_of_cons in Hd as [Hne Hd]. cbn [app sp_bufferlist_pop].
    rewrite find_ref_by_data_other by congruence. now rewrite (IH Hd).
Qed.

Lemma NoDup_append_fresh (l : list fifo_id) d : NoDup (l ++ [d]) -> d ∉ l.
Proof.
  intros Hnd Hin. apply NoDup_app in Hnd as (_ & Hdisj & _).
  apply (Hdisj d Hin). apply list_elem_of_singleton. reflexivity.
Qed.

End MirrorFacts.

(** * Worked cases on the concrete instance *)

(** ** Capacity *)

(** Scenario A on the code: with [max_queued = 2] the pushes 1 to 4 return 0,
    the fourth one too; push 5 is the one refused. *)
Lemma fourth_push_accepted :
  exists σ3 σ4,
    push_all (created 2) (Some 1%nat) [Some 10%nat; Some 20%nat; Some 30%nat] = Some σ3 /\
    sp_packet_fifo_push σ3 (Some 1%nat) (Some 40%nat) = Returns 0 σ4 /\
    sp_packet_fifo_push σ3 (Some 1%nat) (Some 40%nat) <> Returns (AVERROR ENOBUFS) σ3 /\
    sp_packet_fifo_push σ4 (Some 1%nat) (Some 50%nat) = Returns (AVERROR ENOBUFS) σ4.
Proof.
  do 2 eexists. split; [vm_compute; reflexivity|].
  split; [vm_compute; reflexivity|].
  split; [vm_compute; discriminate | vm_compute; reflexivity].
Qed.

Lemma capacity_policy_witness :
  (forall σ' x,
     push_all (created 2) (Some 1%nat)
       [Some 10%nat; Some 20%nat; Some 30%nat; Some 40%nat] = Some σ' ->
     sp_packet_fifo_push σ' (Some 1%nat) (Some x) = Returns (AVERROR ENOBUFS) σ') /\
  is_Some (push_all (created 2) (Some 1%nat)
             [Some 10%nat; Some 20%nat; Some 30%nat; Some 40%nat]).
Proof.
  destruct (capacity_policy (created 2) 1%nat (sample_fifo [] 2 [] []) 2
              [Some 10%nat; Some 20%nat; Some 30%nat; Some 40%nat])
    as [Hfull Hroom].
  - vm_compute; reflexivity.
  - reflexivity.
  - reflexivity.
  - unfold INT_MAX; lia.
  - reflexivity.
  - reflexivity.
  - split; [exact Hfull|]. apply Hroom; [reflexivity | intros n; reflexivity].
Defined.

(** ** Null pushes *)

(** A null pushed into an unbounded FIFO is queued: [num_queued] goes from 0
    to 1. *)
Lemma null_push_is_queued :
  exists σ' ctx',
    sp_packet_fifo_get_size (created (-1)) (Some 1%nat) = Returns 0 (created (-1)) /\
    sp_packet_fifo_push (created (-1)) (Some 1%nat) None = Returns 0 σ' /\
    σ' !! 1%nat = Some ctx' /\ queued ctx' = [None] /\
    sp_packet_fifo_get_size σ' (Some 1%nat) = Returns 1 σ'.
Proof.
  do 2 eexists. split; [vm_compute; reflexivity|].
  split; [vm_compute; reflexivity|].
  split; [vm_compute; reflexivity|].
  split; vm_compute; reflexivity.
Qed.

Lemma null_push_enqueues_witness :
  exists ret σ' ctx',
    sp_packet_fifo_push fan_full (Some 1%nat) None = Returns ret σ' /\
    σ' !! 1%nat = Some ctx' /\
    queued ctx' = [None] /\ num_queued ctx' = 1.
Proof.
  destruct (sp_packet_fifo_push fan_full (Some 1%nat) None) as [ret σ'| | |] eqn:Hpush;
    try (vm_compute in Hpush; discriminate).
  destruct (null_push_enqueues fan_full 1%nat
              (sample_fifo [] (-1) [2%nat; 4%nat; 3%nat] []) ret σ')
    as (ctx' & Hl & Hq & Hn & _).
  - vm_compute; reflexivity.
  - vm_compute; reflexivity.
  - exact Hpush.
  - exists ret, σ', ctx'. auto.
Defined.

(** ** Order *)

(** With [max_queued = 0] three pushes succeed and nothing can be popped. *)
Lemma unbuffered_pushes_are_not_popped :
  exists σ',
    push_all (created 0) (Some 1%nat) [Some 10%nat; Some 20%nat; Some 30%nat] = Some σ' /\
    sp_packet_fifo_pop σ' (Some 1%nat) = Returns None σ' /\
    sp_packet_fifo_pop_flags σ' (Some 1%nat) 0 = Returns (AVERROR EAGAIN, None) σ' /\
    sp_packet_fifo_pop σ' (Some 1%nat) <> Returns (Some 10%nat) σ'.
Proof.
  eexists. split; [vm_compute; reflexivity|].
  split; [vm_compute; reflexivity|].
  split; [vm_compute; reflexivity | vm_compute; discriminate].
Qed.

Lemma fifo_order_witness :
  exists σ' σ'',
    push_all (created (-1)) (Some 1%nat) [Some 10%nat; Some 20%nat; Some 30%nat] = Some σ' /\
    pull_all (fun σ1 => sp_packet_fifo_pop σ1 (Some 1%nat)) σ' 3
    = Returns [Some 10%nat; Some 20%nat; Some 30%nat] σ'' /\
    pull_all (fun σ1 => sp_packet_fifo_pop_flags σ1 (Some 1%nat) 0) σ' 3
    = Returns [(0, Some 10%nat); (0, Some 20%nat); (0, Some 30%nat)] σ''.
Proof.
  destruct (push_all (created (-1)) (Some 1%nat) [Some 10%nat; Some 20%nat; Some 30%nat])
    as [σ'|] eqn:Hall; [|vm_compute in Hall; discriminate].
  exists σ', (<[1%nat := set_queued (sample_fifo [] (-1) [] []) []]> σ').
  split; [reflexivity|].
  apply (fifo_order (created (-1)) 1%nat (sample_fifo [] (-1) [] [])
           [Some 10%nat; Some 20%nat; Some 30%nat] σ' 0).
  - vm_compute; reflexivity.
  - simpl; lia.
  - exact Hall.
Defined.

(** ** Mirroring *)

(** Mirror and unmirror bring two FIFOs that were apart back to where they
    were. *)
Example mirror_then_unmirror :
  exists σ1,
    sp_packet_fifo_mirror apart (Some 1%nat) (Some 2%nat) = Returns 0 σ1 /\
    σ1 !! 1%nat = Some (sample_fifo [] (-1) [] [2%nat]) /\
    σ1 !! 2%nat = Some (sample_fifo [] (-1) [1%nat] []) /\
    sp_packet_fifo_unmirror σ1 (Some 1%nat) (Some 2%nat) = Returns 0 apart.
Proof.
  eexists. split; [vm_compute; reflexivity|].
  split; [vm_compute; reflexivity|].
  split; vm_compute; reflexivity.
Qed.

(** ** The error policy of the fan-out *)

Lemma push_error_policy_witness :
  (exists σ2,
     sp_packet_fifo_push fan_oom (Some 1%nat) (Some 7%nat) = Returns (AVERROR ENOMEM) σ2 /\
     σ2 !! 3%nat = fan_oom !! 3%nat) /\
  (forall rets σ',
     attempts (fun σ3 d => sp_packet_fifo_push_rec 4 [1%nat] σ3 d (Some 7%nat))
       [2%nat; 9%nat; 3%nat]
       (<[1%nat := sample_fifo [Some 7%nat] (-1) [2%nat; 9%nat; 3%nat] []]> fan_oom)
       rets σ' ->
     no_oom rets ->
     sp_packet_fifo_push fan_oom (Some 1%nat) (Some 7%nat) = Returns (first_error rets) σ').
Proof.
  destruct (push_error_policy 4 [] fan_oom 1%nat
              (sample_fifo [] (-1) [2%nat; 9%nat; 3%nat] [])
              (sample_fifo [Some 7%nat] (-1) [2%nat; 9%nat; 3%nat] []) (Some 7%nat))
    as [Hoom Hall].
  - vm_compute; reflexivity.
  - apply not_elem_of_nil.
  - vm_compute; reflexivity.
  - split; [|exact Hall].
    eexists. split.
    + eapply (Hoom [2%nat] 9%nat [3%nat] [0]).
      * reflexivity.
      * econstructor; [vm_compute; reflexivity | constructor].
      * unfold no_oom. apply not_elem_of_cons. split; [discriminate | apply not_elem_of_nil].
      * vm_compute; reflexivity.
    + vm_compute; reflexivity.
Defined.

(** Destination 9 runs out of memory: push returns out-of-memory, 2 has the
    packet and 3, behind 9, was not pushed to. *)
Example oom_halts_fan_out :
  exists σ',
    sp_packet_fifo_push fan_oom (Some 1%nat) (Some 7%nat) = Returns (AVERROR ENOMEM) σ' /\
    σ' !! 2%nat = Some (sample_fifo [Some 7%nat] (-1) [] [1%nat]) /\
    σ' !! 9%nat = Some (sample_fifo [] (-1) [] [1%nat]) /\
    σ' !! 3%nat = Some (sample_fifo [] (-1) [] [1%nat]).
Proof.
  eexists. split; [vm_compute; reflexivity|].
  split; [vm_compute; reflexivity|].
  split; vm_compute; reflexivity.
Qed.

(** Destination 2 is over capacity: push returns its queue-full after 4 and
    3 have received the packet all the same. *)
Example full_destination_does_not_starve :
  exists σ',
    sp_packet_fifo_push fan_full (Some 1%nat) (Some 7%nat) = Returns (AVERROR ENOBUFS) σ' /\
    σ' !! 2%nat = fan_full !! 2%nat /\
    σ' !! 4%nat = Some (sample_fifo [Some 7%nat] (-1) [] [1%nat]) /\
    σ' !! 3%nat = Some (sample_fifo [Some 7%nat] (-1) [] [1%nat]).
Proof.
  eexists. split; [vm_compute; reflexivity|].
  split; [vm_compute; reflexivity|].
  split; vm_compute; reflexivity.
Qed.

(** ** is_full *)

(** [max_queued = 1] and three packets queued: is_full reports true, by
    one; a null item is still stored, a packet is refused. *)
Lemma is_full_spec_witness :
  sp_packet_fifo_is_full crowded (Some 1%nat) = Returns 1 crowded /\
  sp_packet_fifo_push crowded (Some 1%nat) None
  = Returns 0 (<[1%nat := sample_fifo [Some 1%nat; Some 2%nat; Some 3%nat; None] 1 [] []]>
                 crowded) /\
  forall x : nat,
    sp_packet_fifo_push crowded (Some 1%nat) (Some x) = Returns (AVERROR ENOBUFS) crowded.
Proof.
  destruct (is_full_spec crowded 1%nat
              (sample_fifo [Some 1%nat; Some 2%nat; Some 3%nat] 1 [] []))
    as (ret & Hfull & _ & _ & _ & _ & _ & Hnull & Hsame).
  - vm_compute; reflexivity.
  - assert (Hone : sp_packet_fifo_is_full crowded (Some 1%nat) = Returns 1 crowded)
      by (vm_compute; reflexivity).
    assert (Hret : ret = 1).
    { pose proof Hfull as Hf. vm_compute in Hf. congruence. }
    split; [exact Hone|]. split.
    + apply Hnull; [simpl; lia | reflexivity | reflexivity].
    + intros x. apply Hsame; [simpl; lia | reflexivity | exact Hret].
Defined.

(** ** Pull and peek *)

Lemma pull_empty_try_again_witness :
  sp_packet_fifo_pop_flags (created 2) (Some 1%nat) 0
    = Returns (AVERROR EAGAIN, None) (created 2) /\
  sp_packet_fifo_peek_flags (created 2) (Some 1%nat) 0
    = Returns (AVERROR EAGAIN, None) (created 2).
Proof.
  apply (pull_empty_try_again (created 2) 1%nat (sample_fifo [] 2 [] []) 0).
  - vm_compute; reflexivity.
  - reflexivity.
  - left. reflexivity.
Defined.

Lemma peek_leaves_fifo_witness :
  sp_packet_fifo_peek_flags crowded (Some 1%nat) 0 = Returns (0, Some 1%nat) crowded /\
  sp_packet_fifo_peek crowded (Some 1%nat) = Returns (Some 1%nat) crowded.
Proof.
  apply (peek_leaves_fifo crowded 1%nat
           (sample_fifo [Some 1%nat; Some 2%nat; Some 3%nat] 1 [] [])
           (Some 1%nat) [Some 2%nat; Some 3%nat] 0).
  - vm_compute; reflexivity.
  - reflexivity.
Defined.

(** Scenario C, the consumer running alone: a poked FIFO answers try-again
    to a pull with PULL_POKE and clears the poke; without PULL_POKE the poke
    is consumed and the pull goes to sleep on [cond_in]. *)
Example poke_wakes_pull_poke :
  exists σ1 σ2,
    sp_packet_fifo_poke patient 1%nat = Returns 0 σ1 /\
    sp_packet_fifo_pop_flags σ1 (Some 1%nat) PACKET_FIFO_PULL_POKE
      = Returns (AVERROR EAGAIN, None) patient /\
    sp_packet_fifo_pop_flags σ1 (Some 1%nat) 0 = Blocks (WaitCondIn 1%nat) σ2 /\
    σ2 = patient /\
    sp_packet_fifo_pop patient (Some 1%nat) = Blocks (WaitCondIn 1%nat) patient.
Proof.
  do 2 eexists. split; [vm_compute; reflexivity|].
  split; [vm_compute; reflexivity|].
  split; [vm_compute; reflexivity|].
  split; vm_compute; reflexivity.
Qed.

(** ** Flag strings *)

Lemma string_to_block_flags_no_rollback_witness :
  exists pre bad post,
    tokens "block_no_input,bogus" = pre ++ bad :: post /\
    Forall (fun t => t ∈ flag_names) pre /\ (bad ∉ flag_names) /\
    2 = spec_flags_union pre.
Proof.
  apply (proj1 string_to_block_flags_no_rollback "block_no_input,bogus" 2).
  vm_compute; reflexivity.
Defined.

(** Fields that [strtok_r] skips: empty ones. *)
Example empty_fields_are_skipped :
  tokens ",block_no_input,,pull_no_block," = ["block_no_input"; "pull_no_block"]%string /\
  sp_packet_fifo_string_to_block_flags ",block_no_input,,pull_no_block," = Some (0, 6) /\
  sp_packet_fifo_string_to_block_flags "" = Some (0, 0) /\
  sp_packet_fifo_string_to_block_flags "Block_No_Input" = Some (AVERROR EINVAL, 0) /\
  sp_packet_fifo_string_to_block_flags "block_no_input, pull_no_block"
    = Some (AVERROR EINVAL, 2).
Proof. repeat split. Qed.

(** * Further properties of the FIFO *)

(** ** What a push may change *)

Section PushShape.
Context `{FifoTemplate}.

Lemma grown_by_refl in_ c : grown_by in_ c c.
Proof. exists []. split; [|constructor]. now rewrite app_nil_r, set_queued_same. Qed.

Lemma grown_by_trans in_ c1 c2 c3 :
  grown_by in_ c1 c2 -> grown_by in_ c2 c3 -> grown_by in_ c1 c3.
Proof.
  intros (e1 & -> & H1) (e2 & -> & H2). exists (e1 ++ e2). split.
  - cbn [queued set_queued]. now rewrite set_queued_twice, app_assoc.
  - now apply Forall_app.
Qed.

Lemma only_appends_refl in_ (σ : store) : only_appends in_ σ σ.
Proof.
  intros g. destruct (σ !! g); constructor. apply grown_by_refl.
Qed.

Lemma only_appends_trans in_ (σ1 σ2 σ3 : store) :
  only_appends in_ σ1 σ2 -> only_appends in_ σ2 σ3 -> only_appends in_ σ1 σ3.
Proof.
  intros H12 H23 g. specialize (H12 g). specialize (H23 g).
  destruct H12 as [c1 c2 Hc|]; inversion H23; subst; constructor.
  eapply grown_by_trans; eassumption.
Qed.

Lemma only_appends_insert in_ (σ : store) dst ctx ctx' :
  σ !! dst = Some ctx -> grown_by in_ ctx ctx' ->
  only_appends in_ σ (<[dst := ctx']> σ).
Proof.
  intros Hctx Hg g. destruct (decide (dst = g)) as [<-|Hne].
  - rewrite lookup_insert_eq, Hctx. now constructor.
  - rewrite lookup_insert_ne by assumption. apply only_appends_refl.
Qed.

Lemma fifo_enqueue_grows dst ctx in_ ctx' :
  fifo_enqueue dst ctx in_ = Enqueued ctx' -> grown_by in_ ctx ctx'.
Proof.
  unfold fifo_enqueue. destruct (max_queued ctx =? 0).
  - intros [= <-]. apply grown_by_refl.
  - destruct (over_capacity ctx in_).
    + destruct (Z.land _ _ =? 0); discriminate.
    + destruct (negb _); [discriminate|]. intros [= <-].
      exists [CLONE_FN in_]. split; [reflexivity|]. now constructor.
Qed.

Lemma fifo_enqueue_refused_codes dst ctx in_ err :
  fifo_enqueue dst ctx in_ = Refused err ->
  err = AVERROR ENOBUFS \/ err = AVERROR ENOMEM.
Proof.
  unfold fifo_enqueue. destruct (max_queued ctx =? 0); [discriminate|].
  destruct (over_capacity ctx in_).
  - destruct (Z.land _ _ =? 0); [|discriminate]. intros [= <-]. now left.
  - destruct (negb _); [|discriminate]. intros [= <-]. now right.
Qed.

Lemma push_rec_only_appends fuel : forall held (σ : store) dst in_ ret σ',
  sp_packet_fifo_push_rec fuel held σ dst in_ = Returns ret σ' ->
  only_appends in_ σ σ'.
Proof.
  induction fuel as [|fuel IH]; intros held σ dst in_ ret σ' Hpush; [discriminate|].
  cbn [sp_packet_fifo_push_rec] in Hpush.
  destruct (σ !! dst) as [ctx|] eqn:Hctx; [|discriminate].
  case_bool_decide; [discriminate|].
  destruct (fifo_enqueue dst ctx in_) as [ctx'|err|] eqn:Henq; [| |discriminate].
  - eapply only_appends_trans.
    + apply (only_appends_insert in_ σ dst ctx ctx' Hctx).
      exact (fifo_enqueue_grows _ _ _ _ Henq).
    + eapply (fifo_distribute_preserves
                (fun σ1 dist => sp_packet_fifo_push_rec fuel (dst :: held) σ1 dist in_)
                (only_appends in_));
        [ apply only_appends_refl
        | apply only_appends_trans
        | intros σ1 dist r σ2 Hd; exact (IH _ _ _ _ _ _ Hd)
        | exact Hpush ].
  - injection Hpush as <- <-. apply only_appends_refl.
Qed.

(** X1: a push that returns frees and creates no FIFO, and all it does to
    a FIFO is to append clones of the pushed item to its queue: what was
    queued stays in place, and [max_queued], [block_flags], [poked],
    [dests] and [sources] keep their values. *)
Theorem push_only_appends (σ : store) dst in_ ret σ' :
  sp_packet_fifo_push σ dst in_ = Returns ret σ' ->
  dom σ' = dom σ /\
  forall g ctx, σ !! g = Some ctx ->
    exists extra,
      σ' !! g = Some {| queued := queued ctx ++ extra; max_queued := max_queued ctx;
                        block_flags := block_flags ctx; poked := poked ctx;
                        dests := dests ctx; sources := sources ctx |} /\
      Forall (fun x => x = CLONE_FN in_) extra.
Proof.
  intros Hpush. destruct dst as [f|].
  - cbn [sp_packet_fifo_push] in Hpush. split.
    + exact (push_rec_dom _ _ _ _ _ _ _ Hpush).
    + intros g ctx Hg.
      pose proof (push_rec_only_appends _ _ _ _ _ _ _ Hpush g) as Hr.
      rewrite Hg in Hr. inversion Hr as [c c' (extra & -> & Hex) E1 E2|]; subst.
      exists extra. split; [reflexivity | assumption].
  - cbn in Hpush. injection Hpush as <- <-. split; [reflexivity|].
    intros g ctx Hg. exists []. split; [|constructor].
    rewrite Hg, app_nil_r. now destruct ctx.
Qed.

Lemma fifo_distribute_codes (P : Z -> Prop) push ds : forall err (σ : store) ret σ',
  P err ->
  (forall σ1 dist r σ2, push σ1 dist = Returns r σ2 -> P r) ->
  fifo_distribute push ds err σ = Returns ret σ' ->
  P ret.
Proof.
  induction ds as [|dist ds IH]; intros err σ ret σ' Herr Hpush Hd.
  - cbn in Hd. now injection Hd as <- <-.
  - cbn [fifo_distribute] in Hd.
    destruct (push σ dist) as [r σ1| | |] eqn:Hp; try discriminate.
    pose proof (Hpush _ _ _ _ Hp) as Hr.
    destruct (r =? AVERROR ENOMEM).
    + now injection Hd as <- <-.
    + destruct (negb (r =? 0) && (err =? 0));
        [exact (IH _ _ _ _ Hr Hpush Hd) | exact (IH _ _ _ _ Herr Hpush Hd)].
Qed.

Lemma push_rec_codes fuel : forall held (σ : store) dst in_ ret σ',
  sp_packet_fifo_push_rec fuel held σ dst in_ = Returns ret σ' ->
  ret = 0 \/ ret = AVERROR ENOBUFS \/ ret = AVERROR ENOMEM.
Proof.
  induction fuel as [|fuel IH]; intros held σ dst in_ ret σ' Hpush; [discriminate|].
  cbn [sp_packet_fifo_push_rec] in Hpush.
  destruct (σ !! dst) as [ctx|] eqn:Hctx; [|discriminate].
  case_bool_decide; [discriminate|].
  destruct (fifo_enqueue dst ctx in_) as [ctx'|err|] eqn:Henq; [| |discriminate].
  - eapply (fifo_distribute_codes
              (fun r => r = 0 \/ r = AVERROR ENOBUFS \/ r = AVERROR ENOMEM)
              (fun σ1 dist => sp_packet_fifo_push_rec fuel (dst :: held) σ1 dist in_));
      [ now left
      | intros σ1 dist r σ2 Hd; exact (IH _ _ _ _ _ _ Hd)
      | exact Hpush ].
  - injection Hpush as <- <-. right. exact (fifo_enqueue_refused_codes _ _ _ _ Henq).
Qed.

(** X2: whatever the mirror graph, a push returns 0, queue-full or
    out-of-memory, and nothing else. *)
Theorem push_return_codes (σ : store) dst in_ ret σ' :
  sp_packet_fifo_push σ dst in_ = Returns ret σ' ->
  ret = 0 \/ ret = AVERROR ENOBUFS \/ ret = AVERROR ENOMEM.
Proof.
  destruct dst as [f|]; cbn [sp_packet_fifo_push].
  - apply push_rec_codes.
  - intros [= <- <-]. now left.
Qed.
End PushShape.

(** ** When a push sleeps *)

Section PushSleeps.
Context `{FifoTemplate}.

Lemma sleeps_for_back in_ w (σ σ1 : store) :
  only_appends in_ σ σ1 -> sleeps_for in_ w σ1 -> sleeps_for in_ w σ.
Proof.
  intros Happ. unfold sleeps_for. destruct w as [g|g|g]; [| exact id |].
  - intros [c1 Hc1]. specialize (Happ g). rewrite Hc1 in Happ.
    inversion Happ. eauto.
  - intros (Hin & c1 & Hc1 & Hfl & Hm0 & Hm1). split; [assumption|].
    specialize (Happ g). rewrite Hc1 in Happ.
    inversion Happ as [c c' (extra & -> & _) E1 E2|]; subst.
    exists c. auto.
Qed.

Lemma fifo_distribute_blocks_inv (R : store -> store -> Prop) push ds :
  (forall σ, R σ σ) ->
  (forall σ1 σ2 σ3, R σ1 σ2 -> R σ2 σ3 -> R σ1 σ3) ->
  (forall σ1 dist r σ2, push σ1 dist = Returns r σ2 -> R σ1 σ2) ->
  forall err (σ : store) w σb,
    fifo_distribute push ds err σ = Blocks w σb ->
    exists σ1 dist, R σ σ1 /\ dist ∈ ds /\ push σ1 dist = Blocks w σb.
Proof.
  intros Hrefl Htrans Hpush.
  induction ds as [|dist ds IH]; intros err σ w σb Hd; [discriminate|].
  cbn [fifo_distribute] in Hd.
  destruct (push σ dist) as [r σ1|w1 σ1| |] eqn:Hp; try discriminate.
  - assert (Hnext : exists err', fifo_distribute push ds err' σ1 = Blocks w σb).
    { destruct (r =? AVERROR ENOMEM); [discriminate|].
      destruct (negb (r =? 0) && (err =? 0)); eauto. }
    destruct Hnext as (err' & Hnext).
    destruct (IH _ _ _ _ Hnext) as (σ2 & d & HR & Hin & Hb).
    exists σ2, d. split; [|split; [|assumption]].
    + eapply Htrans; [exact (Hpush _ _ _ _ Hp) | exact HR].
    + apply elem_of_cons. now right.
  - injection Hd as <- <-. exists σ, dist. split; [apply Hrefl|].
    split; [apply elem_of_cons; now left | assumption].
Qed.

Lemma push_rec_sleeps fuel : forall held (σ : store) dst in_ w σb,
  sp_packet_fifo_push_rec fuel held σ dst in_ = Blocks w σb ->
  sleeps_for in_ w σ.
Proof.
  induction fuel as [|fuel IH]; intros held σ dst in_ w σb Hpush; [discriminate|].
  cbn [sp_packet_fifo_push_rec] in Hpush.
  destruct (σ !! dst) as [ctx|] eqn:Hctx; [|discriminate].
  case_bool_decide.
  { injection Hpush as <- <-. cbn [sleeps_for]. eauto. }
  destruct (fifo_enqueue dst ctx in_) as [ctx'|err|] eqn:Henq; [|discriminate|].
  - apply (fifo_distribute_blocks_inv (only_appends in_)) in Hpush
      as (σ1 & dist & Happ & _ & Hb);
      [ | apply only_appends_refl | apply only_appends_trans
        | intros σ2 d r σ3 Hd; exact (push_rec_only_appends _ _ _ _ _ _ _ Hd) ].
    apply IH in Hb. eapply sleeps_for_back; [|exact Hb].
    eapply only_appends_trans; [|exact Happ].
    apply (only_appends_insert in_ σ dst ctx ctx' Hctx).
    exact (fifo_enqueue_grows _ _ _ _ Henq).
  - injection Hpush as <- <-. unfold fifo_enqueue in Henq.
    destruct (Z.eqb_spec (max_queued ctx) 0) as [|Hm0]; [discriminate|].
    destruct (over_capacity ctx in_) eqn:Hcap.
    + destruct (Z.eqb_spec (Z.land (block_flags ctx) PACKET_FIFO_BLOCK_MAX_OUTPUT) 0)
        as [|Hfl]; [discriminate|].
      unfold over_capacity in Hcap.
      apply andb_true_iff in Hcap as [Hcap _].
      apply andb_true_iff in Hcap as [Hin Hm1].
      apply bool_decide_eq_true in Hin. apply negb_true_iff, Z.eqb_neq in Hm1.
      cbn [sleeps_for]. split; [assumption|]. exists ctx. auto.
    + destruct (negb _); discriminate.
Qed.

Lemma fifo_distribute_aborts_inv (R : store -> store -> Prop) push ds :
  (forall σ, R σ σ) ->
  (forall σ1 σ2 σ3, R σ1 σ2 -> R σ2 σ3 -> R σ1 σ3) ->
  (forall σ1 dist r σ2, push σ1 dist = Returns r σ2 -> R σ1 σ2) ->
  forall err (σ : store),
    fifo_distribute push ds err σ = Aborts ->
    exists σ1 dist, R σ σ1 /\ dist ∈ ds /\ push σ1 dist = Aborts.
Proof.
  intros Hrefl Htrans Hpush.
  induction ds as [|dist ds IH]; intros err σ Hd; [discriminate|].
  cbn [fifo_distribute] in Hd.
  destruct (push σ dist) as [r σ1|w1 σ1| |] eqn:Hp; try discriminate.
  - assert (Hnext : exists err', fifo_distribute push ds err' σ1 = Aborts).
    { destruct (r =? AVERROR ENOMEM); [discriminate|].
      destruct (negb (r =? 0) && (err =? 0)); eauto. }
    destruct Hnext as (err' & Hnext).
    destruct (IH _ _ Hnext) as (σ2 & d & HR & Hin & Hb).
    exists σ2, d. split; [|split; [|assumption]].
    + eapply Htrans; [exact (Hpush _ _ _ _ Hp) | exact HR].
    + apply elem_of_cons. now right.
  - exists σ, dist. split; [apply Hrefl|].
    split; [apply elem_of_cons; now left | exact Hp].
Qed.

(** A push leaves the mirror graph as it is. *)
Lemma only_appends_dests in_ (σ σ1 : store) s d :
  only_appends in_ σ σ1 -> in_dests σ1 s d -> in_dests σ s d.
Proof.
  intros Happ (c1 & Hc1 & Hin). specialize (Happ s). rewrite Hc1 in Happ.
  inversion Happ as [c c' (extra & -> & _) E1 E2|]; subst.
  exists c. split; [now symmetry | exact Hin].
Qed.

Lemma only_appends_None in_ (σ σ1 : store) g :
  only_appends in_ σ σ1 -> σ1 !! g = None -> σ !! g = None.
Proof.
  intros Happ H1. specialize (Happ g). rewrite H1 in Happ. now inversion Happ.
Qed.

Lemma only_appends_rtc in_ (σ σ1 : store) a b :
  only_appends in_ σ σ1 -> rtc (in_dests σ1) a b -> rtc (in_dests σ) a b.
Proof.
  intros Happ. apply rtc_subrel. intros x y.
  exact (only_appends_dests in_ σ σ1 x y Happ).
Qed.

Lemma only_appends_tc in_ (σ σ1 : store) a b :
  only_appends in_ σ σ1 -> tc (in_dests σ1) a b -> tc (in_dests σ) a b.
Proof.
  intros Happ Htc. induction Htc as [x y Hxy | x y z Hxy _ IH].
  - apply tc_once. exact (only_appends_dests _ _ _ _ _ Happ Hxy).
  - eapply tc_l; [exact (only_appends_dests _ _ _ _ _ Happ Hxy) | exact IH].
Qed.

(** Where a push that does not return is stuck: [held] are the FIFOs whose
    mutex the thread holds. *)
Lemma push_rec_stuck fuel : forall held (σ : store) dst in_,
  match sp_packet_fifo_push_rec fuel held σ dst in_ with
  | Blocks (WaitLock g) _ =>
      rtc (in_dests σ) dst g /\ (g ∈ held \/ tc (in_dests σ) g g)
  | Blocks (WaitCondOut g) _ => rtc (in_dests σ) dst g
  | Aborts => exists g, rtc (in_dests σ) dst g /\ σ !! g = None
  | _ => True
  end.
Proof.
  induction fuel as [|fuel IH]; intros held σ dst in_; [exact I|].
  cbn [sp_packet_fifo_push_rec].
  destruct (σ !! dst) as [ctx|] eqn:Hctx;
    [|exists dst; split; [apply rtc_refl | assumption]].
  case_bool_decide as Hheld; [split; [apply rtc_refl | now left]|].
  destruct (fifo_enqueue dst ctx in_) as [ctx'|err|] eqn:Henq;
    [|exact I|apply rtc_refl].
  assert (Hins : only_appends in_ σ (<[dst := ctx']> σ)).
  { apply (only_appends_insert in_ σ dst ctx ctx' Hctx).
    exact (fifo_enqueue_grows _ _ _ _ Henq). }
  destruct (fifo_distribute _ (dests ctx) 0 (<[dst := ctx']> σ))
    as [r σ'|w σb| |] eqn:Hd; [exact I| | |exact I].
  - apply (fifo_distribute_blocks_inv (only_appends in_)) in Hd
      as (σ1 & dist & Happ & Hin & Hb);
      [ | apply only_appends_refl | apply only_appends_trans
        | intros σ2 d r σ3 Hr; exact (push_rec_only_appends _ _ _ _ _ _ _ Hr) ].
    assert (Hback : only_appends in_ σ σ1)
      by (eapply only_appends_trans; [exact Hins | exact Happ]).
    assert (Hstep : in_dests σ dst dist) by (exists ctx; split; assumption).
    specialize (IH (dst :: held) σ1 dist in_). rewrite Hb in IH.
    destruct w as [g|g|g]; [|exact I|].
    + destruct IH as [Hreach Hcyc].
      apply (only_appends_rtc _ _ _ _ _ Hback) in Hreach.
      split; [eapply rtc_l; [exact Hstep | exact Hreach]|].
      destruct Hcyc as [Hg | Hcyc].
      * apply elem_of_cons in Hg as [-> | Hg]; [|now left].
        right. eapply tc_rtc_r; [apply tc_once; exact Hstep | exact Hreach].
      * right. exact (only_appends_tc _ _ _ _ _ Hback Hcyc).
    + apply (only_appends_rtc _ _ _ _ _ Hback) in IH.
      eapply rtc_l; [exact Hstep | exact IH].
  - apply (fifo_distribute_aborts_inv (only_appends in_)) in Hd
      as (σ1 & dist & Happ & Hin & Hb);
      [ | apply only_appends_refl | apply only_appends_trans
        | intros σ2 d r σ3 Hr; exact (push_rec_only_appends _ _ _ _ _ _ _ Hr) ].
    assert (Hback : only_appends in_ σ σ1)
      by (eapply only_appends_trans; [exact Hins | exact Happ]).
    assert (Hstep : in_dests σ dst dist) by (exists ctx; split; assumption).
    specialize (IH (dst :: held) σ1 dist in_). rewrite Hb in IH.
    destruct IH as (g & Hreach & Hdead). exists g. split.
    + eapply rtc_l; [exact Hstep|]. exact (only_appends_rtc _ _ _ _ _ Hback Hreach).
    + exact (only_appends_None _ _ _ _ Hback Hdead).
Qed.

(** X3: how a push can fail to return.  It never waits on [cond_in].  It
    waits on [cond_out] only with a non-null item, at a FIFO reached
    through dests that is bounded and has BLOCK_MAX_OUTPUT.  It blocks on
    a mutex only at a FIFO that is reached through dests and lies on a
    cycle of dests.  It goes wrong (the outcome [Aborts]) only by
    following a reference, reached through dests, to a FIFO that is not
    alive.  The dests are those before the push, which leaves them alone;
    the recursion always comes to an end. *)
Theorem push_sleeps_only (σ : store) dst in_ :
  match sp_packet_fifo_push σ (Some dst) in_ with
  | Returns _ _ => True
  | Blocks (WaitLock g) _ => rtc (in_dests σ) dst g /\ tc (in_dests σ) g g
  | Blocks (WaitCondIn _) _ => False
  | Blocks (WaitCondOut g) _ =>
      is_Some in_ /\ rtc (in_dests σ) dst g /\
      exists ctx, σ !! g = Some ctx /\
        Z.land (block_flags ctx) PACKET_FIFO_BLOCK_MAX_OUTPUT <> 0 /\
        max_queued ctx <> 0 /\ max_queued ctx <> -1
  | Aborts => exists g, rtc (in_dests σ) dst g /\ σ !! g = None
  | OutOfFuel => False
  end.
Proof.
  pose proof (push_total σ (Some dst) in_) as Htot.
  cbn [sp_packet_fifo_push] in *.
  pose proof (push_rec_stuck (S (size σ)) [] σ dst in_) as Hst.
  destruct (sp_packet_fifo_push_rec (S (size σ)) [] σ dst in_)
    as [r σ'|w σb| |] eqn:Hp; [exact I| |exact Hst|congruence].
  pose proof (push_rec_sleeps _ _ _ _ _ _ _ Hp) as Hsl.
  destruct w as [g|g|g]; cbn [sleeps_for] in Hsl.
  - destruct Hst as [Hreach [Hg | Hcyc]]; [now apply elem_of_nil in Hg|].
    split; assumption.
  - exact Hsl.
  - destruct Hsl as [Hin Hctx]. split; [assumption|]. split; assumption.
Qed.

Lemma attempts_preserves (R : store -> store -> Prop) push ds (σ : store) rets σ' :
  (forall σ, R σ σ) ->
  (forall σ1 σ2 σ3, R σ1 σ2 -> R σ2 σ3 -> R σ1 σ3) ->
  (forall σ1 dist r σ2, push σ1 dist = Returns r σ2 -> R σ1 σ2) ->
  attempts push ds σ rets σ' -> R σ σ'.
Proof.
  intros Hrefl Htrans Hpush Hatt.
  induction Hatt as [σ | dist ds σ ret σ1 rets σ2 Hp _ IH]; [apply Hrefl|].
  eapply Htrans; [exact (Hpush _ _ _ _ Hp) | exact IH].
Qed.

Lemma fifo_distribute_blocks push pre dist post err (σ : store) rets σ1 w σb :
  attempts push pre σ rets σ1 -> no_oom rets ->
  push σ1 dist = Blocks w σb ->
  fifo_distribute push (pre ++ dist :: post) err σ = Blocks w σb.
Proof.
  intros Hatt. revert err. induction Hatt as [σ | d ds σ ret σ1 rets σ3 Hp _ IH];
    intros err Hno Hb.
  - cbn. now rewrite Hb.
  - apply no_oom_cons in Hno as [Hr Hno]. cbn [app].
    rewrite (fifo_distribute_step _ _ _ _ _ _ _ Hp Hr). now apply IH.
Qed.

Lemma size_pos (σ : store) f ctx : σ !! f = Some ctx -> exists n, size σ = S n.
Proof.
  intros Hf. destruct (size σ) as [|n] eqn:Hs; [|eauto].
  apply map_size_empty_iff in Hs. subst. now rewrite lookup_empty in Hf.
Qed.

(** X4: a FIFO that is among its own destinations cannot be pushed into:
    once the item is past the capacity test and the destinations in front
    have returned, the push locks the FIFO's own mutex a second time and
    never returns.  By then the item is at the tail of the FIFO's queue,
    unless [max_queued] is 0 and nothing is queued. *)
Theorem self_mirror_deadlocks (σ : store) f ctx ctx' in_ pre post rets σ1 :
  σ !! f = Some ctx ->
  fifo_enqueue f ctx in_ = Enqueued ctx' ->
  dests ctx = pre ++ f :: post ->
  attempts (fun σ2 d => sp_packet_fifo_push_rec (size σ) [f] σ2 d in_)
    pre (<[f := ctx']> σ) rets σ1 ->
  no_oom rets ->
  sp_packet_fifo_push σ (Some f) in_ = Blocks (WaitLock f) σ1 /\
  σ1 !! f
  = Some (if max_queued ctx =? 0 then ctx
          else set_queued ctx (queued ctx ++ [CLONE_FN in_])).
Proof.
  intros Hctx Henq Hd Hatt Hno.
  assert (Hstored : ctx' = if max_queued ctx =? 0 then ctx
                           else set_queued ctx (queued ctx ++ [CLONE_FN in_])).
  { destruct (Z.eqb_spec (max_queued ctx) 0) as [Hm|Hm].
    - unfold fifo_enqueue in Henq. apply Z.eqb_eq in Hm. rewrite Hm in Henq.
      now injection Henq as <-.
    - exact (proj1 (fifo_enqueue_success _ _ _ _ Hm Henq)). }
  assert (Hf1 : σ1 !! f = Some ctx').
  { assert (HR : forall g, g ∈ [f] -> σ1 !! g = (<[f := ctx']> σ) !! g).
    { eapply (attempts_preserves
                (fun σ2 σ3 : store => forall g, g ∈ [f] -> σ3 !! g = σ2 !! g)
                (fun σ2 d => sp_packet_fifo_push_rec (size σ) [f] σ2 d in_));
        [ reflexivity
        | intros σ2 σ3 σ4 H23 H34 g Hg; now rewrite H34, H23
        | intros σ2 d r σ3 Hp; exact (push_rec_frame _ _ _ _ _ _ _ Hp)
        | exact Hatt ]. }
    rewrite HR by (apply elem_of_cons; now left). apply lookup_insert_eq. }
  split; [|now rewrite <- Hstored].
  destruct (size_pos σ f ctx Hctx) as (n & Hn).
  cbn [sp_packet_fifo_push sp_packet_fifo_push_rec]. rewrite Hctx.
  rewrite bool_decide_eq_false_2 by apply not_elem_of_nil.
  rewrite Henq, Hd.
  apply (fifo_distribute_blocks _ _ _ _ _ _ _ _ _ _ Hatt Hno).
  rewrite Hn. cbn [sp_packet_fifo_push_rec]. rewrite Hf1.
  rewrite bool_decide_eq_true_2 by (apply elem_of_cons; now left). reflexivity.
Qed.
End PushSleeps.

(** ** Fan-out to the destinations *)

Section FanOut.
Context `{FifoTemplate}.

Lemma push_rec_leaf fuel held (σ : store) d c c' in_ :
  σ !! d = Some c ->
  d ∉ held ->
  dests c = [] ->
  fifo_enqueue d c in_ = Enqueued c' ->
  sp_packet_fifo_push_rec (S fuel) held σ d in_ = Returns 0 (<[d := c']> σ).
Proof.
  intros Hc Hheld Hd Henq. cbn [sp_packet_fifo_push_rec]. rewrite Hc.
  rewrite bool_decide_eq_false_2 by assumption. now rewrite Henq, Hd.
Qed.

(** The loop over destinations that have no destinations of their own and
    take the item. *)
Lemma fifo_distribute_leaves fuel held in_ ds : forall (σ1 : store),
  NoDup ds ->
  (forall d, d ∈ ds -> d ∉ held) ->
  (forall d, d ∈ ds ->
     exists c c', σ1 !! d = Some c /\ dests c = [] /\ fifo_enqueue d c in_ = Enqueued c') ->
  exists σ',
    fifo_distribute (fun σ2 d => sp_packet_fifo_push_rec (S fuel) held σ2 d in_) ds 0 σ1
    = Returns 0 σ' /\
    (forall d c c', d ∈ ds -> σ1 !! d = Some c -> fifo_enqueue d c in_ = Enqueued c' ->
       σ' !! d = Some c') /\
    (forall g, g ∉ ds -> σ' !! g = σ1 !! g).
Proof.
  induction ds as [|d ds IH]; intros σ1 Hnd Hheld Hleaf.
  - exists σ1. split; [reflexivity|]. split; [|reflexivity].
    intros d c c' Hd. now apply elem_of_nil in Hd.
  - apply NoDup_cons in Hnd as [Hd Hnd].
    destruct (Hleaf d) as (c & c' & Hc & Hdc & Henq); [apply elem_of_cons; now left|].
    assert (Hp : sp_packet_fifo_push_rec (S fuel) held σ1 d in_
                 = Returns 0 (<[d := c']> σ1)).
    { apply (push_rec_leaf _ _ _ _ c); try assumption.
      apply Hheld, elem_of_cons. now left. }
    destruct (IH (<[d := c']> σ1) Hnd) as (σ' & Hdist & Hds & Hrest).
    + intros d' Hd'. apply Hheld, elem_of_cons. now right.
    + intros d' Hd'. rewrite lookup_insert_ne by (intros ->; contradiction).
      apply Hleaf, elem_of_cons. now right.
    + exists σ'. split; [|split].
      * rewrite (fifo_distribute_step _ _ _ _ _ _ _ Hp eq_refl). exact Hdist.
      * intros d' e e' Hd' He Henq'. apply elem_of_cons in Hd' as [-> | Hd'].
        -- rewrite (Hrest d Hd), lookup_insert_eq. congruence.
        -- apply (Hds d' e e' Hd'); [|assumption].
           rewrite lookup_insert_ne by (intros ->; contradiction). assumption.
      * intros g Hg. apply not_elem_of_cons in Hg as [Hne Hg].
        rewrite (Hrest g Hg). now apply lookup_insert_ne.
Qed.

(** A push into a FIFO whose destinations are distinct, are not the FIFO
    itself, have no destinations of their own and take the item. *)
Lemma push_one_level (σ : store) S ctx ctx' in_ :
  σ !! S = Some ctx ->
  fifo_enqueue S ctx in_ = Enqueued ctx' ->
  NoDup (dests ctx) ->
  S ∉ dests ctx ->
  (forall d, d ∈ dests ctx ->
     exists c c', σ !! d = Some c /\ dests c = [] /\ fifo_enqueue d c in_ = Enqueued c') ->
  exists σ',
    sp_packet_fifo_push σ (Some S) in_ = Returns 0 σ' /\
    σ' !! S = Some ctx' /\
    (forall d c c', d ∈ dests ctx -> σ !! d = Some c -> fifo_enqueue d c in_ = Enqueued c' ->
       σ' !! d = Some c') /\
    (forall g, g <> S -> g ∉ dests ctx -> σ' !! g = σ !! g).
Proof.
  intros Hctx Henq Hnd Hself Hleaf.
  destruct (size_pos σ S ctx Hctx) as (n & Hn).
  destruct (fifo_distribute_leaves n [S] in_ (dests ctx) (<[S := ctx']> σ) Hnd)
    as (σ' & Hdist & Hds & Hrest).
  - intros d Hd Hin. apply list_elem_of_singleton in Hin. subst. contradiction.
  - intros d Hd. rewrite lookup_insert_ne by (intros ->; contradiction).
    now apply Hleaf.
  - exists σ'. split; [|split; [|split]].
    + cbn [sp_packet_fifo_push sp_packet_fifo_push_rec]. rewrite Hctx.
      rewrite bool_decide_eq_false_2 by apply not_elem_of_nil.
      rewrite Henq, Hn. exact Hdist.
    + rewrite (Hrest S Hself). apply lookup_insert_eq.
    + intros d c c' Hd Hc Henq'. apply (Hds d c c' Hd); [|assumption].
      rewrite lookup_insert_ne by (intros ->; contradiction). assumption.
    + intros g Hne Hg. rewrite (Hrest g Hg). now apply lookup_insert_ne.
Qed.


(** X6: mirror, push, pop.  Two distinct FIFOs without destinations and
    with empty queues that have room: after mirror(D, S) a push into S
    returns 0, and a pop from S and a pop from D each return a clone of the
    item. *)
Theorem mirrored_push_reaches_both (σ : store) D S dctx sctx in_ flags :
  D <> S ->
  σ !! D = Some dctx -> σ !! S = Some sctx ->
  dests dctx = [] -> dests sctx = [] ->
  queued dctx = [] -> queued sctx = [] ->
  max_queued dctx <> 0 -> max_queued sctx <> 0 ->
  over_capacity dctx in_ = false -> over_capacity sctx in_ = false ->
  av_fast_realloc D 1 = true -> av_fast_realloc S 1 = true ->
  exists σ1 σ2 σ3 σ4,
    sp_packet_fifo_mirror σ (Some D) (Some S) = Returns 0 σ1 /\
    sp_packet_fifo_push σ1 (Some S) in_ = Returns 0 σ2 /\
    sp_packet_fifo_pop_flags σ2 (Some S) flags = Returns (0, CLONE_FN in_) σ3 /\
    sp_packet_fifo_pop_flags σ3 (Some D) flags = Returns (0, CLONE_FN in_) σ4 /\
    σ4 = σ1.
Proof.
  intros Hne HD HS HdD HdS HqD HqS HmD HmS HcD HcS HaD HaS.
  set (dctx1 := set_sources dctx (sp_bufferlist_append (sources dctx) S)).
  set (sctx1 := set_dests sctx (sp_bufferlist_append (dests sctx) D)).
  set (σ1 := <[S := sctx1]> (<[D := dctx1]> σ)).
  assert (H1D : σ1 !! D = Some dctx1).
  { unfold σ1. rewrite lookup_insert_ne by congruence. apply lookup_insert_eq. }
  assert (H1S : σ1 !! S = Some sctx1) by apply lookup_insert_eq.
  assert (Hds : dests sctx1 = [D]).
  { unfold sctx1, sp_bufferlist_append. cbn. now rewrite HdS. }
  assert (HeS : fifo_enqueue S sctx1 in_
                = Enqueued (set_queued sctx1 (queued sctx1 ++ [CLONE_FN in_]))).
  { apply fifo_enqueue_stores; [exact HmS | exact HcS |].
    cbn [queued sctx1 set_dests]. now rewrite HqS. }
  assert (HeD : fifo_enqueue D dctx1 in_
                = Enqueued (set_queued dctx1 (queued dctx1 ++ [CLONE_FN in_]))).
  { apply fifo_enqueue_stores; [exact HmD | exact HcD |].
    cbn [queued dctx1 set_sources]. now rewrite HqD. }
  destruct (push_one_level σ1 S sctx1 _ in_ H1S HeS) as (σ2 & Hpush & H2S & H2D & Hrest).
  - rewrite Hds. apply NoDup_singleton.
  - rewrite Hds. intros Hin. apply list_elem_of_singleton in Hin. congruence.
  - intros d Hd. rewrite Hds in Hd. apply list_elem_of_singleton in Hd. subst d.
    exists dctx1, (set_queued dctx1 (queued dctx1 ++ [CLONE_FN in_])).
    split; [assumption|]. split; [exact HdD | exact HeD].
  - specialize (H2D D dctx1 _ ltac:(rewrite Hds; apply list_elem_of_singleton; reflexivity)
                  H1D HeD).
    assert (HqS2 : queued (set_queued sctx1 (queued sctx1 ++ [CLONE_FN in_]))
                   = [CLONE_FN in_]).
    { cbn [queued set_queued sctx1 set_dests]. now rewrite HqS. }
    assert (HqD2 : queued (set_queued dctx1 (queued dctx1 ++ [CLONE_FN in_]))
                   = [CLONE_FN in_]).
    { cbn [queued set_queued dctx1 set_sources]. now rewrite HqD. }
    pose proof (pop_flags_head σ2 S _ _ _ flags H2S HqS2) as HpS.
    set (σ3 := <[S := set_queued (set_queued sctx1 (queued sctx1 ++ [CLONE_FN in_])) []]> σ2)
      in HpS.
    assert (H3D : σ3 !! D = Some (set_queued dctx1 (queued dctx1 ++ [CLONE_FN in_]))).
    { unfold σ3. rewrite lookup_insert_ne by congruence. exact H2D. }
    pose proof (pop_flags_head σ3 D _ _ _ flags H3D HqD2) as HpD.
    set (σ4 := <[D := set_queued (set_queued dctx1 (queued dctx1 ++ [CLONE_FN in_])) []]> σ3)
      in HpD.
    exists σ1, σ2, σ3, σ4.
    split; [|split; [assumption|split; [exact HpS|split; [exact HpD|]]]].
    + unfold sp_packet_fifo_mirror. rewrite HD. cbv zeta.
      rewrite lookup_insert_ne by assumption. now rewrite HS.
    + assert (HbD : set_queued dctx1 [] = dctx1)
        by (unfold dctx1; destruct dctx; cbn in *; now subst).
      assert (HbS : set_queued sctx1 [] = sctx1)
        by (unfold sctx1; destruct sctx; cbn in *; now subst).
      apply map_eq. intros g. unfold σ4. rewrite set_queued_twice, HbD.
      destruct (decide (g = D)) as [->|HgD].
      * now rewrite lookup_insert_eq, H1D.
      * rewrite lookup_insert_ne by congruence. unfold σ3.
        rewrite set_queued_twice, HbS.
        destruct (decide (g = S)) as [->|HgS].
        -- now rewrite lookup_insert_eq, H1S.
        -- rewrite lookup_insert_ne by congruence. apply Hrest; [assumption|].
           rewrite Hds. intros Hin. apply list_elem_of_singleton in Hin. congruence.
Qed.

(** X7: push and pop are a round trip.  On a FIFO without destinations,
    with an empty queue and room, a push returns 0 and the pop that
    follows returns the clone of the item and leaves every FIFO as it was
    before the push. *)
Theorem push_pop_round_trip (σ : store) f ctx in_ flags :
  σ !! f = Some ctx ->
  dests ctx = [] ->
  queued ctx = [] ->
  max_queued ctx <> 0 ->
  over_capacity ctx in_ = false ->
  av_fast_realloc f 1 = true ->
  exists σ1,
    sp_packet_fifo_push σ (Some f) in_ = Returns 0 σ1 /\
    sp_packet_fifo_pop_flags σ1 (Some f) flags = Returns (0, CLONE_FN in_) σ /\
    sp_packet_fifo_pop σ1 (Some f) = Returns (CLONE_FN in_) σ.
Proof.
  intros Hctx Hd Hq Hm Hc Ha.
  assert (Henq : fifo_enqueue f ctx in_ = Enqueued (set_queued ctx [CLONE_FN in_])).
  { rewrite (fifo_enqueue_stores f ctx in_ Hm Hc); [now rewrite Hq | now rewrite Hq]. }
  exists (<[f := set_queued ctx [CLONE_FN in_]]> σ).
  assert (Hback : <[f := set_queued (set_queued ctx [CLONE_FN in_]) []]>
                    (<[f := set_queued ctx [CLONE_FN in_]]> σ) = σ).
  { rewrite insert_insert_eq, set_queued_twice, <- Hq, set_queued_same.
    now apply insert_id. }
  split; [exact (push_leaf σ f ctx _ in_ Hctx Hd Henq)|]. split.
  - rewrite (pop_flags_head _ f (set_queued ctx [CLONE_FN in_]) (CLONE_FN in_) [] flags);
      [now rewrite Hback | apply lookup_insert_eq | reflexivity].
  - rewrite (pop_head _ f (set_queued ctx [CLONE_FN in_]) (CLONE_FN in_) []);
      [now rewrite Hback | apply lookup_insert_eq | reflexivity].
Qed.
End FanOut.

(** ** Pull, poke and the run-time settings *)

Section PullShape.
Context `{FifoTemplate}.

Lemma set_poked_same ctx : poked ctx = false -> set_poked ctx false = ctx.
Proof. destruct ctx; cbn. now intros ->. Qed.

(** The loop on an empty queue. *)
Lemma pull_wait_empty ctx pull_poke pull_no_block :
  queued ctx = [] ->
  pull_wait 2 ctx pull_poke pull_no_block =
  if (Z.land (block_flags ctx) PACKET_FIFO_BLOCK_NO_INPUT =? 0) || negb (pull_no_block =? 0)
  then Unlock (AVERROR EAGAIN) ctx
  else if negb (poked ctx) then Sleep ctx
  else if negb (pull_poke =? 0) then Unlock (AVERROR EAGAIN) (set_poked ctx false)
  else Sleep (set_poked ctx false).
Proof.
  intros Hq. cbn [pull_wait].
  change (num_queued (set_poked ctx false)) with (num_queued ctx).
  rewrite (num_queued_nil _ Hq). cbn [Z.eqb negb block_flags set_poked poked].
  destruct (_ || _); [reflexivity|].
  destruct (poked ctx); cbn [negb andb]; [|reflexivity].
  rewrite andb_true_r. now destruct (negb (pull_poke =? 0)).
Qed.

(** X8: the ways a pull on a live FIFO can end, for pop and peek and any
    flags.  It returns 0 exactly when the queue is not empty, with the
    head (pop, which leaves the tail) or a clone of it (peek, which leaves
    everything); on an empty queue it returns try-again with a null item,
    or goes to sleep on [cond_in], and the latter only if BLOCK_NO_INPUT is
    set and PULL_NO_BLOCK is not passed.  It never aborts. *)
Theorem pull_outcomes (σ : store) f ctx flags pop :
  σ !! f = Some ctx ->
  match packet_fifo_pull_flags_template σ (Some f) flags pop with
  | Returns (ret, out) σ' =>
      (ret = 0 /\
       exists head tail, queued ctx = head :: tail /\
         out = (if pop then head else CLONE_FN head) /\
         σ' = (if pop then <[f := set_queued ctx tail]> σ else σ))
      \/ (ret = AVERROR EAGAIN /\ out = None /\ queued ctx = [] /\
          (σ' = σ \/ σ' = <[f := set_poked ctx false]> σ))
  | Blocks w σ' =>
      w = WaitCondIn f /\ queued ctx = [] /\
      Z.land (block_flags ctx) PACKET_FIFO_BLOCK_NO_INPUT <> 0 /\
      Z.land flags PACKET_FIFO_PULL_NO_BLOCK = 0 /\
      σ' = <[f := set_poked ctx false]> σ
  | Aborts => False
  | OutOfFuel => False
  end.
Proof.
  intros Hctx. unfold packet_fifo_pull_flags_template. rewrite Hctx. cbv zeta.
  destruct (queued ctx) as [|head tail] eqn:Hq.
  - rewrite (pull_wait_empty _ _ _ Hq).
    destruct (Z.eqb_spec (Z.land (block_flags ctx) PACKET_FIFO_BLOCK_NO_INPUT) 0)
      as [Hb|Hb]; cbn [orb].
    { right. rewrite (insert_id σ f ctx Hctx). auto. }
    destruct (Z.eqb_spec (Z.land flags PACKET_FIFO_PULL_NO_BLOCK) 0) as [Hn|Hn];
      cbn [negb].
    + destruct (poked ctx) eqn:Hp; cbn [negb].
      * destruct (negb (Z.land flags PACKET_FIFO_PULL_POKE =? 0)).
        -- right. auto.
        -- auto.
      * rewrite (set_poked_same ctx Hp). auto.
    + right. rewrite (insert_id σ f ctx Hctx). auto.
  - rewrite (pull_wait_nonempty 1 ctx head tail _ _ Hq), Hq.
    destruct pop.
    + left. split; [reflexivity|]. exists head, tail. auto.
    + left. split; [reflexivity|]. exists head, tail.
      rewrite (insert_id σ f ctx Hctx). auto.
Qed.

(** X9: a poke is used up by the next pull on an empty queue of a FIFO
    with BLOCK_NO_INPUT.  A pull with PULL_POKE returns try-again; a pull
    without it goes to sleep on [cond_in] all the same; either way [poked]
    is false afterwards. *)
Theorem poke_then_pull (σ : store) f ctx flags :
  σ !! f = Some ctx ->
  queued ctx = [] ->
  Z.land (block_flags ctx) PACKET_FIFO_BLOCK_NO_INPUT <> 0 ->
  Z.land flags PACKET_FIFO_PULL_NO_BLOCK = 0 ->
  exists σ1,
    sp_packet_fifo_poke σ f = Returns 0 σ1 /\
    (Z.land flags PACKET_FIFO_PULL_POKE <> 0 ->
     sp_packet_fifo_pop_flags σ1 (Some f) flags
     = Returns (AVERROR EAGAIN, None) (<[f := set_poked ctx false]> σ)) /\
    (Z.land flags PACKET_FIFO_PULL_POKE = 0 ->
     sp_packet_fifo_pop_flags σ1 (Some f) flags
     = Blocks (WaitCondIn f) (<[f := set_poked ctx false]> σ)).
Proof.
  intros Hctx Hq Hb Hn. exists (<[f := set_poked ctx true]> σ).
  split; [unfold sp_packet_fifo_poke; now rewrite Hctx|].
  assert (Hw : forall pp,
             pull_wait 2 (set_poked ctx true) pp (Z.land flags PACKET_FIFO_PULL_NO_BLOCK)
             = if negb (pp =? 0) then Unlock (AVERROR EAGAIN) (set_poked ctx false)
               else Sleep (set_poked ctx false)).
  { intros pp. rewrite pull_wait_empty by exact Hq.
    cbn [block_flags set_poked poked negb].
    apply Z.eqb_neq in Hb. rewrite Hb, Hn. reflexivity. }
  unfold sp_packet_fifo_pop_flags, packet_fifo_pull_flags_template.
  rewrite lookup_insert_eq. cbv zeta. rewrite Hw.
  split; intros Hpp.
  - apply Z.eqb_neq in Hpp. rewrite Hpp. cbn [negb]. now rewrite insert_insert_eq.
  - rewrite Hpp. cbn [Z.eqb negb]. now rewrite insert_insert_eq.
Qed.

Lemma pull_all_pop_prefix j : forall q (σ : store) f ctx,
  σ !! f = Some ctx ->
  queued ctx = q ->
  (j <= length q)%nat ->
  pull_all (fun σ1 => sp_packet_fifo_pop σ1 (Some f)) σ j
  = Returns (take j q) (<[f := set_queued ctx (drop j q)]> σ).
Proof.
  induction j as [|j IH]; intros q σ f ctx Hctx Hq Hlen.
  - cbn [pull_all]. rewrite take_0, drop_0, <- Hq, set_queued_same.
    now rewrite insert_id.
  - destruct q as [|head tail]; [cbn in Hlen; lia|].
    change (take (S j) (head :: tail)) with (head :: take j tail).
    change (drop (S j) (head :: tail)) with (drop j tail).
    cbn [pull_all]. rewrite (pop_head σ f ctx head tail Hctx Hq).
    rewrite (IH tail _ f (set_queued ctx tail));
      [|apply lookup_insert_eq | reflexivity | cbn in Hlen; lia].
    now rewrite set_queued_twice, insert_insert_eq.
Qed.

(** X10: get_size counts what is queued.  In a FIFO that buffers, after
    [k] successful pushes and then [j] pops, with [j] no more than what is
    queued, get_size returns the size before plus [k] minus [j]. *)
Theorem size_accounting (σ : store) f ctx items σ1 j :
  σ !! f = Some ctx ->
  max_queued ctx <> 0 ->
  push_all σ (Some f) items = Some σ1 ->
  (j <= length (queued ctx) + length items)%nat ->
  exists vals σ2,
    pull_all (fun σ3 => sp_packet_fifo_pop σ3 (Some f)) σ1 j = Returns vals σ2 /\
    vals = take j (queued ctx ++ map CLONE_FN items) /\
    sp_packet_fifo_get_size σ2 (Some f)
    = Returns (num_queued ctx + Z.of_nat (length items) - Z.of_nat j) σ2.
Proof.
  intros Hctx Hm Hall Hj.
  pose proof (push_all_stores _ _ _ _ _ Hall Hctx Hm) as H1.
  pose proof (pull_all_pop_prefix j _ σ1 f _ H1 eq_refl) as Hp.
  cbn [queued set_queued] in Hp. rewrite length_app, length_map in Hp.
  specialize (Hp Hj). rewrite set_queued_twice in Hp.
  eexists _, _. split; [exact Hp|]. split; [reflexivity|].
  unfold sp_packet_fifo_get_size. rewrite lookup_insert_eq. f_equal.
  unfold num_queued. cbn [queued set_queued].
  rewrite length_drop, length_app, length_map. lia.
Qed.

(** X11: set_max_queued drops nothing, whatever the new bound [n]:
    get_size is unchanged and the queued items are still popped in order;
    get_max_size then returns [n], or INT_MAX for [n = -1].  If
    [0 < n < INT_MAX], more than [n + 1] items are queued and
    BLOCK_MAX_OUTPUT is unset, is_full reports true and a non-null item is
    refused with queue-full, nothing changed. *)
Theorem set_max_queued_keeps_items (σ : store) f ctx n :
  σ !! f = Some ctx ->
  exists σ1 σ2,
    sp_packet_fifo_set_max_queued σ f n = Returns tt σ1 /\
    sp_packet_fifo_get_max_size σ1 (Some f)
    = Returns (if n =? -1 then INT_MAX else n) σ1 /\
    sp_packet_fifo_get_size σ1 (Some f) = Returns (num_queued ctx) σ1 /\
    pull_all (fun σ3 => sp_packet_fifo_pop σ3 (Some f)) σ1 (length (queued ctx))
    = Returns (queued ctx) σ2 /\
    (0 < n < INT_MAX ->
     num_queued ctx > n + 1 ->
     Z.land (block_flags ctx) PACKET_FIFO_BLOCK_MAX_OUTPUT = 0 ->
     sp_packet_fifo_is_full σ1 (Some f) = Returns 1 σ1 /\
     forall x,
       sp_packet_fifo_push σ1 (Some f) (Some x) = Returns (AVERROR ENOBUFS) σ1).
Proof.
  intros Hctx.
  set (ctx1 := {| queued := queued ctx; max_queued := n;
                  block_flags := block_flags ctx; poked := poked ctx;
                  dests := dests ctx; sources := sources ctx |}).
  assert (H1 : (<[f := ctx1]> σ) !! f = Some ctx1) by apply lookup_insert_eq.
  exists (<[f := ctx1]> σ), (<[f := set_queued ctx1 []]> (<[f := ctx1]> σ)).
  split; [unfold sp_packet_fifo_set_max_queued; now rewrite Hctx|].
  split; [|split; [|split]].
  - unfold sp_packet_fifo_get_max_size. now rewrite H1.
  - unfold sp_packet_fifo_get_size. now rewrite H1.
  - exact (pull_all_pop (queued ctx) _ f ctx1 H1 eq_refl).
  - intros Hn Hlen Hfl.
    assert (Hcap : (num_queued ctx1 >? n + 1) = true)
      by (rewrite Z.gtb_ltb; apply Z.ltb_lt; exact (Z.gt_lt _ _ Hlen)).
    split.
    + unfold sp_packet_fifo_is_full. rewrite H1. f_equal.
      unfold is_full_ret. cbn [max_queued ctx1].
      destruct (Z.eqb_spec n 0); [lia|].
      replace (n >? 0) with true by (symmetry; rewrite Z.gtb_ltb; apply Z.ltb_lt; lia).
      rewrite wrap_int_id by (unfold INT_MIN, INT_MAX in *; lia). now rewrite Hcap.
    + intros x. apply (push_refused _ _ _ _ _ H1).
      unfold fifo_enqueue. cbn [max_queued ctx1 block_flags].
      destruct (Z.eqb_spec n 0); [lia|].
      rewrite over_capacity_bounded by (cbn [max_queued ctx1]; exact Hn).
      cbn [max_queued ctx1]. rewrite Hcap.
      apply Z.eqb_eq in Hfl. now rewrite Hfl.
Qed.

(** X12: new block flags decide the next pull.  After set_block_flags a
    pull on the empty queue (no poke pending, PULL_NO_BLOCK not passed)
    returns try-again if BLOCK_NO_INPUT is not among the new flags and
    goes to sleep on [cond_in] if it is. *)
Theorem set_block_flags_governs_pull (σ : store) f ctx block_flags' flags :
  σ !! f = Some ctx ->
  queued ctx = [] ->
  poked ctx = false ->
  Z.land flags PACKET_FIFO_PULL_NO_BLOCK = 0 ->
  exists σ1,
    sp_packet_fifo_set_block_flags σ f block_flags' = Returns tt σ1 /\
    sp_packet_fifo_pop_flags σ1 (Some f) flags
    = (if Z.land block_flags' PACKET_FIFO_BLOCK_NO_INPUT =? 0
       then Returns (AVERROR EAGAIN, None) σ1
       else Blocks (WaitCondIn f) σ1).
Proof.
  intros Hctx Hq Hp Hn.
  set (ctx1 := {| queued := queued ctx; max_queued := max_queued ctx;
                  block_flags := block_flags'; poked := poked ctx;
                  dests := dests ctx; sources := sources ctx |}).
  exists (<[f := ctx1]> σ).
  split; [unfold sp_packet_fifo_set_block_flags; now rewrite Hctx|].
  unfold sp_packet_fifo_pop_flags, packet_fifo_pull_flags_template.
  rewrite lookup_insert_eq. cbv zeta.
  rewrite (pull_wait_empty ctx1) by exact Hq.
  cbn [block_flags ctx1 poked]. rewrite Hn, Hp. cbn [Z.eqb negb orb].
  rewrite orb_false_r.
  destruct (Z.land block_flags' PACKET_FIFO_BLOCK_NO_INPUT =? 0);
    now rewrite insert_insert_eq.
Qed.
End PullShape.

(** ** The mirror lists *)

Section MirrorLists.
Context `{FifoTemplate}.

Lemma pop_ref_fst l d :
  fst (sp_bufferlist_pop l find_ref_by_data d)
  = if bool_decide (d ∈ l) then Some d else None.
Proof.
  induction l as [|e l IH]; [reflexivity|].
  cbn [sp_bufferlist_pop]. unfold find_ref_by_data at 1.
  destruct (Nat.eqb_spec e d) as [->|Hne].
  - cbn. rewrite bool_decide_eq_true_2; [reflexivity | apply elem_of_cons; now left].
  - destruct (sp_bufferlist_pop l find_ref_by_data d) as [r rest]. cbn in *.
    rewrite IH. rewrite (bool_decide_ext (d ∈ e :: l) (d ∈ l)); [reflexivity|].
    rewrite elem_of_cons. intuition congruence.
Qed.

Lemma pop_ref l d :
  sp_bufferlist_pop l find_ref_by_data d
  = (if bool_decide (d ∈ l) then Some d else None, drop_ref d l).
Proof.
  rewrite <- pop_ref_fst. unfold drop_ref.
  now destruct (sp_bufferlist_pop l find_ref_by_data d).
Qed.

Lemma drop_ref_cons e l d :
  drop_ref d (e :: l) = if decide (e = d) then l else e :: drop_ref d l.
Proof.
  unfold drop_ref. cbn [sp_bufferlist_pop]. unfold find_ref_by_data at 1.
  destruct (Nat.eqb_spec e d) as [->|Hne].
  - now rewrite decide_True.
  - rewrite decide_False by assumption.
    now destruct (sp_bufferlist_pop l find_ref_by_data d).
Qed.

Lemma drop_ref_nil d : drop_ref d [] = [].
Proof. reflexivity. Qed.

Lemma drop_ref_absent l d : d ∉ l -> drop_ref d l = l.
Proof.
  induction l as [|e l IH]; intros Hd; [reflexivity|].
  apply not_elem_of_cons in Hd as [Hne Hd].
  rewrite drop_ref_cons, decide_False by congruence. now rewrite IH.
Qed.

Lemma elem_of_drop_ref_ne l d x : x <> d -> x ∈ drop_ref d l <-> x ∈ l.
Proof.
  intros Hx. induction l as [|e l IH]; [reflexivity|].
  rewrite drop_ref_cons. destruct (decide (e = d)) as [->|Hne].
  - rewrite elem_of_cons. intuition congruence.
  - rewrite !elem_of_cons, IH. reflexivity.
Qed.

Lemma elem_of_drop_ref l d x : x ∈ drop_ref d l -> x ∈ l.
Proof.
  induction l as [|e l IH]; [easy|].
  rewrite drop_ref_cons. destruct (decide (e = d)).
  - intros Hx. apply elem_of_cons. now right.
  - rewrite !elem_of_cons. intuition.
Qed.

Lemma NoDup_drop_ref l d : NoDup l -> NoDup (drop_ref d l) /\ d ∉ drop_ref d l.
Proof.
  induction l as [|e l IH]; intros Hnd.
  - split; [constructor | apply not_elem_of_nil].
  - apply NoDup_cons in Hnd as [He Hnd]. destruct (IH Hnd) as [IH1 IH2].
    rewrite drop_ref_cons. destruct (decide (e = d)) as [->|Hne].
    + now split.
    + split.
      * apply NoDup_cons. split; [|assumption].
        intros Hin. apply He. now apply elem_of_drop_ref in Hin.
      * apply not_elem_of_cons. split; [congruence | assumption].
Qed.

Lemma alter_lookup (f : SPPacketFIFO -> SPPacketFIFO) (σ : store) k c :
  σ !! k = Some c -> <[k := f c]> σ = alter f k σ.
Proof.
  intros Hk. apply map_eq. intros j. rewrite lookup_alter, lookup_insert.
  destruct (decide (k = j)) as [->|]; [now rewrite Hk | reflexivity].
Qed.

(** Unmirror as two updates in place, or a failed assertion. *)
Lemma unmirror_alter (σ : store) D S dctx sctx :
  σ !! D = Some dctx ->
  σ !! S = Some sctx ->
  sp_packet_fifo_unmirror σ (Some D) (Some S)
  = if bool_decide (D ∈ dests sctx /\ S ∈ sources dctx)
    then Returns 0 (alter (drop_source S) D (alter (drop_dest D) S σ))
    else Aborts.
Proof.
  intros HD HS. unfold sp_packet_fifo_unmirror. rewrite HS, pop_ref.
  destruct (decide (D ∈ dests sctx)) as [Hd|Hd].
  - rewrite (bool_decide_eq_true_2 _ Hd). cbv zeta.
    change (<[S := set_dests sctx (drop_ref D (dests sctx))]> σ)
      with (<[S := drop_dest D sctx]> σ).
    rewrite (alter_lookup (drop_dest D) σ S sctx HS).
    assert (H1 : exists c1, alter (drop_dest D) S σ !! D = Some c1
                            /\ sources c1 = sources dctx).
    { rewrite lookup_alter. destruct (decide (S = D)) as [->|].
      - rewrite HD. eexists. split; [reflexivity|]. reflexivity.
      - eauto. }
    destruct H1 as (c1 & Hc1 & Hs1). rewrite Hc1, pop_ref, Hs1.
    destruct (decide (S ∈ sources dctx)) as [Hs|Hs].
    + rewrite (bool_decide_eq_true_2 _ Hs).
      rewrite (bool_decide_eq_true_2 (_ /\ _)) by now split.
      f_equal. rewrite <- Hs1. exact (alter_lookup (drop_source S) _ D c1 Hc1).

    + rewrite (bool_decide_eq_false_2 _ Hs).
      rewrite (bool_decide_eq_false_2 (_ /\ _)) by (intros [_ ?]; contradiction).
      reflexivity.
  - rewrite (bool_decide_eq_false_2 _ Hd).
    rewrite (bool_decide_eq_false_2 (_ /\ _)) by (intros [? _]; contradiction).
    reflexivity.
Qed.

Lemma unmirror_lookup (σ : store) D S g :
  alter (drop_source S) D (alter (drop_dest D) S σ) !! g
  = (fun c => set_sources
                (set_dests c (if decide (g = S) then drop_ref D (dests c) else dests c))
                (if decide (g = D) then drop_ref S (sources c) else sources c))
      <$> σ !! g.
Proof.
  rewrite !lookup_alter. unfold drop_source, drop_dest.
  repeat case_decide; subst; try congruence;
    destruct (σ !! g) as [c|]; cbn; try reflexivity;
    destruct c; reflexivity.
Qed.

(** X13: unmirror(D, S) on live FIFOs returns 0 exactly when D is among
    the dests of S and S among the sources of D; it then removes the first
    such entry from each of the two lists and changes nothing else.
    Otherwise one of its assertions fails. *)
Theorem unmirror_outcomes (σ : store) D S dctx sctx :
  σ !! D = Some dctx ->
  σ !! S = Some sctx ->
  (D ∈ dests sctx /\ S ∈ sources dctx ->
   exists σ',
     sp_packet_fifo_unmirror σ (Some D) (Some S) = Returns 0 σ' /\
     forall g,
       σ' !! g
       = (fun c => set_sources
                     (set_dests c (if decide (g = S) then drop_ref D (dests c)
                                   else dests c))
                     (if decide (g = D) then drop_ref S (sources c) else sources c))
           <$> σ !! g) /\
  (~ (D ∈ dests sctx /\ S ∈ sources dctx) ->
   sp_packet_fifo_unmirror σ (Some D) (Some S) = Aborts).
Proof.
  intros HD HS. rewrite (unmirror_alter σ D S dctx sctx HD HS). split.
  - intros Hin. rewrite bool_decide_eq_true_2 by assumption.
    eexists. split; [reflexivity|]. intros g. apply unmirror_lookup.
  - intros Hout. now rewrite bool_decide_eq_false_2 by assumption.
Qed.

(** Mirror as two updates in place. *)
Lemma mirror_alter (σ : store) D S dctx sctx :
  σ !! D = Some dctx ->
  σ !! S = Some sctx ->
  sp_packet_fifo_mirror σ (Some D) (Some S)
  = Returns 0 (alter (fun c => set_dests c (sp_bufferlist_append (dests c) D)) S
                 (alter (fun c => set_sources c (sp_bufferlist_append (sources c) S)) D σ)).
Proof.
  intros HD HS. unfold sp_packet_fifo_mirror. rewrite HD. cbv zeta.
  rewrite (alter_lookup (fun c => set_sources c (sp_bufferlist_append (sources c) S))
             σ D dctx HD).
  destruct (alter (fun c => set_sources c (sp_bufferlist_append (sources c) S)) D σ !! S)
    as [c1|] eqn:Hc1.
  - f_equal. exact (alter_lookup _ _ S c1 Hc1).
  - rewrite lookup_alter in Hc1. destruct (decide (D = S)) as [->|].
    + rewrite HS in Hc1. discriminate.
    + congruence.
Qed.

Lemma mirror_lookup (σ : store) D S g :
  alter (fun c => set_dests c (sp_bufferlist_append (dests c) D)) S
    (alter (fun c => set_sources c (sp_bufferlist_append (sources c) S)) D σ) !! g
  = (fun c => set_dests
                (set_sources c (sources c ++ if decide (g = D) then [S] else []))
                (dests c ++ if decide (g = S) then [D] else [])) <$> σ !! g.
Proof.
  rewrite !lookup_alter. unfold sp_bufferlist_append.
  repeat case_decide; subst; try congruence;
    destruct (σ !! g) as [c|]; cbn; try reflexivity;
    destruct c; cbn; now rewrite ?app_nil_r.
Qed.

(** X14: mirror keeps the mirror lists symmetric: if, before, a FIFO is in
    the sources of another exactly when that one is among its dests, the
    same holds after mirror(D, S), which adds the link and no other. *)
Theorem mirror_keeps_symmetry (σ : store) D S dctx sctx :
  σ !! D = Some dctx ->
  σ !! S = Some sctx ->
  exists σ1,
    sp_packet_fifo_mirror σ (Some D) (Some S) = Returns 0 σ1 /\
    (forall d s, in_sources σ1 d s <-> in_sources σ d s \/ (d = D /\ s = S)) /\
    (forall s d, in_dests σ1 s d <-> in_dests σ s d \/ (s = S /\ d = D)) /\
    (symmetric σ -> symmetric σ1).
Proof.
  intros HD HS. eexists. split; [exact (mirror_alter σ D S dctx sctx HD HS)|].
  assert (Hsrc : forall d s,
             in_sources (alter (fun c => set_dests c (sp_bufferlist_append (dests c) D)) S
               (alter (fun c => set_sources c (sp_bufferlist_append (sources c) S)) D σ))
               d s <-> in_sources σ d s \/ (d = D /\ s = S)).
  { intros d s. unfold in_sources. rewrite mirror_lookup. split.
    - intros (c & Hc & Hin). destruct (σ !! d) as [c0|] eqn:Hd; [|discriminate].
      injection Hc as <-. cbn in Hin. apply elem_of_app in Hin as [Hin|Hin].
      + left. eauto.
      + destruct (decide (d = D)); [|now apply elem_of_nil in Hin].
        apply list_elem_of_singleton in Hin. now right.
    - intros [(c & Hc & Hin) | [-> ->]].
      + rewrite Hc. eexists. split; [reflexivity|]. cbn. apply elem_of_app. now left.
      + rewrite HD. eexists. split; [reflexivity|]. cbn.
        rewrite decide_True by reflexivity. apply elem_of_app. right.
        apply list_elem_of_singleton. reflexivity. }
  assert (Hdst : forall s d,
             in_dests (alter (fun c => set_dests c (sp_bufferlist_append (dests c) D)) S
               (alter (fun c => set_sources c (sp_bufferlist_append (sources c) S)) D σ))
               s d <-> in_dests σ s d \/ (s = S /\ d = D)).
  { intros s d. unfold in_dests. rewrite mirror_lookup. split.
    - intros (c & Hc & Hin). destruct (σ !! s) as [c0|] eqn:Hs; [|discriminate].
      injection Hc as <-. cbn in Hin. apply elem_of_app in Hin as [Hin|Hin].
      + left. eauto.
      + destruct (decide (s = S)); [|now apply elem_of_nil in Hin].
        apply list_elem_of_singleton in Hin. now right.
    - intros [(c & Hc & Hin) | [-> ->]].
      + rewrite Hc. eexists. split; [reflexivity|]. cbn. apply elem_of_app. now left.
      + rewrite HS. eexists. split; [reflexivity|]. cbn.
        rewrite decide_True by reflexivity. apply elem_of_app. right.
        apply list_elem_of_singleton. reflexivity. }
  split; [exact Hsrc|]. split; [exact Hdst|].
  intros Hsym d s. rewrite Hsrc, Hdst, (Hsym d s). tauto.
Qed.
Lemma elem_of_drop_ref_NoDup l d x :
  NoDup l -> x ∈ drop_ref d l <-> x ∈ l /\ x <> d.
Proof.
  intros Hnd. destruct (decide (x = d)) as [->|Hne].
  - destruct (NoDup_drop_ref l d Hnd) as [_ Hout]. intuition.
  - rewrite (elem_of_drop_ref_ne l d x Hne). intuition.
Qed.

(** X15: unmirror keeps the invariants of the mirror lists.  From FIFOs in
    which no list has an entry twice, an unmirror(D, S) that returns
    removes the link between D and S and no other, leaves every list
    without repetitions, and keeps symmetric lists symmetric. *)
Theorem unmirror_keeps_invariants (σ : store) D S dctx sctx σ' :
  σ !! D = Some dctx ->
  σ !! S = Some sctx ->
  at_most_once σ ->
  sp_packet_fifo_unmirror σ (Some D) (Some S) = Returns 0 σ' ->
  (forall d s, in_sources σ' d s <-> in_sources σ d s /\ ~ (d = D /\ s = S)) /\
  (forall s d, in_dests σ' s d <-> in_dests σ s d /\ ~ (s = S /\ d = D)) /\
  at_most_once σ' /\
  (symmetric σ -> symmetric σ').
Proof.
  intros HD HS Hinv Hun. rewrite (unmirror_alter σ D S dctx sctx HD HS) in Hun.
  case_bool_decide; [|discriminate]. injection Hun as <-.
  assert (Hsrc : forall d s,
             in_sources (alter (drop_source S) D (alter (drop_dest D) S σ)) d s
             <-> in_sources σ d s /\ ~ (d = D /\ s = S)).
  { intros d s. unfold in_sources. rewrite unmirror_lookup. split.
    - intros (c & Hc & Hin). destruct (σ !! d) as [c0|] eqn:Hd; [|discriminate].
      injection Hc as <-. cbn in Hin. destruct (decide (d = D)) as [->|Hne].
      + apply elem_of_drop_ref_NoDup in Hin as [Hin Hs];
          [|exact (proj2 (Hinv D c0 Hd))].
        split; [eauto | intros [_ ?]; contradiction].
      + split; [eauto | intros [? _]; contradiction].
    - intros [(c & Hc & Hin) Hnot]. rewrite Hc. eexists. split; [reflexivity|].
      cbn. destruct (decide (d = D)) as [->|Hne]; [|assumption].
      apply elem_of_drop_ref_NoDup; [exact (proj2 (Hinv D c Hc))|].
      split; [assumption | intros ->; now apply Hnot]. }
  assert (Hdst : forall s d,
             in_dests (alter (drop_source S) D (alter (drop_dest D) S σ)) s d
             <-> in_dests σ s d /\ ~ (s = S /\ d = D)).
  { intros s d. unfold in_dests. rewrite unmirror_lookup. split.
    - intros (c & Hc & Hin). destruct (σ !! s) as [c0|] eqn:Hs; [|discriminate].
      injection Hc as <-. cbn in Hin. destruct (decide (s = S)) as [->|Hne].
      + apply elem_of_drop_ref_NoDup in Hin as [Hin Hd];
          [|exact (proj1 (Hinv S c0 Hs))].
        split; [eauto | intros [_ ?]; contradiction].
      + split; [eauto | intros [? _]; contradiction].
    - intros [(c & Hc & Hin) Hnot]. rewrite Hc. eexists. split; [reflexivity|].
      cbn. destruct (decide (s = S)) as [->|Hne]; [|assumption].
      apply elem_of_drop_ref_NoDup; [exact (proj1 (Hinv S c Hc))|].
      split; [assumption | intros ->; now apply Hnot]. }
  split; [exact Hsrc|]. split; [exact Hdst|]. split.
  - intros g c Hc. rewrite unmirror_lookup in Hc.
    destruct (σ !! g) as [c0|] eqn:Hg; [|discriminate]. injection Hc as <-.
    destruct (Hinv g c0 Hg) as [Hnd Hns]. cbn. split.
    + destruct (decide (g = S)); [exact (proj1 (NoDup_drop_ref _ _ Hnd)) | assumption].
    + destruct (decide (g = D)); [exact (proj1 (NoDup_drop_ref _ _ Hns)) | assumption].
  - intros Hsym d s. rewrite Hsrc, Hdst, (Hsym d s). tauto.
Qed.
(** Append, then pop the first match: an entry that was there is there
    still. *)
Lemma elem_of_drop_ref_app l d : d ∈ drop_ref d (l ++ [d]) <-> d ∈ l.
Proof.
  induction l as [|e l IH]; cbn [app]; rewrite drop_ref_cons.
  - rewrite decide_True by reflexivity. reflexivity.
  - destruct (decide (e = d)) as [->|Hne].
    + split; intros _; [apply elem_of_cons; now left|].
      apply elem_of_app. right. now apply list_elem_of_singleton.
    + rewrite !elem_of_cons, IH. intuition congruence.
Qed.

Lemma drop_ref_app_fresh l d : d ∉ l -> drop_ref d (l ++ [d]) = l.
Proof.
  intros Hd. unfold drop_ref.
  change (l ++ [d]) with (sp_bufferlist_append l d).
  now rewrite (sp_bufferlist_pop_append _ _ Hd).
Qed.

(** C4 (amended): for distinct live FIFOs D and S, mirror(D, S) returns 0
    and leaves S in D's sources and D in S's dests.  The unmirror(D, S)
    that follows returns 0, and each of the two memberships holds
    afterwards exactly if it held before the mirror: neither holds, and
    every FIFO is as before the mirror, if D and S were not linked
    before. *)
Theorem mirror_unmirror_symmetry (σ : store) D S dctx sctx :
  D <> S ->
  σ !! D = Some dctx ->
  σ !! S = Some sctx ->
  exists σ1 σ2,
    sp_packet_fifo_mirror σ (Some D) (Some S) = Returns 0 σ1 /\
    in_sources σ1 D S /\ in_dests σ1 S D /\
    sp_packet_fifo_unmirror σ1 (Some D) (Some S) = Returns 0 σ2 /\
    (in_sources σ2 D S <-> in_sources σ D S) /\
    (in_dests σ2 S D <-> in_dests σ S D) /\
    (~ in_sources σ D S -> ~ in_dests σ S D -> σ2 = σ).
Proof.
  intros Hne HD HS.
  set (σ1 := alter (fun c => set_dests c (sp_bufferlist_append (dests c) D)) S
               (alter (fun c => set_sources c (sp_bufferlist_append (sources c) S)) D σ)).
  set (σ2 := alter (drop_source S) D (alter (drop_dest D) S σ1)).
  assert (H1 : forall g,
            σ1 !! g
            = (fun c => set_dests
                          (set_sources c (sources c ++ if decide (g = D) then [S] else []))
                          (dests c ++ if decide (g = S) then [D] else [])) <$> σ !! g)
    by (intros g; apply mirror_lookup).
  assert (H1D : σ1 !! D
                = Some (set_dests (set_sources dctx (sources dctx ++ [S])) (dests dctx))).
  { rewrite H1, HD. cbn [fmap option_fmap option_map].
    rewrite decide_True by reflexivity. rewrite decide_False by assumption.
    now rewrite app_nil_r. }
  assert (H1S : σ1 !! S
                = Some (set_dests (set_sources sctx (sources sctx)) (dests sctx ++ [D]))).
  { rewrite H1, HS. cbn [fmap option_fmap option_map].
    rewrite decide_False by congruence. rewrite decide_True by reflexivity.
    now rewrite app_nil_r. }
  assert (H2 : forall g,
            σ2 !! g
            = (fun c => set_sources
                          (set_dests c (if decide (g = S) then drop_ref D (dests c)
                                        else dests c))
                          (if decide (g = D) then drop_ref S (sources c) else sources c))
                <$> σ1 !! g)
    by (intros g; apply unmirror_lookup).
  assert (H2D : exists c, σ2 !! D = Some c /\
                  sources c = drop_ref S (sources dctx ++ [S]) /\
                  c = set_sources dctx (sources c)).
  { rewrite H2, H1D. cbn [fmap option_fmap option_map].
    rewrite decide_False by assumption. rewrite decide_True by reflexivity.
    eexists. split; [reflexivity|]. destruct dctx; split; reflexivity. }
  assert (H2S : exists c, σ2 !! S = Some c /\
                  dests c = drop_ref D (dests sctx ++ [D]) /\
                  c = set_dests sctx (dests c)).
  { rewrite H2, H1S. cbn [fmap option_fmap option_map].
    rewrite decide_True by reflexivity. rewrite decide_False by congruence.
    eexists. split; [reflexivity|]. destruct sctx; split; reflexivity. }
  exists σ1, σ2. split; [exact (mirror_alter σ D S dctx sctx HD HS)|].
  split; [|split; [|split; [|split; [|split]]]].
  - eexists. split; [exact H1D|]. cbn.
    apply elem_of_app. right. now apply list_elem_of_singleton.
  - eexists. split; [exact H1S|]. cbn.
    apply elem_of_app. right. now apply list_elem_of_singleton.
  - rewrite (unmirror_alter σ1 D S _ _ H1D H1S).
    rewrite bool_decide_eq_true_2; [reflexivity|]. cbn.
    split; apply elem_of_app; right; now apply list_elem_of_singleton.
  - destruct H2D as (c & Hc & Hsrc & _). unfold in_sources. split.
    + intros (c' & Hc' & Hin). rewrite Hc in Hc'. injection Hc' as <-.
      rewrite Hsrc in Hin. apply (proj1 (elem_of_drop_ref_app _ _)) in Hin.
      exists dctx. split; assumption.
    + intros (c' & Hc' & Hin). rewrite HD in Hc'. injection Hc' as <-.
      exists c. split; [assumption|]. rewrite Hsrc.
      now apply (proj2 (elem_of_drop_ref_app _ _)).
  - destruct H2S as (c & Hc & Hdst & _). unfold in_dests. split.
    + intros (c' & Hc' & Hin). rewrite Hc in Hc'. injection Hc' as <-.
      rewrite Hdst in Hin. apply (proj1 (elem_of_drop_ref_app _ _)) in Hin.
      exists sctx. split; assumption.
    + intros (c' & Hc' & Hin). rewrite HS in Hc'. injection Hc' as <-.
      exists c. split; [assumption|]. rewrite Hdst.
      now apply (proj2 (elem_of_drop_ref_app _ _)).
  - intros Hns Hnd.
    assert (HfS : S ∉ sources dctx) by (intros Hin; apply Hns; exists dctx; now split).
    assert (HfD : D ∉ dests sctx) by (intros Hin; apply Hnd; exists sctx; now split).
    destruct H2D as (cD & HcD & HsD & HeD). destruct H2S as (cS & HcS & HdS & HeS).
    rewrite (drop_ref_app_fresh _ _ HfS) in HsD.
    rewrite (drop_ref_app_fresh _ _ HfD) in HdS.
    assert (EcD : cD = dctx) by (rewrite HeD, HsD; now destruct dctx).
    assert (EcS : cS = sctx) by (rewrite HeS, HdS; now destruct sctx).
    apply map_eq. intros g.
    destruct (decide (g = D)) as [->|HgD]; [now rewrite HcD, HD, EcD|].
    destruct (decide (g = S)) as [->|HgS]; [now rewrite HcS, HS, EcS|].
    rewrite H2, H1. destruct (σ !! g) as [c|]; [|reflexivity].
    cbn [fmap option_fmap option_map].
    rewrite !decide_False by assumption. rewrite !app_nil_r.
    now destruct c.
Qed.
End MirrorLists.

(** ** Unmirror-all *)

Section UnmirrorAll.
Context `{FifoTemplate}.

Lemma lookup_foldl_alter (f : SPPacketFIFO -> SPPacketFIFO) L g : forall (m : store),
  NoDup L ->
  foldl (fun m s => alter f s m) m L !! g
  = if bool_decide (g ∈ L) then f <$> m !! g else m !! g.
Proof.
  induction L as [|s L IH]; intros m Hnd; [reflexivity|].
  apply NoDup_cons in Hnd as [Hs Hnd]. cbn [foldl]. rewrite (IH _ Hnd).
  rewrite lookup_alter. destruct (decide (s = g)) as [->|Hne].
  - rewrite (bool_decide_eq_false_2 _ Hs).
    rewrite bool_decide_eq_true_2 by (apply elem_of_cons; now left). reflexivity.
  - rewrite (bool_decide_ext (g ∈ s :: L) (g ∈ L)); [reflexivity|].
    rewrite elem_of_cons. intuition congruence.
Qed.

(** The first loop pops every source and drops [ref] from its dests. *)
Lemma unmirror_all_sources_fold ref L : forall fuel (σ : store) ctx,
  σ !! ref = Some ctx ->
  sources ctx = L ->
  (length L < fuel)%nat ->
  (forall g, g ∈ L -> is_Some (σ !! g)) ->
  unmirror_all_sources fuel σ ref
  = Returns tt (foldl (fun m s => alter (drop_dest ref) s m)
                  (alter (fun c => set_sources c []) ref σ) L).
Proof.
  induction L as [|s L IH]; intros fuel σ ctx Hctx Hsrc Hfuel Halive;
    (destruct fuel as [|fuel]; [cbn in Hfuel; lia|]);
    cbn [unmirror_all_sources]; rewrite Hctx, Hsrc; cbn [sp_bufferlist_pop
      sp_bufferlist_find_fn_first].
  - cbn [foldl]. f_equal. symmetry.
    rewrite <- (alter_lookup (fun c => set_sources c []) σ ref ctx Hctx).
    apply insert_id. rewrite Hctx. f_equal. destruct ctx; cbn in *. now subst.
  - cbv zeta.
    assert (Hs1 : exists src_ctx, <[ref := set_sources ctx L]> σ !! s = Some src_ctx).
    { apply lookup_insert_is_Some'. right. apply Halive, elem_of_cons. now left. }
    destruct Hs1 as (src_ctx & Hs1). rewrite Hs1, pop_ref.
    change (<[s := set_dests src_ctx (drop_ref ref (dests src_ctx))]>
              (<[ref := set_sources ctx L]> σ))
      with (<[s := drop_dest ref src_ctx]> (<[ref := set_sources ctx L]> σ)).
    rewrite (alter_lookup (drop_dest ref) _ s src_ctx Hs1).
    assert (H2 : exists ctx2,
               alter (drop_dest ref) s (<[ref := set_sources ctx L]> σ) !! ref = Some ctx2
               /\ sources ctx2 = L).
    { rewrite lookup_alter. destruct (decide (s = ref)) as [->|].
      - rewrite lookup_insert_eq. eexists. split; reflexivity.
      - rewrite lookup_insert_eq. eexists. split; reflexivity. }
    destruct H2 as (ctx2 & Hctx2 & Hsrc2).
    rewrite (IH fuel _ ctx2 Hctx2 Hsrc2); [|cbn in Hfuel; lia|].
    + cbn [foldl]. do 2 f_equal.
      apply map_eq. intros k. rewrite !lookup_alter, !lookup_insert.
      repeat case_decide; subst; try congruence;
        rewrite ?Hctx; cbn; try reflexivity;
        destruct (σ !! k); reflexivity.
    + intros g Hg. apply lookup_alter_is_Some, lookup_insert_is_Some'. right.
      apply Halive, elem_of_cons. now right.
Qed.

(** The second loop pops every dest and drops [ref] from its sources. *)
Lemma unmirror_all_dests_fold ref L : forall fuel (σ : store) ctx,
  σ !! ref = Some ctx ->
  dests ctx = L ->
  (length L < fuel)%nat ->
  (forall g, g ∈ L -> is_Some (σ !! g)) ->
  unmirror_all_dests fuel σ ref
  = Returns tt (foldl (fun m s => alter (drop_source ref) s m)
                  (alter (fun c => set_dests c []) ref σ) L).
Proof.
  induction L as [|s L IH]; intros fuel σ ctx Hctx Hdst Hfuel Halive;
    (destruct fuel as [|fuel]; [cbn in Hfuel; lia|]);
    cbn [unmirror_all_dests]; rewrite Hctx, Hdst; cbn [sp_bufferlist_pop
      sp_bufferlist_find_fn_first].
  - cbn [foldl]. f_equal. symmetry.
    rewrite <- (alter_lookup (fun c => set_dests c []) σ ref ctx Hctx).
    apply insert_id. rewrite Hctx. f_equal. destruct ctx; cbn in *. now subst.
  - cbv zeta.
    assert (Hs1 : exists dst_ctx, <[ref := set_dests ctx L]> σ !! s = Some dst_ctx).
    { apply lookup_insert_is_Some'. right. apply Halive, elem_of_cons. now left. }
    destruct Hs1 as (dst_ctx & Hs1). rewrite Hs1, pop_ref.
    change (<[s := set_sources dst_ctx (drop_ref ref (sources dst_ctx))]>
              (<[ref := set_dests ctx L]> σ))
      with (<[s := drop_source ref dst_ctx]> (<[ref := set_dests ctx L]> σ)).
    rewrite (alter_lookup (drop_source ref) _ s dst_ctx Hs1).
    assert (H2 : exists ctx2,
               alter (drop_source ref) s (<[ref := set_dests ctx L]> σ) !! ref = Some ctx2
               /\ dests ctx2 = L).
    { rewrite lookup_alter. destruct (decide (s = ref)) as [->|].
      - rewrite lookup_insert_eq. eexists. split; reflexivity.
      - rewrite lookup_insert_eq. eexists. split; reflexivity. }
    destruct H2 as (ctx2 & Hctx2 & Hdst2).
    rewrite (IH fuel _ ctx2 Hctx2 Hdst2); [|cbn in Hfuel; lia|].
    + cbn [foldl]. do 2 f_equal.
      apply map_eq. intros k. rewrite !lookup_alter, !lookup_insert.
      repeat case_decide; subst; try congruence;
        rewrite ?Hctx; cbn; try reflexivity;
        destruct (σ !! k); reflexivity.
    + intros g Hg. apply lookup_alter_is_Some, lookup_insert_is_Some'. right.
      apply Halive, elem_of_cons. now right.
Qed.
Lemma unmirror_all_lookup (σ : store) ref ctx :
  σ !! ref = Some ctx ->
  NoDup (sources ctx) -> NoDup (dests ctx) ->
  (forall g, g ∈ sources ctx \/ g ∈ dests ctx -> is_Some (σ !! g)) ->
  exists σ',
    sp_packet_fifo_unmirror_all σ (Some ref) = Returns 0 σ' /\
    forall g, σ' !! g = detached ref ctx g <$> σ !! g.
Proof.
  intros Hctx HndL HndM Halive.
  unfold sp_packet_fifo_unmirror_all. rewrite Hctx.
  rewrite (unmirror_all_sources_fold ref (sources ctx) _ σ ctx Hctx eq_refl);
    [|lia | intros g Hg; apply Halive; now left].
  set (σa := foldl (fun m s => alter (drop_dest ref) s m)
               (alter (fun c => set_sources c []) ref σ) (sources ctx)).
  assert (Ha : forall g,
             σa !! g = if bool_decide (g ∈ sources ctx)
                       then drop_dest ref <$>
                              (if decide (ref = g)
                               then (fun c => set_sources c []) <$> σ !! ref
                               else σ !! g)
                       else (if decide (ref = g)
                             then (fun c => set_sources c []) <$> σ !! ref
                             else σ !! g)).
  { intros g. unfold σa. rewrite (lookup_foldl_alter _ _ g _ HndL).
    now rewrite lookup_alter. }
  set (M' := if bool_decide (ref ∈ sources ctx)
             then drop_ref ref (dests ctx) else dests ctx).
  assert (Hra : exists ctxa, σa !! ref = Some ctxa /\ dests ctxa = M').
  { rewrite Ha, decide_True, Hctx by reflexivity. unfold M'.
    destruct (bool_decide (ref ∈ sources ctx)); eexists; split; reflexivity. }
  destruct Hra as (ctxa & Hctxa & Hda). rewrite Hctxa.
  assert (HndM' : NoDup M').
  { unfold M'. destruct (bool_decide _); [|assumption].
    exact (proj1 (NoDup_drop_ref _ _ HndM)). }
  assert (HM' : forall g, g ∈ M' -> g ∈ dests ctx).
  { unfold M'. intros g. destruct (bool_decide _); [apply elem_of_drop_ref | exact id]. }
  rewrite (unmirror_all_dests_fold ref M' _ σa ctxa Hctxa Hda); [|rewrite Hda; lia|].
  2:{ intros g Hg. specialize (Halive g (or_intror (HM' g Hg))).
      destruct Halive as [c Hc]. rewrite Ha.
      destruct (decide (ref = g)) as [->|];
        rewrite ?Hctx, ?Hc; cbn; destruct (bool_decide (g ∈ sources ctx)); eauto. }
  eexists. split; [reflexivity|]. intros g.
  rewrite (lookup_foldl_alter _ _ g _ HndM'), lookup_alter, Hctxa, Ha.
  destruct (decide (ref = g)) as [<-|Hne].
  - rewrite Hctx. cbn [fmap option_fmap option_map]. unfold detached.
    rewrite decide_True by reflexivity.
    destruct (bool_decide (ref ∈ M')), (bool_decide (ref ∈ sources ctx)) eqn:E;
      rewrite Ha, decide_True, Hctx, ?E in Hctxa by reflexivity;
      injection Hctxa as <-; destruct ctx; reflexivity.
  - rewrite (bool_decide_ext (g ∈ M') (g ∈ dests ctx)).
    + destruct (σ !! g) as [c|]; cbn [fmap option_fmap option_map]; unfold detached;
        rewrite ?decide_False by congruence;
        destruct (bool_decide (g ∈ dests ctx)), (bool_decide (g ∈ sources ctx));
        cbn; try reflexivity; destruct c; reflexivity.
    + split; [apply HM'|]. unfold M'. destruct (bool_decide _); [|exact id].
      apply elem_of_drop_ref_ne. congruence.
Qed.

(** X16: unmirror-all detaches a FIFO.  When no list has an entry twice
    and the peers of [ref] are alive, unmirror_all(ref) returns 0; it
    empties the dests and sources of [ref], removes [ref] from the dests of
    each of its sources and from the sources of each of its dests, and
    changes nothing else: no queue, no setting, no other link.  If the
    lists were symmetric, [ref] is then in no list at all. *)
Theorem unmirror_all_detaches (σ : store) ref ctx :
  σ !! ref = Some ctx ->
  at_most_once σ ->
  (forall g, g ∈ sources ctx \/ g ∈ dests ctx -> is_Some (σ !! g)) ->
  exists σ',
    sp_packet_fifo_unmirror_all σ (Some ref) = Returns 0 σ' /\
    (forall g, σ' !! g = detached ref ctx g <$> σ !! g) /\
    (forall g, ~ in_dests σ' ref g /\ ~ in_sources σ' ref g) /\
    (symmetric σ -> forall g, ~ in_dests σ' g ref /\ ~ in_sources σ' g ref).
Proof.
  intros Hctx Hinv Halive.
  destruct (Hinv ref ctx Hctx) as [HndM HndL].
  destruct (unmirror_all_lookup σ ref ctx Hctx HndL HndM Halive) as (σ' & Hun & Hl).
  exists σ'. split; [assumption|]. split; [assumption|].
  assert (Hown : forall g, ~ in_dests σ' ref g /\ ~ in_sources σ' ref g).
  { intros g. split; intros (c & Hc & Hin); rewrite Hl, Hctx in Hc;
      injection Hc as <-; unfold detached in Hin;
      rewrite decide_True in Hin by reflexivity; cbn in Hin;
      now apply elem_of_nil in Hin. }
  split; [exact Hown|].
  intros Hsym g. destruct (decide (g = ref)) as [->|Hne]; [apply Hown|].
  split; intros (c' & Hc' & Hin); rewrite Hl in Hc';
    destruct (σ !! g) as [c|] eqn:Hg; try discriminate;
    injection Hc' as <-; unfold detached in Hin;
    rewrite decide_False in Hin by assumption; cbn in Hin;
    destruct (Hinv g c Hg) as [Hnd Hns].
  - assert (Hold : ref ∈ dests c).
    { destruct (bool_decide _); [now apply elem_of_drop_ref in Hin | assumption]. }
    assert (Hsrc : g ∈ sources ctx).
    { destruct (proj2 (Hsym ref g)) as (c0 & Hc0 & Hin0); [exists c; auto|].
      congruence. }
    rewrite (bool_decide_eq_true_2 _ Hsrc) in Hin.
    exact (proj2 (NoDup_drop_ref _ _ Hnd) Hin).
  - assert (Hold : ref ∈ sources c).
    { destruct (bool_decide _); [now apply elem_of_drop_ref in Hin | assumption]. }
    assert (Hdst : g ∈ dests ctx).
    { destruct (proj1 (Hsym g ref)) as (c0 & Hc0 & Hin0); [exists c; auto|].
      congruence. }
    rewrite (bool_decide_eq_true_2 _ Hdst) in Hin.
    exact (proj2 (NoDup_drop_ref _ _ Hns) Hin).
Qed.
End UnmirrorAll.

(** ** More on the flag strings *)

Section FlagSets.
Context `{FifoTemplate}.

Lemma run_tokens_zero_known ts dst ret out :
  run_tokens dst ts = (ret, out) -> ret = 0 -> Forall known ts.
Proof.
  revert dst. induction ts as [|t ts IH]; intros dst Hrun Hret; [constructor|].
  cbn [run_tokens] in Hrun. destruct (flag_of_token t) as [flag|] eqn:Et.
  - constructor; [unfold known; eauto | exact (IH _ Hrun Hret)].
  - injection Hrun as <- <-. discriminate.
Qed.

(** X17: on every input the parser ends with 0 or invalid-argument; it
    ends with 0 exactly when every token that [strtok_r] yields is one of
    the three flag names, and [*dst] is then the union of the flags the
    specification gives these names. *)
Theorem string_to_block_flags_iff in_str :
  exists ret dst,
    sp_packet_fifo_string_to_block_flags in_str = Some (ret, dst) /\
    (ret = 0 \/ ret = AVERROR EINVAL) /\
    (ret = 0 <-> Forall (fun t => t ∈ flag_names) (tokens in_str)) /\
    (ret = 0 -> dst = spec_flags_union (tokens in_str)).
Proof.
  rewrite string_to_block_flags_tokens.
  destruct (run_tokens 0 (tokens in_str)) as [ret dst] eqn:Hrun.
  exists ret, dst. split; [reflexivity|].
  assert (Hiff : ret = 0 <-> Forall known (tokens in_str)).
  { split.
    - exact (run_tokens_zero_known _ _ _ _ Hrun).
    - intros Hk. rewrite (run_tokens_known _ 0 Hk) in Hrun. congruence. }
  split; [|split].
  - pose proof (run_tokens_ret (tokens in_str) 0) as Hr. now rewrite Hrun in Hr.
  - rewrite Hiff. split; intros Hk; (eapply Forall_impl; [exact Hk|]);
      intros t; apply known_names.
  - intros Hz. apply Hiff in Hz. rewrite (run_tokens_known _ 0 Hz) in Hrun.
    rewrite <- (or_flags_spec _ Hz). congruence.
Qed.

(** X18: the order of the flag names and their repetition do not matter:
    two inputs whose tokens are all flag names and form the same set give
    the same result, 0 with the union of the flags the specification gives
    the names of that set. *)
Theorem string_to_block_flags_set in_str1 in_str2 :
  Forall (fun t => t ∈ flag_names) (tokens in_str1) ->
  (forall t, t ∈ tokens in_str1 <-> t ∈ tokens in_str2) ->
  sp_packet_fifo_string_to_block_flags in_str1
  = sp_packet_fifo_string_to_block_flags in_str2 /\
  sp_packet_fifo_string_to_block_flags in_str1
  = Some (0, spec_flags_union (tokens in_str1)).
Proof.
  intros Hn Hsame.
  assert (Hk1 : Forall known (tokens in_str1))
    by (eapply Forall_impl; [exact Hn | intros t; apply known_names]).
  assert (Hk2 : Forall known (tokens in_str2)).
  { apply Forall_forall. intros t Ht. apply Hsame in Ht.
    apply known_names. rewrite Forall_forall in Hn. now apply Hn. }
  rewrite !string_to_block_flags_tokens.
  rewrite (run_tokens_known _ 0 Hk1), (run_tokens_known _ 0 Hk2).
  rewrite (or_flags_spec _ Hk1), (or_flags_spec _ Hk2).
  now rewrite (spec_flags_union_same _ _ Hsame).
Qed.
End FlagSets.


(** ** Creation and the capacity test *)

Section Capacity.
Context `{FifoTemplate}.

Lemma over_capacity_negative ctx x :
  INT_MIN <= max_queued ctx < -1 -> over_capacity ctx (Some x) = true.
Proof.
  intros Hr. unfold over_capacity.
  rewrite bool_decide_eq_true_2 by eauto.
  rewrite wrap_int_id by (unfold INT_MIN, INT_MAX in *; lia).
  replace (max_queued ctx =? -1) with false by (symmetry; apply Z.eqb_neq; lia).
  unfold num_queued. cbn [negb andb]. rewrite Z.gtb_ltb. apply Z.ltb_lt. lia.
Qed.

(** X19: a [max_queued] below -1 makes a FIFO that takes no item, whatever
    it holds: a non-null push is refused with queue-full, or sleeps on
    [cond_out] if BLOCK_MAX_OUTPUT is set, and nothing changes; is_full
    reports 0 all the while. *)
Theorem negative_max_queued_refuses (σ : store) f ctx x :
  σ !! f = Some ctx ->
  INT_MIN <= max_queued ctx < -1 ->
  sp_packet_fifo_is_full σ (Some f) = Returns 0 σ /\
  sp_packet_fifo_push σ (Some f) (Some x)
  = (if Z.land (block_flags ctx) PACKET_FIFO_BLOCK_MAX_OUTPUT =? 0
     then Returns (AVERROR ENOBUFS) σ
     else Blocks (WaitCondOut f) σ).
Proof.
  intros Hctx Hr. split.
  - unfold sp_packet_fifo_is_full, is_full_ret. rewrite Hctx.
    replace (max_queued ctx =? 0) with false by (symmetry; apply Z.eqb_neq; lia).
    replace (max_queued ctx >? 0) with false; [reflexivity|].
    symmetry. rewrite Z.gtb_ltb. apply Z.ltb_ge. lia.
  - unfold sp_packet_fifo_push. cbn [sp_packet_fifo_push_rec]. rewrite Hctx.
    rewrite bool_decide_eq_false_2 by apply not_elem_of_nil.
    unfold fifo_enqueue.
    replace (max_queued ctx =? 0) with false by (symmetry; apply Z.eqb_neq; lia).
    rewrite (over_capacity_negative _ _ Hr).
    now destruct (Z.land (block_flags ctx) PACKET_FIFO_BLOCK_MAX_OUTPUT =? 0).
Qed.

(** X20: create and the first push, for [max_queued] an [int] below
    INT_MAX and block flags without BLOCK_MAX_OUTPUT.  Create returns NULL
    and leaves the FIFOs as they are when one of its four allocations
    fails.  Otherwise it makes a FIFO at the fresh address and leaves the
    others as they are; the new FIFO has size 0 and is full only for
    [max_queued = 0].  The first push of a non-null item into it returns
    queue-full for [max_queued < -1], 0 for [max_queued = 0] (nothing is
    stored), and otherwise 0 or out-of-memory as [av_fast_realloc]
    decides; the item is stored exactly when the push returns 0 and
    [max_queued] is not 0, and a refused push changes nothing. *)
Theorem created_fifo_first_push (σ : store) ctx ctx_ref dests_new sources_new m bf x :
  (forall f, ctx = Some f -> σ !! f = None) ->
  INT_MIN <= m < INT_MAX ->
  Z.land bf PACKET_FIFO_BLOCK_MAX_OUTPUT = 0 ->
  match sp_packet_fifo_create σ ctx ctx_ref dests_new sources_new m bf with
  | (None, σ1) =>
      σ1 = σ /\
      (ctx = None \/ ctx_ref = false \/ dests_new = false \/ sources_new = false)
  | (Some f, σ1) =>
      ctx = Some f /\ ctx_ref = true /\ dests_new = true /\ sources_new = true /\
      (forall g c, σ !! g = Some c -> σ1 !! g = Some c) /\
      sp_packet_fifo_get_size σ1 (Some f) = Returns 0 σ1 /\
      sp_packet_fifo_is_full σ1 (Some f) = Returns (if m =? 0 then 1 else 0) σ1 /\
      exists ret σ2,
        sp_packet_fifo_push σ1 (Some f) (Some x) = Returns ret σ2 /\
        ret = (if m <? -1 then AVERROR ENOBUFS
               else if (m =? 0) || av_fast_realloc f 1 then 0
               else AVERROR ENOMEM) /\
        (ret <> 0 -> σ2 = σ1) /\
        sp_packet_fifo_get_size σ2 (Some f)
        = Returns (if (ret =? 0) && negb (m =? 0) then 1 else 0) σ2
  end.
Proof.
  intros Hfresh Hr Hfl.
  destruct ctx as [f|]; cbn [sp_packet_fifo_create]; [|split; [reflexivity | now left]].
  destruct ctx_ref; cbn [negb]; [|split; [reflexivity | right; now left]].
  destruct dests_new; cbn [negb]; [|split; [reflexivity | right; right; now left]].
  destruct sources_new; cbn [negb]; [|split; [reflexivity | right; right; now right]].
  specialize (Hfresh f eq_refl).
  set (c0 := {| queued := []; max_queued := m; block_flags := bf; poked := false;
                dests := []; sources := [] |}).
  assert (Hc0 : <[f := c0]> σ !! f = Some c0) by apply lookup_insert_eq.
  do 4 (split; [reflexivity|]). split.
  { intros g c Hg. rewrite lookup_insert_ne; [assumption|]. intros <-. congruence. }
  split.
  { unfold sp_packet_fifo_get_size. now rewrite Hc0. }
  split.
  { unfold sp_packet_fifo_is_full, is_full_ret. rewrite Hc0. cbn [max_queued c0].
    destruct (Z.eqb_spec m 0) as [|Hm0]; [reflexivity|].
    destruct (m >? 0) eqn:Hpos; [|reflexivity].
    apply Z.gtb_gt in Hpos.
    rewrite wrap_int_id by (unfold INT_MIN, INT_MAX in *; lia).
    unfold num_queued. cbn [queued length c0].
    replace (Z.of_nat 0 >? m + 1) with false; [reflexivity|].
    symmetry. rewrite Z.gtb_ltb. apply Z.ltb_ge. lia. }
  destruct (Z.ltb_spec m (-1)) as [Hneg|Hok].
  { (* below -1: over capacity from the start *)
    exists (AVERROR ENOBUFS), (<[f := c0]> σ).
    split; [|split; [reflexivity|split; [reflexivity|]]].
    - apply (push_refused _ _ c0); [assumption|].
      unfold fifo_enqueue. cbn [max_queued block_flags c0].
      replace (m =? 0) with false by (symmetry; apply Z.eqb_neq; lia).
      rewrite over_capacity_negative by (cbn [max_queued c0]; lia).
      cbn [block_flags]. rewrite Hfl. reflexivity.
    - unfold sp_packet_fifo_get_size. now rewrite Hc0. }
  destruct (Z.eqb_spec m 0) as [Hm0|Hm0]; cbn [orb].
  { (* [max_queued = 0]: straight to [distribute:], and there are no dests *)
    exists 0, (<[f := c0]> (<[f := c0]> σ)).
    split; [|split; [reflexivity|split]].
    - apply (push_leaf _ _ c0); [assumption | reflexivity |].
      unfold fifo_enqueue. cbn [max_queued c0]. subst m. reflexivity.
    - intros Hne. now contradiction Hne.
    - unfold sp_packet_fifo_get_size. rewrite lookup_insert_eq. reflexivity. }
  assert (Hcap : over_capacity c0 (Some x) = false).
  { unfold over_capacity. rewrite bool_decide_eq_true_2 by eauto.
    cbn [max_queued c0 andb].
    destruct (Z.eqb_spec m (-1)) as [|Hm1]; [reflexivity|]. cbn [negb].
    rewrite wrap_int_id by (unfold INT_MIN, INT_MAX in *; lia).
    unfold num_queued. cbn [queued length c0].
    rewrite Z.gtb_ltb. apply Z.ltb_ge. lia. }
  destruct (av_fast_realloc f 1) eqn:Hmem.
  - exists 0, (<[f := set_queued c0 (queued c0 ++ [CLONE_FN (Some x)])]> (<[f := c0]> σ)).
    split; [|split; [reflexivity|split]].
    + apply (push_leaf _ _ c0); [assumption | reflexivity |].
      now apply fifo_enqueue_stores.
    + intros Hne. now contradiction Hne.
    + unfold sp_packet_fifo_get_size. rewrite lookup_insert_eq. reflexivity.
  - exists (AVERROR ENOMEM), (<[f := c0]> σ).
    split; [|split; [reflexivity|split; [reflexivity|]]].
    + apply (push_refused _ _ c0); [assumption|].
      unfold fifo_enqueue. cbn [max_queued c0].
      apply Z.eqb_neq in Hm0. rewrite Hm0.
      fold c0. rewrite Hcap. cbn [queued c0 length]. rewrite Hmem. reflexivity.
    + unfold sp_packet_fifo_get_size. now rewrite Hc0.
Qed.
End Capacity.

(** * Worked cases for the further properties *)

Lemma push_only_appends_witness :
  exists ret σ',
    sp_packet_fifo_push fan_full (Some 1%nat) (Some 7%nat) = Returns ret σ' /\
    dom σ' = dom fan_full /\
    forall g ctx, fan_full !! g = Some ctx ->
      exists extra,
        σ' !! g = Some {| queued := queued ctx ++ extra; max_queued := max_queued ctx;
                          block_flags := block_flags ctx; poked := poked ctx;
                          dests := dests ctx; sources := sources ctx |} /\
        Forall (fun x => x = CLONE_FN (Some 7%nat)) extra.
Proof.
  destruct (sp_packet_fifo_push fan_full (Some 1%nat) (Some 7%nat)) as [ret σ'| | |] eqn:Hpush;
    try (vm_compute in Hpush; discriminate).
  exists ret, σ'. split; [reflexivity|].
  exact (push_only_appends fan_full (Some 1%nat) (Some 7%nat) ret σ' Hpush).
Defined.

Lemma push_return_codes_witness :
  exists ret σ',
    sp_packet_fifo_push fan_oom (Some 1%nat) (Some 7%nat) = Returns ret σ' /\
    (ret = 0 \/ ret = AVERROR ENOBUFS \/ ret = AVERROR ENOMEM).
Proof.
  destruct (sp_packet_fifo_push fan_oom (Some 1%nat) (Some 7%nat)) as [ret σ'| | |] eqn:Hpush;
    try (vm_compute in Hpush; discriminate).
  exists ret, σ'. split; [reflexivity|].
  exact (push_return_codes fan_oom (Some 1%nat) (Some 7%nat) ret σ' Hpush).
Defined.

Lemma self_mirror_deadlocks_witness :
  sp_packet_fifo_push looped (Some 1%nat) (Some 7%nat)
    = Blocks (WaitLock 1%nat)
        (<[1%nat := sample_fifo [Some 7%nat] (-1) [1%nat] [1%nat]]> looped) /\
  (<[1%nat := sample_fifo [Some 7%nat] (-1) [1%nat] [1%nat]]> looped) !! 1%nat
    = Some (sample_fifo [Some 7%nat] (-1) [1%nat] [1%nat]).
Proof.
  destruct (self_mirror_deadlocks looped 1%nat (sample_fifo [] (-1) [1%nat] [1%nat])
              (sample_fifo [Some 7%nat] (-1) [1%nat] [1%nat]) (Some 7%nat) [] [] []
              (<[1%nat := sample_fifo [Some 7%nat] (-1) [1%nat] [1%nat]]> looped))
    as [Hblocks Hstored].
  - vm_compute; reflexivity.
  - vm_compute; reflexivity.
  - reflexivity.
  - constructor.
  - unfold no_oom. apply not_elem_of_nil.
  - split; [exact Hblocks | exact Hstored].
Defined.


Lemma mirrored_push_reaches_both_witness :
  exists σ1 σ2 σ3 σ4,
    sp_packet_fifo_mirror apart (Some 1%nat) (Some 2%nat) = Returns 0 σ1 /\
    sp_packet_fifo_push σ1 (Some 2%nat) (Some 7%nat) = Returns 0 σ2 /\
    sp_packet_fifo_pop_flags σ2 (Some 2%nat) 0 = Returns (0, CLONE_FN (Some 7%nat)) σ3 /\
    sp_packet_fifo_pop_flags σ3 (Some 1%nat) 0 = Returns (0, CLONE_FN (Some 7%nat)) σ4 /\
    σ4 = σ1.
Proof.
  apply (mirrored_push_reaches_both apart 1%nat 2%nat
           (sample_fifo [] (-1) [] []) (sample_fifo [] (-1) [] []) (Some 7%nat) 0).
  - lia.
  - vm_compute; reflexivity.
  - vm_compute; reflexivity.
  - reflexivity.
  - reflexivity.
  - reflexivity.
  - reflexivity.
  - simpl; lia.
  - simpl; lia.
  - vm_compute; reflexivity.
  - vm_compute; reflexivity.
  - reflexivity.
  - reflexivity.
Defined.

Lemma push_pop_round_trip_witness :
  exists σ1,
    sp_packet_fifo_push (created (-1)) (Some 1%nat) (Some 7%nat) = Returns 0 σ1 /\
    sp_packet_fifo_pop_flags σ1 (Some 1%nat) 0
      = Returns (0, CLONE_FN (Some 7%nat)) (created (-1)) /\
    sp_packet_fifo_pop σ1 (Some 1%nat) = Returns (CLONE_FN (Some 7%nat)) (created (-1)).
Proof.
  apply (push_pop_round_trip (created (-1)) 1%nat (sample_fifo [] (-1) [] [])
           (Some 7%nat) 0).
  - vm_compute; reflexivity.
  - reflexivity.
  - reflexivity.
  - simpl; lia.
  - vm_compute; reflexivity.
  - reflexivity.
Defined.

Lemma pull_outcomes_witness :
  sp_packet_fifo_pop_flags crowded (Some 1%nat) 0
    = Returns (0, Some 1%nat)
        (<[1%nat := sample_fifo [Some 2%nat; Some 3%nat] 1 [] []]> crowded) /\
  match packet_fifo_pull_flags_template crowded (Some 1%nat) 0 true with
  | Returns (ret, out) σ' =>
      (ret = 0 /\
       exists head tail,
         queued (sample_fifo [Some 1%nat; Some 2%nat; Some 3%nat] 1 [] []) = head :: tail /\
         out = head /\
         σ' = <[1%nat := set_queued
                           (sample_fifo [Some 1%nat; Some 2%nat; Some 3%nat] 1 [] []) tail]>
                crowded)
      \/ (ret = AVERROR EAGAIN /\ out = None /\
          queued (sample_fifo [Some 1%nat; Some 2%nat; Some 3%nat] 1 [] []) = [] /\
          (σ' = crowded \/
           σ' = <[1%nat := set_poked
                             (sample_fifo [Some 1%nat; Some 2%nat; Some 3%nat] 1 [] [])
                             false]> crowded))
  | Blocks w σ' =>
      w = WaitCondIn 1%nat /\
      queued (sample_fifo [Some 1%nat; Some 2%nat; Some 3%nat] 1 [] []) = [] /\
      Z.land (block_flags (sample_fifo [Some 1%nat; Some 2%nat; Some 3%nat] 1 [] []))
        PACKET_FIFO_BLOCK_NO_INPUT <> 0 /\
      Z.land 0 PACKET_FIFO_PULL_NO_BLOCK = 0 /\
      σ' = <[1%nat := set_poked
                        (sample_fifo [Some 1%nat; Some 2%nat; Some 3%nat] 1 [] [])
                        false]> crowded
  | Aborts => False
  | OutOfFuel => False
  end.
Proof.
  split; [vm_compute; reflexivity|].
  apply (pull_outcomes crowded 1%nat
           (sample_fifo [Some 1%nat; Some 2%nat; Some 3%nat] 1 [] []) 0 true).
  vm_compute; reflexivity.
Defined.

Lemma poke_then_pull_witness :
  exists σ1,
    sp_packet_fifo_poke patient 1%nat = Returns 0 σ1 /\
    sp_packet_fifo_pop_flags σ1 (Some 1%nat) PACKET_FIFO_PULL_POKE
      = Returns (AVERROR EAGAIN, None) patient.
Proof.
  destruct (poke_then_pull patient 1%nat
              {| queued := []; max_queued := -1; block_flags := PACKET_FIFO_BLOCK_NO_INPUT;
                 poked := false; dests := []; sources := [] |} PACKET_FIFO_PULL_POKE)
    as (σ1 & Hpoke & Hwith & _).
  - vm_compute; reflexivity.
  - reflexivity.
  - vm_compute; discriminate.
  - vm_compute; reflexivity.
  - exists σ1. split; [exact Hpoke|].
    etransitivity; [apply Hwith; vm_compute; discriminate | vm_compute; reflexivity].
Defined.

Lemma size_accounting_witness :
  exists σ1 vals σ2,
    push_all (created (-1)) (Some 1%nat) [Some 10%nat; Some 20%nat; Some 30%nat] = Some σ1 /\
    pull_all (fun σ3 => sp_packet_fifo_pop σ3 (Some 1%nat)) σ1 2 = Returns vals σ2 /\
    vals = [Some 10%nat; Some 20%nat] /\
    sp_packet_fifo_get_size σ2 (Some 1%nat) = Returns 1 σ2.
Proof.
  destruct (push_all (created (-1)) (Some 1%nat) [Some 10%nat; Some 20%nat; Some 30%nat])
    as [σ1|] eqn:Hall; [|vm_compute in Hall; discriminate].
  destruct (size_accounting (created (-1)) 1%nat (sample_fifo [] (-1) [] [])
              [Some 10%nat; Some 20%nat; Some 30%nat] σ1 2)
    as (vals & σ2 & Hpull & Hvals & Hsize).
  - vm_compute; reflexivity.
  - simpl; lia.
  - exact Hall.
  - simpl; lia.
  - exists σ1, vals, σ2. split; [reflexivity|]. split; [exact Hpull|].
    split; [exact Hvals | exact Hsize].
Defined.

Lemma set_max_queued_keeps_items_witness :
  exists σ1 σ2,
    sp_packet_fifo_set_max_queued stocked 1%nat 1 = Returns tt σ1 /\
    sp_packet_fifo_get_max_size σ1 (Some 1%nat) = Returns 1 σ1 /\
    sp_packet_fifo_get_size σ1 (Some 1%nat) = Returns 3 σ1 /\
    pull_all (fun σ3 => sp_packet_fifo_pop σ3 (Some 1%nat)) σ1 3
    = Returns [Some 1%nat; Some 2%nat; Some 3%nat] σ2 /\
    sp_packet_fifo_is_full σ1 (Some 1%nat) = Returns 1 σ1 /\
    (forall x : nat,
       sp_packet_fifo_push σ1 (Some 1%nat) (Some x) = Returns (AVERROR ENOBUFS) σ1).
Proof.
  destruct (set_max_queued_keeps_items stocked 1%nat
              (sample_fifo [Some 1%nat; Some 2%nat; Some 3%nat] (-1) [] []) 1)
    as (σ1 & σ2 & Hset & Hmax & Hsize & Hpop & Hfull).
  - vm_compute; reflexivity.
  - destruct Hfull as [Hfull Hpush].
    + unfold INT_MAX; lia.
    + vm_compute; reflexivity.
    + reflexivity.
    + exists σ1, σ2.
      split; [exact Hset|]. split; [exact Hmax|]. split; [exact Hsize|].
      split; [exact Hpop|]. split; [exact Hfull | exact Hpush].
Defined.

Lemma set_block_flags_governs_pull_witness :
  exists σ1,
    sp_packet_fifo_set_block_flags (created 2) 1%nat PACKET_FIFO_BLOCK_NO_INPUT
      = Returns tt σ1 /\
    sp_packet_fifo_pop_flags σ1 (Some 1%nat) 0 = Blocks (WaitCondIn 1%nat) σ1.
Proof.
  destruct (set_block_flags_governs_pull (created 2) 1%nat (sample_fifo [] 2 [] [])
              PACKET_FIFO_BLOCK_NO_INPUT 0) as (σ1 & Hset & Hpull).
  - vm_compute; reflexivity.
  - reflexivity.
  - reflexivity.
  - reflexivity.
  - exists σ1. split; [exact Hset | exact Hpull].
Defined.

Lemma unmirror_outcomes_witness :
  (exists σ',
     sp_packet_fifo_unmirror linked (Some 1%nat) (Some 2%nat) = Returns 0 σ' /\
     σ' !! 1%nat = Some (sample_fifo [] (-1) [] []) /\
     σ' !! 2%nat = Some (sample_fifo [] (-1) [] [])) /\
  sp_packet_fifo_unmirror apart (Some 1%nat) (Some 2%nat) = Aborts.
Proof.
  split.
  - destruct (unmirror_outcomes linked 1%nat 2%nat
                (sample_fifo [] (-1) [] [2%nat]) (sample_fifo [] (-1) [1%nat] []))
      as [Hyes _]; [vm_compute; reflexivity | vm_compute; reflexivity |].
    destruct Hyes as (σ' & Hun & Hl).
    + split; cbn; apply list_elem_of_singleton; reflexivity.
    + exists σ'. split; [exact Hun|]. split; rewrite Hl; vm_compute; reflexivity.
  - destruct (unmirror_outcomes apart 1%nat 2%nat
                (sample_fifo [] (-1) [] []) (sample_fifo [] (-1) [] []))
      as [_ Hno]; [vm_compute; reflexivity | vm_compute; reflexivity |].
    apply Hno. intros [Hin _]. cbn in Hin. now apply elem_of_nil in Hin.
Defined.

Lemma mirror_keeps_symmetry_witness :
  exists σ1,
    sp_packet_fifo_mirror apart (Some 1%nat) (Some 2%nat) = Returns 0 σ1 /\
    in_sources σ1 1%nat 2%nat /\ in_dests σ1 2%nat 1%nat /\
    symmetric σ1.
Proof.
  assert (Hbare : map_Forall (fun _ c => sources c = [] /\ dests c = []) apart)
    by (apply (bool_decide_unpack _); vm_compute; exact I).
  assert (Hsym : symmetric apart).
  { intros d s. split; intros (c & Hc & Hin); destruct (Hbare d c Hc) as [Hs Hd] ||
      destruct (Hbare s c Hc) as [Hs Hd];
      rewrite ?Hs, ?Hd in Hin; now apply elem_of_nil in Hin. }
  destruct (mirror_keeps_symmetry apart 1%nat 2%nat
              (sample_fifo [] (-1) [] []) (sample_fifo [] (-1) [] []))
    as (σ1 & Hm & Hsrc & Hdst & Hkeep);
    [vm_compute; reflexivity | vm_compute; reflexivity |].
  exists σ1. split; [exact Hm|]. split; [|split].
  - apply Hsrc. now right.
  - apply Hdst. now right.
  - exact (Hkeep Hsym).
Defined.

Lemma unmirror_keeps_invariants_witness :
  exists σ',
    sp_packet_fifo_unmirror linked (Some 1%nat) (Some 2%nat) = Returns 0 σ' /\
    at_most_once σ' /\
    ~ in_sources σ' 1%nat 2%nat /\ ~ in_dests σ' 2%nat 1%nat.
Proof.
  destruct (sp_packet_fifo_unmirror linked (Some 1%nat) (Some 2%nat))
    as [ret σ'| | |] eqn:Hun; try (vm_compute in Hun; discriminate).
  assert (ret = 0) by (vm_compute in Hun; congruence). subst ret.
  destruct (unmirror_keeps_invariants linked 1%nat 2%nat
              (sample_fifo [] (-1) [] [2%nat]) (sample_fifo [] (-1) [1%nat] []) σ')
    as (Hsrc & Hdst & Hinv & _).
  - vm_compute; reflexivity.
  - vm_compute; reflexivity.
  - apply (bool_decide_unpack _). vm_compute. exact I.
  - exact Hun.
  - exists σ'. split; [reflexivity|]. split; [exact Hinv|]. split.
    + intros Hin. apply Hsrc in Hin as [_ Hnot]. now apply Hnot.
    + intros Hin. apply Hdst in Hin as [_ Hnot]. now apply Hnot.
Defined.

Lemma unmirror_all_detaches_witness :
  exists σ',
    sp_packet_fifo_unmirror_all chain (Some 2%nat) = Returns 0 σ' /\
    σ' !! 1%nat = Some (sample_fifo [] (-1) [] []) /\
    σ' !! 2%nat = Some (sample_fifo [] (-1) [] []) /\
    σ' !! 3%nat = Some (sample_fifo [] (-1) [] []).
Proof.
  destruct (unmirror_all_detaches chain 2%nat (sample_fifo [] (-1) [3%nat] [1%nat]))
    as (σ' & Hun & Hl & _).
  - vm_compute; reflexivity.
  - apply (bool_decide_unpack _). vm_compute. exact I.
  - intros g [Hg|Hg]; cbn in Hg; apply list_elem_of_singleton in Hg; subst g;
      vm_compute; eauto.
  - exists σ'. split; [exact Hun|].
    split; [|split]; rewrite Hl; vm_compute; reflexivity.
Defined.

Lemma string_to_block_flags_set_witness :
  sp_packet_fifo_string_to_block_flags "pull_no_block,,block_no_input,pull_no_block"
  = sp_packet_fifo_string_to_block_flags "block_no_input,pull_no_block" /\
  sp_packet_fifo_string_to_block_flags "pull_no_block,,block_no_input,pull_no_block"
  = Some (0, spec_flags_union ["pull_no_block"; "block_no_input"; "pull_no_block"]%string).
Proof.
  apply (string_to_block_flags_set "pull_no_block,,block_no_input,pull_no_block"
           "block_no_input,pull_no_block").
  - apply (bool_decide_unpack _). vm_compute. exact I.
  - intros t.
    change (tokens "pull_no_block,,block_no_input,pull_no_block")
      with ["pull_no_block"; "block_no_input"; "pull_no_block"]%string.
    change (tokens "block_no_input,pull_no_block")
      with ["block_no_input"; "pull_no_block"]%string.
    rewrite !elem_of_cons. tauto.
Defined.

Lemma negative_max_queued_refuses_witness :
  sp_packet_fifo_is_full (created (-5)) (Some 1%nat) = Returns 0 (created (-5)) /\
  sp_packet_fifo_push (created (-5)) (Some 1%nat) (Some 7%nat)
  = Returns (AVERROR ENOBUFS) (created (-5)).
Proof.
  destruct (negative_max_queued_refuses (created (-5)) 1%nat
              (sample_fifo [] (-5) [] []) 7%nat) as [Hfull Hpush].
  - vm_compute; reflexivity.
  - unfold INT_MIN; simpl; lia.
  - split; [exact Hfull | exact Hpush].
Defined.

Lemma created_fifo_first_push_witness :
  exists σ1 σ2,
    sp_packet_fifo_create ∅ (Some 1%nat) true true true 2 0 = (Some 1%nat, σ1) /\
    sp_packet_fifo_push σ1 (Some 1%nat) (Some 7%nat) = Returns 0 σ2 /\
    sp_packet_fifo_get_size σ2 (Some 1%nat) = Returns 1 σ2.
Proof.
  pose proof (created_fifo_first_push (H := sample_template) ∅ (Some 1%nat)
                true true true 2 0 7%nat) as Hcreated.
  cbn [sp_packet_fifo_create negb] in Hcreated.
  destruct Hcreated as (_ & _ & _ & _ & _ & _ & _ & ret & σ2 & Hpush & Hret & _ & Hsize).
  - intros f _. apply lookup_empty.
  - unfold INT_MIN, INT_MAX; lia.
  - reflexivity.
  - assert (Hzero : ret = 0) by (rewrite Hret; reflexivity). subst ret.
    eexists. exists σ2. split; [reflexivity|]. split; [exact Hpush | exact Hsize].
Defined.

(** ** Mirror and unmirror *)

Lemma mirror_unmirror_symmetry_witness :
  exists σ1 σ2,
    sp_packet_fifo_mirror apart (Some 1%nat) (Some 2%nat) = Returns 0 σ1 /\
    in_sources σ1 1%nat 2%nat /\ in_dests σ1 2%nat 1%nat /\
    sp_packet_fifo_unmirror σ1 (Some 1%nat) (Some 2%nat) = Returns 0 σ2 /\
    ~ in_sources σ2 1%nat 2%nat /\ ~ in_dests σ2 2%nat 1%nat /\
    σ2 = apart.
Proof.
  assert (Hns : ~ in_sources apart 1%nat 2%nat).
  { intros (c & Hc & Hin). vm_compute in Hc. injection Hc as <-.
    now apply elem_of_nil in Hin. }
  assert (Hnd : ~ in_dests apart 2%nat 1%nat).
  { intros (c & Hc & Hin). vm_compute in Hc. injection Hc as <-.
    now apply elem_of_nil in Hin. }
  destruct (mirror_unmirror_symmetry apart 1%nat 2%nat
              (sample_fifo [] (-1) [] []) (sample_fifo [] (-1) [] []))
    as (σ1 & σ2 & Hm & Hs & Hd & Hu & His & Hid & Hback).
  - lia.
  - vm_compute; reflexivity.
  - vm_compute; reflexivity.
  - exists σ1, σ2.
    split; [exact Hm|]. split; [exact Hs|]. split; [exact Hd|]. split; [exact Hu|].
    split; [now rewrite His|]. split; [now rewrite Hid|].
    exact (Hback Hns Hnd).
Defined.

(** FIFO 2 is mirrored into FIFO 1 already: mirror(1, 2) and unmirror(1, 2)
    both return 0, and 2 is still in the sources of 1 and 1 still among the
    dests of 2. *)
Lemma relinked_pair_stays_linked :
  exists σ1 σ2,
    sp_packet_fifo_mirror linked (Some 1%nat) (Some 2%nat) = Returns 0 σ1 /\
    sp_packet_fifo_unmirror σ1 (Some 1%nat) (Some 2%nat) = Returns 0 σ2 /\
    in_sources σ2 1%nat 2%nat /\ in_dests σ2 2%nat 1%nat.
Proof.
  eexists. eexists.
  split; [vm_compute; reflexivity|].
  split; [vm_compute; reflexivity|].
  split.
  - exists (sample_fifo [] (-1) [] [2%nat]).
    split; [vm_compute; reflexivity|]. apply elem_of_cons. now left.
  - exists (sample_fifo [] (-1) [1%nat] []).
    split; [vm_compute; reflexivity|]. apply elem_of_cons. now left.
Qed.
